(** * VINF: crawler, inverted index and ranking engine

    A shallow embedding of [crawler_fixed.py], [indexer_old.py] and
    [search_engine_old.py], of [get_setid] of [parser_old.py] and of the
    result loop of [vinf_app.py], with the parts of [csv.DictReader],
    [json.dump] and [json.load] that the indexer relies on, and the
    properties of the specification that are settled against it,
    followed by further properties of the code.

    Conventions of the embedding.
    - Python [str] values are modelled over ASCII: a text is a [string]
      (a [list ascii] inside the regular-expression engine).  Characters
      above 127 are treated as neither word, digit nor space characters.
    - A Python [dict] is an insertion-ordered association list
      ([PyDict]): iteration order is observable in the program (the
      ranking sorts a dict's items with a stable sort), so the order is
      kept in the model.
    - A Python [set] of URLs is a [gset string].
    - Exceptions are the left summand of a sum type.
    - A table is the list of its records, each a list of fields, the
      header first; an index file is its text. *)

From Stdlib Require Import Ascii String QArith Qabs Lqa Sorted.
From Stdlib Require Import DecimalFacts DecimalPos DecimalZ.
From stdpp Require Import base list strings gmap sets.

Set Warnings "-register-all,-clear-no-such-hyp".

Local Open Scope string_scope.
Local Open Scope list_scope.
Local Open Scope nat_scope.

(** ** Python dictionaries: insertion-ordered association lists *)

Module PyDict.

Definition dict (V : Type) : Type := list (string * V).

(** [d.get(k)] *)
Fixpoint get {V} (k : string) (d : dict V) : option V :=
  match d with
  | [] => None
  | (k', v) :: d' => if String.eqb k k' then Some v else get k d'
  end.

(** [d.get(k, dflt)] *)
Definition get_default {V} (k : string) (dflt : V) (d : dict V) : V :=
  match get k d with Some v => v | None => dflt end.

(** [k in d] *)
Definition mem {V} (k : string) (d : dict V) : bool :=
  match get k d with Some _ => true | None => false end.

(** [d[k] = v]: an existing key keeps its position, a new key goes last. *)
Fixpoint set {V} (k : string) (v : V) (d : dict V) : dict V :=
  match d with
  | [] => [(k, v)]
  | (k', v') :: d' =>
      if String.eqb k k' then (k, v) :: d' else (k', v') :: set k v d'
  end.

Definition keys {V} (d : dict V) : list string := map fst d.
Definition values {V} (d : dict V) : list V := map snd d.

(** A Python dictionary holds a key once; so does a dictionary of
    dictionaries at both levels. *)
Definition wf {V} (d : dict V) : Prop := NoDup (keys d).
Definition wf2 {V} (d : dict (dict V)) : Prop :=
  wf d ∧ Forall (λ kv : string * dict V, wf kv.2) d.

End PyDict.

(** ** A backtracking regular-expression engine

    The fragment of Python's [re] that the program uses.  A position is
    the character before the cursor (for [\b]) and the text after it.
    [ends r p] lists, in the order in which a backtracking matcher tries
    them, the positions at which a match of [r] started at [p] can end;
    the match that [re] reports is the first one. *)

Module Regex.

Inductive re : Type :=
| Eps
| Cls (f : ascii → bool)
| Seq (r1 r2 : re)
| Alt (r1 r2 : re)
| Star (r : re)
| Bnd
| Eos.

Definition pos : Type := option ascii * list ascii.

Definition code (c : ascii) : nat := nat_of_ascii c.

Definition is_digit (c : ascii) : bool := (48 <=? code c) && (code c <=? 57).
Definition is_lower (c : ascii) : bool := (97 <=? code c) && (code c <=? 122).
Definition is_upper (c : ascii) : bool := (65 <=? code c) && (code c <=? 90).
(** [\w] *)
Definition is_word (c : ascii) : bool :=
  is_digit c || is_lower c || is_upper c || (code c =? 95).
(** [\s]: space, [\t\n\v\f\r] and the separators [\x1c]-[\x1f] *)
Definition is_space (c : ascii) : bool :=
  (code c =? 32) || ((9 <=? code c) && (code c <=? 13))
  || ((28 <=? code c) && (code c <=? 31)).

(** [str.lower] on an ASCII character *)
Definition lower_char (c : ascii) : ascii :=
  if is_upper c then ascii_of_nat (code c + 32) else c.

(** The classes above are those of Python on ASCII text.  Beyond ASCII
    Python's [\w], [\d], [\s], [str.lower] and [re.IGNORECASE] know the
    letters, digits and spaces of Unicode, which the characters of this
    model do not represent: a statement that characterises what a class
    matches is made for a text of ASCII characters. *)
Definition ascii_text (s : string) : Prop :=
  Forall (λ c, code c < 128) (list_ascii_of_string s).

Definition word_before (p : pos) : bool :=
  match p.1 with Some c => is_word c | None => false end.
Definition word_after (p : pos) : bool :=
  match p.2 with c :: _ => is_word c | [] => false end.

(** [\b]: exactly one side of the cursor is a word character. *)
Definition at_boundary (p : pos) : bool := xorb (word_before p) (word_after p).

(** [$]: the end of the text, or just before a final newline. *)
Definition at_end (p : pos) : bool :=
  match p.2 with
  | [] => true
  | [c] => code c =? 10
  | _ => false
  end.

Definition progress (p p' : pos) : bool := length p'.2 <? length p.2.

(** Greedy repetition of a matcher [f], at most [n] times; an
    iteration that consumes nothing is not repeated. *)
Fixpoint star_ends (f : pos → list pos) (n : nat) (p : pos) : list pos :=
  match n with
  | 0 => [p]
  | S n' => flat_map (star_ends f n') (List.filter (progress p) (f p)) ++ [p]
  end.

Fixpoint ends (r : re) (p : pos) : list pos :=
  match r with
  | Eps => [p]
  | Cls f =>
      match p.2 with
      | c :: s => if f c then [(Some c, s)] else []
      | [] => []
      end
  | Seq r1 r2 => flat_map (ends r2) (ends r1 p)
  | Alt r1 r2 => ends r1 p ++ ends r2 p
  | Star r1 => star_ends (ends r1) (length p.2) p
  | Bnd => if at_boundary p then [p] else []
  | Eos => if at_end p then [p] else []
  end.

Definition match_at (r : re) (p : pos) : option pos := head (ends r p).

(** The left-to-right scan shared by [findall] and [sub]: the text cut
    into the matches found ([Hit]) and the characters between them
    ([Gap]).  [skip] counts the characters of the current match that
    are still to be passed over. *)
Inductive piece : Type :=
| Gap (c : ascii)
| Hit (m : list ascii).

Fixpoint scan (r : re) (prev : option ascii) (s : list ascii) (skip : nat)
  : list piece :=
  match s with
  | [] => []
  | c :: s' =>
      match skip with
      | S k => scan r (Some c) s' k
      | 0 =>
          match match_at r (prev, s) with
          | Some p' =>
              let n := length s - length p'.2 in
              Hit (take n s) :: (if n =? 0 then [Gap c] else [])
                ++ scan r (Some c) s' (pred n)
          | None => Gap c :: scan r (Some c) s' 0
          end
      end
  end.

Definition hits (ps : list piece) : list (list ascii) :=
  flat_map (λ p, match p with Hit m => [m] | Gap _ => [] end) ps.

(** [re.findall(r, s)] for a pattern without capturing groups *)
Definition findall (r : re) (s : list ascii) : list (list ascii) :=
  hits (scan r None s 0).

(** [re.sub(r, repl, s)] *)
Definition sub (r : re) (repl : list ascii) (s : list ascii) : list ascii :=
  flat_map (λ p, match p with Hit _ => repl | Gap c => [c] end)
           (scan r None s 0).

(** [r.search(s)] as a truth value *)
Definition search (r : re) (s : list ascii) : bool :=
  match findall r s with [] => false | _ :: _ => true end.

(** Derived forms *)
Definition Plus (r : re) : re := Seq r (Star r).
Definition Opt (r : re) : re := Alt r Eps.
Definition Chr (c : ascii) : re := Cls (Ascii.eqb c).
Definition Lit (s : string) : re :=
  foldr (λ c r, Seq (Chr c) r) Eps (list_ascii_of_string s).
Definition Cat (rs : list re) : re := foldr Seq Eps rs.
(** A literal under [re.IGNORECASE] *)
Definition LitI (s : string) : re :=
  foldr (λ c r, Seq (Cls (λ x, Ascii.eqb (lower_char x) (lower_char c))) r)
        Eps (list_ascii_of_string s).
Definition Fail : re := Cls (λ _, false).
Definition Any (rs : list re) : re := foldr Alt Fail rs.

End Regex.

(** ** Exceptions and JSON documents *)

Inductive exn : Type :=
| KeyError (k : string)
| ZeroDivisionError
| ValueError
| OverflowError.

Definition result (A : Type) : Type := exn + A.

Definition rbind {A B} (m : result A) (f : A → result B) : result B :=
  match m with inl e => inl e | inr a => f a end.

Notation "x ←ᵣ m ; k" := (rbind m (λ x, k))
  (at level 20, m at level 100, k at level 200, right associativity,
   only parsing).

(** The documents that [json.dump] writes and [json.load] reads back.
    Objects keep the order of their members, as Python's [json] does. *)
Inductive json : Type :=
| JNull
| JInt (z : Z)
| JStr (s : string)
| JArr (l : list json)
| JObj (l : list (string * json)).

(** ** The tokenizer and the inverted index ([indexer_old.py]) *)

Module Indexer.
Import PyDict Regex.

Definition GENERAL_STOPWORDS : list string :=
  [ "the"; "a"; "an"; "and"; "or"; "but"; "in"; "on"; "at"; "to";
    "for"; "of"; "with"; "by"; "from"; "as"; "is"; "was"; "are";
    "were"; "been"; "be"; "have"; "has"; "had"; "do"; "does"; "did";
    "will"; "would"; "should"; "could"; "may"; "might"; "can"; "this";
    "that"; "these"; "those"; "it"; "its"; "you"; "your"; "not"; "who";
    "any" ].

Definition DOMAIN_STOPWORDS : list string :=
  [ "drug"; "drugs"; "medicine"; "medication"; "medications";
    "treatment"; "pharmaceutical"; "therapy"; "oral"; "patient";
    "patients"; "may"; "should"; "can"; "use"; "used"; "using" ].

Definition ALL_STOPWORDS : list string :=
  GENERAL_STOPWORDS ++ DOMAIN_STOPWORDS.

Definition is_stopword (tok : string) : bool :=
  existsb (String.eqb tok) ALL_STOPWORDS.

Definition lower (s : list ascii) : list ascii := map lower_char s.

(** [\b\d+(?:\.\d+)?\s*(?:mg|mcg|g|ml|mcl|ug|iu|units?)\b(?:/\w+)?] *)
Definition units : re :=
  Any [ Lit "mg"; Lit "mcg"; Lit "g"; Lit "ml"; Lit "mcl"; Lit "ug";
        Lit "iu"; Seq (Lit "unit") (Opt (Lit "s")) ].
Definition number : re :=
  Seq (Plus (Cls is_digit)) (Opt (Seq (Lit ".") (Plus (Cls is_digit)))).
Definition dosage_pattern : re :=
  Cat [ Bnd; number; Star (Cls is_space); units; Bnd;
        Opt (Seq (Lit "/") (Plus (Cls is_word))) ].

(** [\b[a-z]+(?:-[a-z]+)+\b] *)
Definition compound_pattern : re :=
  Cat [ Bnd; Plus (Cls is_lower);
        Plus (Seq (Lit "-") (Plus (Cls is_lower))); Bnd ].

(** [\b\d+(?:\.\d+)?%\b] *)
Definition percentage_pattern : re := Cat [ Bnd; number; Lit "%"; Bnd ].

(** [\b[a-z]{3,}\b] *)
Definition word_pattern : re :=
  Cat [ Bnd; Cls is_lower; Cls is_lower; Cls is_lower;
        Star (Cls is_lower); Bnd ].

(** [\s+] *)
Definition spaces_pattern : re := Plus (Cls is_space).

(** The segments of a compound: [tok.split("-")] *)
Fixpoint split_hyphen (tok : list ascii) : list (list ascii) :=
  match tok with
  | [] => [[]]
  | c :: tok' =>
      if Ascii.eqb c "-" then [] :: split_hyphen tok'
      else match split_hyphen tok' with
           | seg :: segs => (c :: seg) :: segs
           | [] => [[c]]
           end
  end.

Definition has_digit (tok : list ascii) : bool := existsb is_digit tok.
Definition has_char (c : ascii) (tok : list ascii) : bool :=
  existsb (Ascii.eqb c) tok.

(** The condition of the filtering loop of [tokenize]. *)
Definition keep (tok : list ascii) : bool :=
  (has_digit tok || has_char "-" tok || has_char "%" tok)
  || (negb (is_stopword (string_of_list_ascii tok)) && (2 <? length tok)).

(** The working text after dosage spans are blanked out. *)
Definition working_text (text : list ascii) : list ascii :=
  sub dosage_pattern [" "%char] (lower text).

(** The list [tokens] before the filtering loop. *)
Definition candidates (text : list ascii) : list (list ascii) :=
  let text := lower text in
  let dosages := map (sub spaces_pattern []) (findall dosage_pattern text) in
  let text := sub dosage_pattern [" "%char] text in
  let compounds := findall compound_pattern text in
  let percentages := findall percentage_pattern text in
  let words := findall word_pattern text in
  dosages ++ compounds ++ percentages ++ words.

Definition tokenize (text : string) : list string :=
  if String.eqb text "" || String.eqb text "Not found" then []
  else map string_of_list_ascii
           (List.filter keep (candidates (list_ascii_of_string text))).

(** The state of a [DrugTFIDFIndexer]. *)
Record indexer : Type := Indexer {
  index : dict (dict nat);
  doc_count : nat;
  doc_lengths : dict nat;
  drugs : dict (dict string)
}.

(** [DrugTFIDFIndexer()] *)
Definition init : indexer :=
  {| index := []; doc_count := 0; doc_lengths := []; drugs := [] |}.

(** [collections.Counter(tokens)]: counts, keyed in order of first
    occurrence. *)
Definition Counter (tokens : list string) : dict nat :=
  fold_left (λ c t, set t (S (get_default t 0 c)) c) tokens [].

(** [self.index[term][doc_id] = count] on a [defaultdict(dict)] *)
Definition post (doc_id : string) (idx : dict (dict nat))
    (item : string * nat) : dict (dict nat) :=
  set item.1
      (set doc_id item.2 (get_default item.1 ([] : dict nat) idx)) idx.

(** The body of [add_document] after tokenization. *)
Definition add_tokens (ix : indexer) (doc_id : string)
    (tokens : list string) : indexer :=
  let term_counts := Counter tokens in
  {| index := fold_left (post doc_id) term_counts (index ix);
     doc_count := S (doc_count ix);
     doc_lengths := set doc_id (length tokens) (doc_lengths ix);
     drugs := drugs ix |}.

Definition add_document (ix : indexer) (doc_id text : string) : indexer :=
  add_tokens ix doc_id (tokenize text).

(** A sequence of [add_document] calls, one per [(doc_id, text)]. *)
Definition add_documents (ix : indexer) (docs : list (string * string))
  : indexer :=
  fold_left (λ ix dt, add_document ix dt.1 dt.2) docs ix.

(** The number of occurrences of [term] in [tokens]. *)
Definition occurrences (term : string) (tokens : list string) : nat :=
  length (List.filter (String.eqb term) tokens).

Definition default_field_weights : dict nat :=
  [ ("drug_name", 5); ("active_ingredients", 3);
    ("indications_and_usage", 4); ("inactive_ingredients", 1);
    ("contraindications", 1); ("warnings", 1) ].

(** [sep.join(parts)] *)
Fixpoint join (sep : string) (parts : list string) : string :=
  match parts with
  | [] => ""
  | [x] => x
  | x :: rest => x ++ sep ++ join sep rest
  end.

Definition create_document_text (drug_record : dict string)
    (field_weights : dict nat) : string :=
  let text_parts :=
    flat_map (λ fw : string * nat,
                let value := get_default fw.1 "" drug_record in
                if negb (String.eqb value "")
                   && negb (String.eqb value "Not found")
                then replicate fw.2 value else [])
             field_weights in
  join " " text_parts.

(** One iteration of the loop of [load_from_tsv] on a row of the
    [csv.DictReader] whose keys and values are all strings: the row of
    a record that has as many fields as the header.  The rows of the
    other records, and the index file, are in [Store] below. *)
Definition load_row (ix : indexer) (row : dict string) : result indexer :=
  match get "setid" row with
  | None => inl (KeyError "setid")
  | Some setid =>
      let ix' := {| index := index ix; doc_count := doc_count ix;
                    doc_lengths := doc_lengths ix;
                    drugs := set setid row (drugs ix) |} in
      inr (add_document ix' setid
             (create_document_text row default_field_weights))
  end.

Fixpoint load_rows (ix : indexer) (rows : list (dict string))
  : result indexer :=
  match rows with
  | [] => inr ix
  | row :: rows' => ix' ←ᵣ load_row ix row; load_rows ix' rows'
  end.

(** The posting [index[term][doc_id]], if there is one. *)
Definition posting (idx : dict (dict nat)) (term doc_id : string)
  : option nat :=
  get term idx ≫= get doc_id.

(** Term frequency [index[term].get(doc_id, 0)] and the sum of a
    document's postings over all terms of the index. *)
Definition tf (idx : dict (dict nat)) (term doc_id : string) : nat :=
  get_default doc_id 0 (get_default term ([] : dict nat) idx).
Definition postings_sum (idx : dict (dict nat)) (doc_id : string) : nat :=
  sum_list (map (λ td : string * dict nat, get_default doc_id 0 td.2) idx).

End Indexer.

(** ** The ranking engine ([search_engine_old.py]) *)

(** Floating-point numbers are a parameter of the model.  The numbers
    that go into [math.log] are carried as exact rationals; [flog q]
    stands for the float that [math.log] returns on the float computed
    for [q].  What is modelled of the floats is when an operation
    raises: the range of the doubles is explicit ([float_limit],
    [float_tiny] below), their rounding is not. *)
Class Floats : Type := {
  float : Type;
  float_of_Z : Z → float;
  fadd : float → float → float;
  fmul : float → float → float;
  flog : Q → float;
  (** [x < y] *)
  fltb : float → float → bool
}.

Module Search.
Import PyDict Indexer.

Section WithFloats.
Context `{Floats}.

(** A Python number: the IDF functions return the [int] [0] on their
    guarded branches and a [float] otherwise. *)
Inductive num : Type :=
| PyInt (z : Z)
| PyFloat (x : float).

Definition to_float (v : num) : float :=
  match v with PyInt z => float_of_Z z | PyFloat x => x end.

(** [a * b] and [a + b] on numbers *)
Definition mul (a b : num) : num :=
  match a, b with
  | PyInt x, PyInt y => PyInt (x * y)
  | _, _ => PyFloat (fmul (to_float a) (to_float b))
  end.
Definition add (a b : num) : num :=
  match a, b with
  | PyInt x, PyInt y => PyInt (x + y)
  | _, _ => PyFloat (fadd (to_float a) (to_float b))
  end.

(** The range of the doubles.  An integer, or the quotient of two
    integers, rounds to a finite double when its absolute value is below
    [2^1024 - 2^970], the midpoint between the largest double and
    [2^1024]; from there on Python raises [OverflowError].  A quotient
    of absolute value at most [2^-1075], half the smallest positive
    double, rounds to zero. *)
Definition float_limit : Q := inject_Z (2 ^ 1024 - 2 ^ 970).
Definition float_tiny : Q := / inject_Z (2 ^ 1075).

(** [float(n)]: the conversion of the integer in [n + 0.5] *)
Definition float_of_int (n : Q) : result Q :=
  if Qle_bool float_limit (Qabs n) then inl OverflowError else inr n.

(** [a / b] on integers: the quotient is rounded once *)
Definition true_div (a b : Q) : result Q :=
  if Qeq_bool b 0 then inl ZeroDivisionError
  else if Qle_bool float_limit (Qabs (a / b)) then inl OverflowError
  else inr (a / b)%Q.

(** [x / y] on floats: a quotient beyond the range is [inf], not an
    exception *)
Definition float_div (x y : Q) : result Q :=
  if Qeq_bool y 0 then inl ZeroDivisionError else inr (x / y)%Q.

(** [math.log(x)]: a domain error when the float is not positive *)
Definition math_log (x : Q) : result num :=
  if Qle_bool x float_tiny then inl ValueError
  else inr (PyFloat (flog x)).

Definition Qnat (n : nat) : Q := inject_Z (Z.of_nat n).
Definition half : Q := 1 # 2.

Record IDFCalculator : Type := {
  calc_index : dict (dict nat);
  N : nat
}.

(** [len(self.index.get(term, {}))] *)
Definition df (c : IDFCalculator) (term : string) : nat :=
  length (get_default term ([] : dict nat) (calc_index c)).

Definition standard_idf (c : IDFCalculator) (term : string) : result num :=
  let df := df c term in
  if df =? 0 then inr (PyInt 0)
  else q ←ᵣ true_div (Qnat (N c)) (Qnat df); math_log q.

Definition smooth_idf (c : IDFCalculator) (term : string) : result num :=
  let df := df c term in
  q ←ᵣ true_div (Qnat (N c)) (Qnat (df + 1)); math_log q.

Definition probabilistic_idf (c : IDFCalculator) (term : string)
  : result num :=
  let df := df c term in
  if (df =? 0) || (df =? N c) then inr (PyInt 0)
  else q ←ᵣ true_div (Qnat (N c) - Qnat df) (Qnat df); math_log q.

Definition bm25_idf (c : IDFCalculator) (term : string) : result num :=
  let df := df c term in
  n ←ᵣ float_of_int (Qnat (N c) - Qnat df);
  d ←ᵣ float_of_int (Qnat df);
  q ←ᵣ float_div (n + half) (d + half);
  math_log q.

Record DrugSearchEngine : Type := {
  engine_indexer : indexer;
  idf_calc : IDFCalculator
}.

(** [DrugSearchEngine(indexer)] *)
Definition new_engine (ix : indexer) : DrugSearchEngine :=
  {| engine_indexer := ix;
     idf_calc := {| calc_index := index ix; N := doc_count ix |} |}.

(** The dispatch on [idf_method]; an unknown name means [standard]. *)
Definition idf (c : IDFCalculator) (idf_method term : string) : result num :=
  if String.eqb idf_method "standard" then standard_idf c term
  else if String.eqb idf_method "smooth" then smooth_idf c term
  else if String.eqb idf_method "probabilistic" then probabilistic_idf c term
  else if String.eqb idf_method "bm25" then bm25_idf c term
  else standard_idf c term.

(** The two accumulators of the scoring loop, [scores] (a
    [defaultdict(float)]) and [doc_term_counts] (a [defaultdict(int)]). *)
Record accum : Type := {
  scores : dict float;
  doc_term_counts : dict nat
}.

Definition float_zero : float := float_of_Z 0.

(** [scores[doc_id] += tf * idf; doc_term_counts[doc_id] += 1] *)
Definition bump (w : num) (a : accum) (posting : string * nat) : accum :=
  let '(doc_id, tf) := posting in
  {| scores :=
       set doc_id
         (to_float (add (PyFloat (get_default doc_id float_zero (scores a)))
                        (mul (PyInt (Z.of_nat tf)) w)))
         (scores a);
     doc_term_counts :=
       set doc_id (get_default doc_id 0 (doc_term_counts a) + 1)
           (doc_term_counts a) |}.

(** The loop [for term in query_terms]. *)
Fixpoint accumulate (e : DrugSearchEngine) (idf_method : string)
    (query_terms : list string) (a : accum) : result accum :=
  match query_terms with
  | [] => inr a
  | term :: rest =>
      match get term (index (engine_indexer e)) with
      | None => accumulate e idf_method rest a
      | Some postings =>
          w ←ᵣ idf (idf_calc e) idf_method term;
          accumulate e idf_method rest (fold_left (bump w) postings a)
      end
  end.

(** [len([t for t in query_terms if t in self.indexer.index])] *)
Definition num_query_terms (e : DrugSearchEngine)
    (query_terms : list string) : nat :=
  length (List.filter (λ t, mem t (index (engine_indexer e))) query_terms).

(** The dict comprehension [filtered_scores]. *)
Definition filtered_scores (a : accum) (n : nat) : dict float :=
  List.filter (λ ds : string * float,
                 get_default ds.1 0 (doc_term_counts a) =? n)
              (scores a).

(** [sorted(items, key=lambda x: x[1], reverse=True)]: a stable sort
    by descending score. *)
Fixpoint insert_desc (x : string * float) (l : list (string * float))
  : list (string * float) :=
  match l with
  | [] => [x]
  | y :: l' => if fltb x.2 y.2 then y :: insert_desc x l' else x :: y :: l'
  end.
Definition sorted_desc (l : list (string * float)) : list (string * float) :=
  foldr insert_desc [] l.

(** The slice [l[:k]] *)
Definition slice_to {A} (k : Z) (l : list A) : list A :=
  if (k <? 0)%Z then take (length l - Z.to_nat (- k)) l
  else take (Z.to_nat k) l.

Record hit : Type := {
  setid : string;
  score : float;
  drug_name : string;
  indications : string;
  active_ingredients : string
}.

Definition field (drug : dict string) (k : string) : result string :=
  match get k drug with Some v => inr v | None => inl (KeyError k) end.

(** [s[:200]] on a string *)
Definition prefix200 (s : string) : string :=
  string_of_list_ascii (take 200 (list_ascii_of_string s)).

(** One iteration of the loop that builds [results]. *)
Definition make_hit (ix : indexer) (r : string * float) : result hit :=
  match get r.1 (drugs ix) with
  | None => inl (KeyError r.1)
  | Some drug =>
      name ←ᵣ field drug "drug_name";
      ind ←ᵣ field drug "indications_and_usage";
      act ←ᵣ field drug "active_ingredients";
      inr {| setid := r.1; score := r.2; drug_name := name;
             indications := prefix200 ind ++ "...";
             active_ingredients := act |}
  end.

Fixpoint make_hits (ix : indexer) (ranked : list (string * float))
  : result (list hit) :=
  match ranked with
  | [] => inr []
  | r :: rest =>
      h ←ᵣ make_hit ix r; hs ←ᵣ make_hits ix rest; inr (h :: hs)
  end.

(** The list [ranked]. *)
Definition ranked (e : DrugSearchEngine) (query_terms : list string)
    (a : accum) (top_k : Z) : list (string * float) :=
  slice_to top_k
    (sorted_desc (filtered_scores a (num_query_terms e query_terms))).

Definition no_scores : accum := {| scores := []; doc_term_counts := [] |}.

(** The body of [search] after tokenization. *)
Definition search_terms (e : DrugSearchEngine) (query_terms : list string)
    (idf_method : string) (top_k : Z) : result (list hit) :=
  match query_terms with
  | [] => inr []
  | _ :: _ =>
      a ←ᵣ accumulate e idf_method query_terms no_scores;
      make_hits (engine_indexer e) (ranked e query_terms a top_k)
  end.

Definition search (e : DrugSearchEngine) (query idf_method : string)
    (top_k : Z) : result (list hit) :=
  search_terms e (tokenize query) idf_method top_k.

(** The document ids of a result list, in rank order. *)
Definition setids (r : result (list hit)) : result (list string) :=
  match r with inl e => inl e | inr hits => inr (map setid hits) end.

(** The number of query terms, counted as often as they occur, whose
    posting list in [idx] has the document. *)
Definition has_posting (idx : dict (dict nat)) (doc_id term : string)
  : bool :=
  match get term idx with Some p => mem doc_id p | None => false end.
Definition matched (idx : dict (dict nat)) (doc_id : string)
    (query_terms : list string) : nat :=
  length (List.filter (has_posting idx doc_id) query_terms).

End WithFloats.
End Search.

(** ** The crawler ([crawler_fixed.py]) *)

Module Crawler.
Import Regex.

(** [MEDIA_EXTENSIONS]: a dot, one of the listed extensions, [$];
    compiled with [re.IGNORECASE], which on ASCII text lets a letter
    match in either case. *)
Definition MEDIA_EXTENSIONS : re :=
  Cat [ Chr "."%char;
        Any (map LitI [ "png"; "jpg"; "jpeg"; "gif"; "ico"; "css"; "js";
                        "svg"; "woff"; "woff2"; "ttf"; "eot"; "mp4"; "mp3";
                        "mov"; "avi" ]);
        Eos ].

Definition is_allowed_url (url_to_check : string) : bool :=
  negb (search MEDIA_EXTENSIONS (list_ascii_of_string url_to_check)).

Definition base_url : string := "https://dailymed.nlm.nih.gov".
Definition max_retries : nat := 3.

Inductive status : Type := success | failed.

(** A row of [crawl_metadata.tsv].  The column [scraped_at] (the wall
    clock) is left out; [saved_path] is the batch number and the URL
    that [get_html_path] turns into a file name, [None] for [N/A]. *)
Record FetchRecord : Type := {
  rec_url : string;
  rec_status : status;
  http_code : option nat;
  retries : nat;
  saved_path : option (nat * string)
}.

(** The content of [crawler_state.json]. *)
Record snapshot : Type := {
  snap_to_visit : list string;
  snap_visited : list string;
  snap_page_count : nat
}.

(** The effects of a run, in the order in which they happen. *)
Inductive event : Type :=
| Sleep
| Get (url : string)
| Log (r : FetchRecord)
| WriteHtml (path : nat * string) (html : string)
| WriteState (s : snapshot).

(** What [requests.get] followed by [raise_for_status] meets: a
    response, or a [RequestException] that carries none. *)
Inductive reply : Type :=
| Response (status_code : nat) (text : string)
| NoResponse.

(** The world outside the crawler.  [http_get] answers a request given
    everything that happened before it.  [extract_links] is built on
    [re], [urljoin] and [urlparse]; it is taken as given, and returns
    the set of links as the list in which the loop of [crawl] iterates
    over it. *)
Record web : Type := {
  http_get : list event → string → reply;
  extract_links : string → string → list string
}.

Record crawler : Type := {
  visited : gset string;
  page_count : nat;
  trace : list event;
  state_file : option snapshot
}.

(** [DailyMedCrawler()] in a directory that holds [state_file] *)
Definition new_crawler (state_file : option snapshot) : crawler :=
  {| visited := ∅; page_count := 0; trace := []; state_file := state_file |}.

Definition emit (e : event) (c : crawler) : crawler :=
  {| visited := visited c; page_count := page_count c;
     trace := trace c ++ [e]; state_file := state_file c |}.

(** The audit log: the rows written so far. *)
Definition metadata (c : crawler) : list FetchRecord :=
  flat_map (λ e, match e with Log r => [r] | _ => [] end) (trace c).

Definition get_html_path (c : crawler) (url : string) : nat * string :=
  (page_count c / 2000, url).

(** [http_code or "N/A"] *)
Definition or_na (code : option nat) : option nat :=
  match code with Some 0 => None | _ => code end.

Definition log_metadata (c : crawler) (url : string) (st : status)
    (code : option nat) (retries : nat) (path : option (nat * string))
  : crawler :=
  emit (Log {| rec_url := url; rec_status := st; http_code := or_na code;
               retries := retries; saved_path := path |}) c.

(** [response.raise_for_status()] raises on 4xx and 5xx. *)
Definition raises (status_code : nat) : bool :=
  (400 <=? status_code) && (status_code <? 600).

Definition mark_visited (url : string) (c : crawler) : crawler :=
  {| visited := {[url]} ∪ visited c; page_count := page_count c;
     trace := trace c; state_file := state_file c |}.

(** The loop [for attempt in range(1, self.max_retries + 1)], with
    [todo] iterations left. *)
Fixpoint attempts (w : web) (url : string) (todo attempt : nat)
    (c : crawler) : option string * crawler :=
  match todo with
  | 0 => (None, c)
  | S todo' =>
      let c1 := emit Sleep c in
      let r := http_get w (trace c1) url in
      let c2 := emit (Get url) c1 in
      let on_error (code : option nat) :=
        if attempt =? max_retries
        then (None, log_metadata c2 url failed code attempt None)
        else attempts w url todo' (S attempt) c2 in
      match r with
      | Response code text =>
          if raises code then on_error (Some code)
          else
            let c3 := mark_visited url c2 in
            (Some text,
             log_metadata c3 url success (Some code) attempt
                          (Some (get_html_path c3 url)))
      | NoResponse => on_error None
      end
  end.

Definition fetch (w : web) (c : crawler) (url : string)
  : option string * crawler :=
  if bool_decide (url ∈ visited c) then (None, c)
  else attempts w url max_retries 1 c.

Definition save_state (c : crawler) (to_visit : list string) : crawler :=
  let s := {| snap_to_visit := to_visit;
              snap_visited := elements (visited c);
              snap_page_count := page_count c |} in
  {| visited := visited c; page_count := page_count c;
     trace := trace c ++ [WriteState s]; state_file := Some s |}.

Definition load_state (c : crawler) : option (list string) * crawler :=
  match state_file c with
  | Some s =>
      (Some (snap_to_visit s),
       {| visited := list_to_set (snap_visited s);
          page_count := snap_page_count s;
          trace := trace c; state_file := state_file c |})
  | None => (None, c)
  end.

Definition save_html (c : crawler) (url html : string) : crawler :=
  {| visited := visited c; page_count := S (page_count c);
     trace := trace c ++ [WriteHtml (get_html_path c url) html];
     state_file := state_file c |}.

(** The body of [for link in new_links]. *)
Definition enqueue (c : crawler) (to_visit : list string) (link : string)
  : list string :=
  if bool_decide (link ∉ visited c) && bool_decide (link ∉ to_visit)
     && is_allowed_url link
  then to_visit ++ [link] else to_visit.

(** [max_pages = 2000000] overrides the argument of [crawl]. *)
Definition max_pages : N := 2000000.

(** The state of the loop of [crawl]: the crawler and [to_visit]. *)
Definition frontier : Type := crawler * list string.

(** One iteration of [while to_visit and len(self.visited) < max_pages];
    [None] when the loop is left. *)
Definition step (w : web) (s : frontier) : option frontier :=
  match s.2 with
  | [] => None
  | current_url :: to_visit =>
      if (N.of_nat (size (visited s.1)) <? max_pages)%N then
        match fetch w s.1 current_url with
        | (None, c1) => Some (c1, to_visit)
        | (Some html, c1) =>
            if String.eqb html "" then Some (c1, to_visit)
            else
              let c2 := save_html c1 current_url html in
              let new_links := extract_links w html current_url in
              let to_visit' := fold_left (enqueue c2) new_links to_visit in
              let c3 := if page_count c2 mod 100 =? 0
                        then save_state c2 to_visit' else c2 in
              Some (c3, to_visit')
        end
      else None
  end.

(** The loop, cut off after [fuel] iterations: [None] when the fuel
    does not suffice to leave the loop. *)
Fixpoint loop (w : web) (fuel : nat) (s : frontier) : option frontier :=
  match step w s with
  | None => Some s
  | Some s' =>
      match fuel with
      | 0 => None
      | S fuel' => loop w fuel' s'
      end
  end.

(** The frontier with which [crawl] enters its loop. *)
Definition crawl_entry (c : crawler) (start_url : option string)
    (resume : bool) : frontier :=
  let start_url := default base_url start_url in
  if resume then
    match load_state c with
    | (Some (u :: to_visit), c') => (c', u :: to_visit)
    | (_, c') => (c', [start_url])
    end
  else (c, [start_url]).

Definition crawl (w : web) (fuel : nat) (c : crawler)
    (start_url : option string) (resume : bool) : option crawler :=
  s ← loop w fuel (crawl_entry c start_url resume);
  Some (save_state s.1 s.2).

(** The frontiers that the loop passes through. *)
Inductive reaches (w : web) : frontier → frontier → Prop :=
| reaches_refl s : reaches w s s
| reaches_step s s' s'' :
    reaches w s s' → step w s' = Some s'' → reaches w s s''.

(** The frontier invariant: no URL twice in the queue, none of them
    visited. *)
Definition frontier_ok (s : frontier) : Prop :=
  NoDup s.2 ∧ ∀ u, u ∈ s.2 → u ∉ visited s.1.

End Crawler.

(** ** Index statistics ([indexer_old.py], [get_statistics]) *)

Module Statistics.
Import PyDict Indexer.

(** [sorted(items, key=lambda x: x[1], reverse=True)] on document
    counts: a stable sort by descending count. *)
Fixpoint insert_by_count (x : string * nat) (l : list (string * nat))
  : list (string * nat) :=
  match l with
  | [] => [x]
  | y :: l' =>
      if x.2 <? y.2 then y :: insert_by_count x l' else x :: y :: l'
  end.
Definition sorted_by_count (l : list (string * nat)) : list (string * nat) :=
  foldr insert_by_count [] l.

Record stats : Type := {
  total_documents : nat;
  unique_terms : nat;
  total_tokens : nat;
  avg_document_length : Q;
  most_common_terms : list (string * nat)
}.

(** The average is the exact quotient; Python rounds it to a float. *)
Definition get_statistics (ix : indexer) : stats :=
  let total_tokens := sum_list (values (doc_lengths ix)) in
  let avg_doc_length :=
    if 0 <? doc_count ix
    then (inject_Z (Z.of_nat total_tokens)
          / inject_Z (Z.of_nat (doc_count ix)))%Q
    else 0%Q in
  let term_doc_counts :=
    map (λ td : string * dict nat, (td.1, length td.2)) (index ix) in
  let most_common := take 20 (sorted_by_count term_doc_counts) in
  {| total_documents := doc_count ix;
     unique_terms := length (index ix);
     total_tokens := total_tokens;
     avg_document_length := avg_doc_length;
     most_common_terms := most_common |}.

End Statistics.

(** ** File names of saved pages ([crawler_fixed.py], [get_html_path]) *)

Module FileNames.
Import Regex.

(** [[a-zA-Z0-9_-]] *)
Definition safe_char (c : ascii) : bool :=
  is_lower c || is_upper c || is_digit c
  || Ascii.eqb c "_" || Ascii.eqb c "-".

(** [[^a-zA-Z0-9_-]] *)
Definition unsafe_pattern : re := Cls (λ c, negb (safe_char c)).

Fixpoint lstrip (c : ascii) (s : list ascii) : list ascii :=
  match s with
  | x :: s' => if Ascii.eqb x c then lstrip c s' else s
  | [] => []
  end.

(** [s.strip(c)] for a single character [c] *)
Definition strip (c : ascii) (s : list ascii) : list ascii :=
  reverse (lstrip c (reverse (lstrip c s))).

(** The variable [safe_name] of [get_html_path], from the path and
    query of the URL. *)
Definition safe_name (path_and_query : string) : string :=
  let s := sub unsafe_pattern ["_"%char]
               (strip "/" (list_ascii_of_string path_and_query)) in
  let s := match s with [] => list_ascii_of_string "index" | _ :: _ => s end in
  string_of_list_ascii (take 200 s).

(** The last component of the path that [get_html_path] returns. *)
Definition html_file_name (path_and_query : string) : string :=
  safe_name path_and_query ++ ".html".

End FileNames.

(** ** The set id of a saved page ([parser_old.py], [get_setid]) *)

Module Parser.
Import Regex.

Inductive parser_exn : Type := IndexError.

(** [s.split(sep)] for a single character [sep] *)
Fixpoint split_on (sep : ascii) (s : list ascii) : list (list ascii) :=
  match s with
  | [] => [[]]
  | c :: s' =>
      if Ascii.eqb c sep then [] :: split_on sep s'
      else match split_on sep s' with
           | seg :: segs => (c :: seg) :: segs
           | [] => [[c]]
           end
  end.

(** [l.index(x)] for an [x] that is in [l] *)
Fixpoint index_of (x : list ascii) (l : list (list ascii)) : nat :=
  match l with
  | [] => 0
  | y :: l' => if bool_decide (x = y) then 0 else S (index_of x l')
  end.

Definition is_hex (c : ascii) : bool :=
  is_digit c || ((97 <=? code c) && (code c <=? 102)).

Definition hex (n : nat) : re := Cat (replicate n (Cls is_hex)).

(** [setid=([0-9a-f]{8}-[0-9a-f]{4}-[0-9a-f]{4}-[0-9a-f]{4}-[0-9a-f]{12})] *)
Definition setid_pattern : re :=
  Cat [ Lit "setid="; hex 8; Chr "-"; hex 4; Chr "-"; hex 4; Chr "-";
        hex 4; Chr "-"; hex 12 ].

(** [get_setid(html, filename)]: [inr None] stands for the implicit
    [return None] when neither the file name nor the page has a set id. *)
Definition get_setid (html filename : string)
  : parser_exn + option string :=
  let file_components := split_on "_" (list_ascii_of_string filename) in
  let key := list_ascii_of_string "setid" in
  if bool_decide (key ∈ file_components) then
    match file_components !! (index_of key file_components + 1) with
    | None => inl IndexError
    | Some setid =>
        inr (Some (string_of_list_ascii
                     (default [] (head (split_on "." setid)))))
    end
  else
    match findall setid_pattern (list_ascii_of_string html) with
    | [] => inr None
    | m :: _ => inr (Some (string_of_list_ascii (drop 6 m)))
    end.

End Parser.

(** ** The result list of the Lucene front end ([vinf_app.py], [search]) *)

Module LuceneApp.

(** The stored fields of a document that the loop reads with
    [doc.get]; a field that is not stored reads as [None]. *)
Record stored_doc : Type := {
  doc_drug_name : option string;
  doc_active_ingredients : option string;
  doc_indications_and_usage : option string;
  doc_warnings : option string;
  doc_setid : option string
}.

Section Results.
(** The type of Lucene's scores *)
Context {S : Type}.

Record result_row : Type := {
  row_score : S;
  row_drug_name : option string;
  row_active_ingredients : option string;
  row_indications : option string;
  row_warnings : option string;
  row_setid : option string
}.

Definition make_row (hit : S * stored_doc) : result_row :=
  {| row_score := hit.1;
     row_drug_name := doc_drug_name hit.2;
     row_active_ingredients := doc_active_ingredients hit.2;
     row_indications := doc_indications_and_usage hit.2;
     row_warnings := doc_warnings hit.2;
     row_setid := doc_setid hit.2 |}.

(** The loop [for hit in hits] of [search], from the state
    [(seen, results)]; the hits are the score documents that the
    searcher returned, with their stored fields. *)
Fixpoint collect (top_k : Z) (hits : list (S * stored_doc))
    (seen : gset (option string)) (results : list result_row)
  : list result_row :=
  match hits with
  | [] => results
  | hit :: rest =>
      let drug_name := doc_drug_name hit.2 in
      if bool_decide (drug_name ∉ seen) then
        let seen' := {[drug_name]} ∪ seen in
        let results' := results ++ [make_row hit] in
        if (top_k <=? Z.of_nat (length results'))%Z then results'
        else collect top_k rest seen' results'
      else collect top_k rest seen results
  end.

Definition search_results (top_k : Z) (hits : list (S * stored_doc))
  : list result_row :=
  collect top_k hits ∅ [].

End Results.

Arguments result_row : clear implicits.

End LuceneApp.

(** ** JSON text: [json.dump] with [indent=2], and [json.load]

    The encoder is [JSONEncoder(indent=2).iterencode] with the default
    [ensure_ascii]; the decoder is [JSONDecoder.decode] with its scanner
    ([scan_once], [JSONObject], [JSONArray], [scanstring]).  A document
    holds [null], integers, strings, arrays and objects; the decoder
    returns [None] where Python raises, and also on a text with a
    float, a boolean or a character beyond the characters of this
    model, which the documents of the index never hold. *)

Module Json.
Import Regex.

Definition quote : ascii := "034"%char.
Definition backslash : ascii := "092"%char.
Definition newline : ascii := "010"%char.

Definition chars (s : string) : list ascii := list_ascii_of_string s.

(** *** The encoder *)

(** The hexadecimal digit of a number below 16, in lower case. *)
Definition hex_digit (n : nat) : ascii :=
  ascii_of_nat (if n <? 10 then 48 + n else 87 + n).

(** [ESCAPE_ASCII] and [ESCAPE_DCT]: the quote, the backslash and every
    character outside the printable ASCII are escaped. *)
Definition escape (c : ascii) : list ascii :=
  let n := code c in
  if n =? 34 then [backslash; quote]
  else if n =? 92 then [backslash; backslash]
  else if n =? 8 then [backslash; "b"%char]
  else if n =? 12 then [backslash; "f"%char]
  else if n =? 10 then [backslash; "n"%char]
  else if n =? 13 then [backslash; "r"%char]
  else if n =? 9 then [backslash; "t"%char]
  else if (32 <=? n) && (n <=? 126) then [c]
  else [backslash; "u"%char; "0"%char; "0"%char;
        hex_digit (n / 16); hex_digit (n mod 16)].

Definition encode_basestring_ascii (s : string) : list ascii :=
  quote :: flat_map escape (chars s) ++ [quote].

(** [int.__repr__]: the decimal digits, after a minus sign for a
    negative number. *)
Fixpoint digits (d : Decimal.uint) : list ascii :=
  match d with
  | Decimal.Nil => []
  | Decimal.D0 d => "0"%char :: digits d
  | Decimal.D1 d => "1"%char :: digits d
  | Decimal.D2 d => "2"%char :: digits d
  | Decimal.D3 d => "3"%char :: digits d
  | Decimal.D4 d => "4"%char :: digits d
  | Decimal.D5 d => "5"%char :: digits d
  | Decimal.D6 d => "6"%char :: digits d
  | Decimal.D7 d => "7"%char :: digits d
  | Decimal.D8 d => "8"%char :: digits d
  | Decimal.D9 d => "9"%char :: digits d
  end.

Definition int_repr (z : Z) : list ascii :=
  match Z.to_int z with
  | Decimal.Pos d => digits d
  | Decimal.Neg d => "-"%char :: digits d
  end.

(** The limit of the conversions between [int] and [str]: both raise
    [ValueError] on more than [sys.get_int_max_str_digits()] digits. *)
Definition max_str_digits : nat := 4300.

Definition int_ok (z : Z) : bool :=
  match Z.to_int z with
  | Decimal.Pos d | Decimal.Neg d => Decimal.nb_digits d <=? max_str_digits
  end.

Fixpoint ints_ok (j : json) : bool :=
  match j with
  | JInt z => int_ok z
  | JArr l => forallb ints_ok l
  | JObj l => forallb (λ kv : string * json, ints_ok kv.2) l
  | _ => true
  end.

(** A new line and the indentation of a level. *)
Definition newline_indent (level : nat) : list ascii :=
  newline :: repeat " "%char (2 * level).

(** The items of an array or object, the first as it is and each later
    one after the separator. *)
Definition separated (sep : list ascii) (items : list (list ascii))
  : list ascii :=
  match items with
  | [] => []
  | x :: rest => x ++ flat_map (λ y, sep ++ y) rest
  end.

Fixpoint iterencode (level : nat) (o : json) : list ascii :=
  match o with
  | JNull => chars "null"
  | JInt z => int_repr z
  | JStr s => encode_basestring_ascii s
  | JArr [] => chars "[]"
  | JArr l =>
      "["%char :: newline_indent (S level)
      ++ separated (","%char :: newline_indent (S level))
                   (map (iterencode (S level)) l)
      ++ newline_indent level ++ ["]"%char]
  | JObj [] => chars "{}"
  | JObj l =>
      "{"%char :: newline_indent (S level)
      ++ separated (","%char :: newline_indent (S level))
           (map (λ kv : string * json,
                   encode_basestring_ascii kv.1 ++ chars ": "
                   ++ iterencode (S level) kv.2) l)
      ++ newline_indent level ++ ["}"%char]
  end.

(** The text that [json.dump(o, f, indent=2)] writes. *)
Definition dump (o : json) : result string :=
  if ints_ok o then inr (string_of_list_ascii (iterencode 0 o))
  else inl ValueError.

(** *** The decoder *)

(** [WHITESPACE] *)
Definition is_ws (c : ascii) : bool :=
  (code c =? 32) || (code c =? 9) || (code c =? 10) || (code c =? 13).

Fixpoint skip_ws (s : list ascii) : list ascii :=
  match s with
  | c :: s' => if is_ws c then skip_ws s' else s
  | [] => []
  end.

Definition hex_value (c : ascii) : option nat :=
  let n := code c in
  if is_digit c then Some (n - 48)
  else if (97 <=? n) && (n <=? 102) then Some (n - 87)
  else if (65 <=? n) && (n <=? 70) then Some (n - 55)
  else None.

(** [BACKSLASH]: the character that an escape of one letter stands
    for. *)
Definition unescape (c : ascii) : option ascii :=
  let n := code c in
  if n =? 34 then Some quote
  else if n =? 92 then Some backslash
  else if n =? 47 then Some "/"%char
  else if n =? 98 then Some "008"%char
  else if n =? 102 then Some "012"%char
  else if n =? 110 then Some "010"%char
  else if n =? 114 then Some "013"%char
  else if n =? 116 then Some "009"%char
  else None.

Definition cons_char (c : ascii) (r : list ascii * list ascii)
  : list ascii * list ascii :=
  (c :: r.1, r.2).

(** [scanstring] after the opening quote: the characters of the string
    and the text after the closing quote.  A control character is an
    error ([strict]), and so is an escape of a character above 255
    here. *)
Fixpoint scanstring (s : list ascii) : option (list ascii * list ascii) :=
  match s with
  | [] => None
  | c :: s1 =>
      if Ascii.eqb c quote then Some ([], s1)
      else if Ascii.eqb c backslash then
        match s1 with
        | [] => None
        | esc :: s2 =>
            if Ascii.eqb esc "u"%char then
              match s2 with
              | h1 :: h2 :: h3 :: h4 :: s6 =>
                  match hex_value h1, hex_value h2, hex_value h3,
                        hex_value h4 with
                  | Some a, Some b, Some c, Some d =>
                      let uni := ((a * 16 + b) * 16 + c) * 16 + d in
                      if uni <? 256
                      then cons_char (ascii_of_nat uni) <$> scanstring s6
                      else None
                  | _, _, _, _ => None
                  end
              | _ => None
              end
            else
              match unescape esc with
              | Some char => cons_char char <$> scanstring s2
              | None => None
              end
        end
      else if code c <? 32 then None
      else cons_char c <$> scanstring s1
  end.

Definition digit_of (c : ascii) : option (Decimal.uint → Decimal.uint) :=
  let n := code c in
  if n =? 48 then Some Decimal.D0
  else if n =? 49 then Some Decimal.D1
  else if n =? 50 then Some Decimal.D2
  else if n =? 51 then Some Decimal.D3
  else if n =? 52 then Some Decimal.D4
  else if n =? 53 then Some Decimal.D5
  else if n =? 54 then Some Decimal.D6
  else if n =? 55 then Some Decimal.D7
  else if n =? 56 then Some Decimal.D8
  else if n =? 57 then Some Decimal.D9
  else None.

(** The digits at the head of a text. *)
Fixpoint read_digits (s : list ascii) : Decimal.uint * list ascii :=
  match s with
  | [] => (Decimal.Nil, [])
  | c :: s' =>
      match digit_of c with
      | Some digit => let r := read_digits s' in (digit r.1, r.2)
      | None => (Decimal.Nil, s)
      end
  end.

(** The integer part of [NUMBER_RE]: a zero, or digits that do not
    begin with a zero. *)
Definition read_integer (s : list ascii)
  : option (Decimal.uint * list ascii) :=
  match s with
  | [] => None
  | c :: s' =>
      if code c =? 48 then Some (Decimal.D0 Decimal.Nil, s')
      else if is_digit c then Some (read_digits s)
      else None
  end.

(** After the integer part a fraction or an exponent makes a float; a
    dot or an [e] that begins neither is an error of the caller. *)
Definition float_follows (s : list ascii) : bool :=
  match s with
  | c :: _ => (code c =? 46) || (code c =? 101) || (code c =? 69)
  | [] => false
  end.

Definition scan_number (s : list ascii) : option (json * list ascii) :=
  let signed :=
    match s with
    | c :: s' => if code c =? 45 then (true, s') else (false, s)
    | [] => (false, s)
    end in
  match read_integer signed.2 with
  | None => None
  | Some (d, rest) =>
      if float_follows rest then None
      else if max_str_digits <? Decimal.nb_digits d then None
      else Some (JInt (Z.of_int (if signed.1 : bool then Decimal.Neg d
                                 else Decimal.Pos d)),
                 rest)
  end.

(** [s] begins with [c]: the text after it. *)
Definition after (c : ascii) (s : list ascii) : option (list ascii) :=
  match s with
  | x :: rest => if Ascii.eqb x c then Some rest else None
  | [] => None
  end.

(** [scan_once] at the first character of a value, [JSONArray] at the
    first character of an element, [JSONObject] at the quote of a key.
    The calls are counted down from [fuel]. *)
Fixpoint scan_once (fuel : nat) (s : list ascii) {struct fuel}
  : option (json * list ascii) :=
  match fuel with
  | 0 => None
  | S fuel =>
      match s with
      | [] => None
      | c :: s1 =>
          if Ascii.eqb c quote then
            match scanstring s1 with
            | Some (cs, rest) => Some (JStr (string_of_list_ascii cs), rest)
            | None => None
            end
          else if Ascii.eqb c "{"%char then
            match after "}"%char (skip_ws s1) with
            | Some rest => Some (JObj [], rest)
            | None =>
                match JSONObject fuel (skip_ws s1) with
                | Some (pairs, rest) => Some (JObj pairs, rest)
                | None => None
                end
            end
          else if Ascii.eqb c "["%char then
            match after "]"%char (skip_ws s1) with
            | Some rest => Some (JArr [], rest)
            | None =>
                match JSONArray fuel (skip_ws s1) with
                | Some (values, rest) => Some (JArr values, rest)
                | None => None
                end
            end
          else if Ascii.eqb c "n"%char then
            match (after "u"%char s1 ≫= after "l"%char)
                  ≫= after "l"%char with
            | Some rest => Some (JNull, rest)
            | None => None
            end
          else scan_number s
      end
  end
with JSONArray (fuel : nat) (s : list ascii) {struct fuel}
  : option (list json * list ascii) :=
  match fuel with
  | 0 => None
  | S fuel =>
      match scan_once fuel s with
      | None => None
      | Some (value, rest) =>
          match after "]"%char (skip_ws rest) with
          | Some rest' => Some ([value], rest')
          | None =>
              match after ","%char (skip_ws rest) with
              | None => None
              | Some rest' =>
                  match JSONArray fuel (skip_ws rest') with
                  | Some (values, rest'') => Some (value :: values, rest'')
                  | None => None
                  end
              end
          end
      end
  end
with JSONObject (fuel : nat) (s : list ascii) {struct fuel}
  : option (list (string * json) * list ascii) :=
  match fuel with
  | 0 => None
  | S fuel =>
      match after quote s ≫= scanstring with
      | None => None
      | Some (key, rest) =>
          match after ":"%char (skip_ws rest) with
          | None => None
          | Some rest1 =>
              match scan_once fuel (skip_ws rest1) with
              | None => None
              | Some (value, rest2) =>
                  let pair := (string_of_list_ascii key, value) in
                  match after "}"%char (skip_ws rest2) with
                  | Some rest3 => Some ([pair], rest3)
                  | None =>
                      match after ","%char (skip_ws rest2) with
                      | None => None
                      | Some rest3 =>
                          match JSONObject fuel (skip_ws rest3) with
                          | Some (pairs, rest4) => Some (pair :: pairs, rest4)
                          | None => None
                          end
                      end
                  end
              end
          end
      end
  end.

(** [JSONDecoder.decode], which [json.load] applies to the text of the
    file: one value between white space.  Every second call of the
    scanner at the latest consumes a character, so that the calls never
    run out. *)
Definition decode (text : string) : option json :=
  let s := chars text in
  match scan_once (S (2 * length s)) (skip_ws s) with
  | Some (obj, rest) =>
      match skip_ws rest with [] => Some obj | _ => None end
  | None => None
  end.

End Json.

(** ** The indexer on the tables and index files it reads
    ([indexer_old.py])

    [load_from_tsv] takes its rows from [csv.DictReader], and
    [load_index] its state from [json.load].  The module [Indexer]
    above has the rows of a record that is as long as the header: every
    key and every value of such a row is a string.  This module has the
    rows of every table and the states that the code builds from them.
    A record shorter than the header gives a row with the value [None]
    under the names it does not reach; a longer one gives a row with
    the list of its surplus fields under the key [None].  The key
    [None] then is a document id too, when the field [setid] is
    missing, and [json.dump] writes it as the name [null]. *)

Module Store.
Import PyDict Indexer.

(** The keys of the dictionaries of a state: strings and [None]. *)
Definition key : Type := option string.

Definition key_eqb (a b : key) : bool :=
  match a, b with
  | Some x, Some y => String.eqb x y
  | None, None => true
  | _, _ => false
  end.

Definition kdict (V : Type) : Type := list (key * V).

(** [d.get(k)] *)
Fixpoint kget {V} (k : key) (d : kdict V) : option V :=
  match d with
  | [] => None
  | (k', v) :: d' => if key_eqb k k' then Some v else kget k d'
  end.

(** [d[k] = v] *)
Fixpoint kset {V} (k : key) (v : V) (d : kdict V) : kdict V :=
  match d with
  | [] => [(k, v)]
  | (k', v') :: d' =>
      if key_eqb k k' then (k, v) :: d' else (k', v') :: kset k v d'
  end.

Definition kkeys {V} (d : kdict V) : list key := map fst d.
Definition kwf {V} (d : kdict V) : Prop := NoDup (kkeys d).

(** A dictionary with string keys, among those with any keys. *)
Definition kdict_of_dict {V} (d : dict V) : kdict V :=
  map (λ kv : string * V, (Some kv.1, kv.2)) d.

(** The values of a stored record: a field, [None], or the list of the
    surplus fields. *)
Inductive value : Type :=
| VStr (s : string)
| VNone
| VList (l : list string).

(** *** [csv.DictReader] *)

(** A row of the reader: the value under every name of the header, a
    field or [None], and the surplus fields under the key [None] if the
    record has any. *)
Record row : Type := Row {
  cells : dict (option string);
  surplus : option (list string)
}.

Definition value_of_cell (c : option string) : value :=
  match c with Some s => VStr s | None => VNone end.

(** The row as the dictionary that it is. *)
Definition dict_of_row (r : row) : kdict value :=
  map (λ kv : string * option string, (Some kv.1, value_of_cell kv.2))
      (cells r)
  ++ match surplus r with Some l => [(None, VList l)] | None => [] end.

(** [DictReader.__next__] on a record that is not empty:
    [dict(zip(fieldnames, row))], then the surplus under [restkey] or
    [restval] under the names left, both [None]. *)
Definition dict_row (fieldnames record : list string) : row :=
  let d := fold_left (λ d (kv : string * string), set kv.1 (Some kv.2) d)
                     (zip fieldnames record) [] in
  let lf := length fieldnames in
  let lr := length record in
  if lf <? lr then {| cells := d; surplus := Some (drop lf record) |}
  else {| cells := fold_left (λ d k, set k None d) (drop lr fieldnames) d;
          surplus := None |}.

Definition is_empty_record (record : list string) : bool :=
  match record with [] => true | _ => false end.

(** The records that the reader makes rows of: it skips the records
    that are empty. *)
Definition read_records (records : list (list string))
  : list (list string) :=
  List.filter (λ r, negb (is_empty_record r)) records.

(** The rows of a table whose first record is the header. *)
Definition DictReader (table : list (list string)) : list row :=
  match table with
  | [] => []
  | fieldnames :: records => map (dict_row fieldnames) (read_records records)
  end.

(** *** The state and [load_from_tsv] *)

Record state : Type := State {
  index : dict (kdict nat);
  doc_count : nat;
  doc_lengths : kdict nat;
  drugs : kdict (kdict value)
}.

(** [DrugTFIDFIndexer()] *)
Definition init : state :=
  {| index := []; doc_count := 0; doc_lengths := []; drugs := [] |}.

(** [create_document_text] on a row: [drug_record.get(field, '')] is a
    field or [None], and [None] is as false as the empty string. *)
Definition create_document_text (drug_record : row)
    (field_weights : dict nat) : string :=
  let text_parts :=
    flat_map (λ fw : string * nat,
                match get_default fw.1 (Some "") (cells drug_record) with
                | Some value =>
                    if negb (String.eqb value "")
                       && negb (String.eqb value "Not found")
                    then replicate fw.2 value else []
                | None => []
                end)
             field_weights in
  join " " text_parts.

(** [self.index[term][doc_id] = count] *)
Definition post (doc_id : key) (idx : dict (kdict nat))
    (item : string * nat) : dict (kdict nat) :=
  set item.1
      (kset doc_id item.2 (get_default item.1 ([] : kdict nat) idx)) idx.

Definition add_tokens (st : state) (doc_id : key) (tokens : list string)
  : state :=
  let term_counts := Counter tokens in
  {| index := fold_left (post doc_id) term_counts (index st);
     doc_count := S (doc_count st);
     doc_lengths := kset doc_id (length tokens) (doc_lengths st);
     drugs := drugs st |}.

Definition add_document (st : state) (doc_id : key) (text : string)
  : state :=
  add_tokens st doc_id (tokenize text).

(** One iteration of the loop of [load_from_tsv]. *)
Definition load_row (st : state) (r : row) : result state :=
  match get "setid" (cells r) with
  | None => inl (KeyError "setid")
  | Some setid =>
      let st' := {| index := index st; doc_count := doc_count st;
                    doc_lengths := doc_lengths st;
                    drugs := kset setid (dict_of_row r) (drugs st) |} in
      inr (add_document st' setid
             (create_document_text r default_field_weights))
  end.

Fixpoint load_rows (st : state) (rows : list row) : result state :=
  match rows with
  | [] => inr st
  | r :: rows' => st' ←ᵣ load_row st r; load_rows st' rows'
  end.

(** [load_from_tsv] on the records of the file. *)
Definition load_from_tsv (st : state) (table : list (list string))
  : result state :=
  load_rows st (DictReader table).

(** *** The states of [Indexer] among these *)




Definition plain_record (r : dict string) : kdict value :=
  map (λ kv : string * string, (Some kv.1, VStr kv.2)) r.

Definition widen (ix : indexer) : state :=
  {| index := map (λ tp : string * dict nat, (tp.1, kdict_of_dict tp.2))
                  (Indexer.index ix);
     doc_count := Indexer.doc_count ix;
     doc_lengths := kdict_of_dict (Indexer.doc_lengths ix);
     drugs := map (λ dr : string * dict string,
                     (Some dr.1, plain_record dr.2))
                  (Indexer.drugs ix) |}.

(** *** Persistence *)

(** The name under which [json.dump] writes a key. *)
Definition key_name (k : key) : string :=
  match k with Some s => s | None => "null" end.

Definition json_of_nat (n : nat) : json := JInt (Z.of_nat n).
Definition json_of_value (v : value) : json :=
  match v with
  | VStr s => JStr s
  | VNone => JNull
  | VList l => JArr (map JStr l)
  end.
Definition json_of_dict {V} (f : V → json) (d : dict V) : json :=
  JObj (map (λ kv : string * V, (kv.1, f kv.2)) d).
Definition json_of_kdict {V} (f : V → json) (d : kdict V) : json :=
  JObj (map (λ kv : key * V, (key_name kv.1, f kv.2)) d).

(** The document [data] of [save_index]. *)
Definition index_data (st : state) : json :=
  JObj [ ("index", json_of_dict (json_of_kdict json_of_nat) (index st));
         ("doc_count", json_of_nat (doc_count st));
         ("doc_lengths", json_of_kdict json_of_nat (doc_lengths st));
         ("drugs", json_of_kdict (json_of_kdict json_of_value) (drugs st)) ].

(** The dictionary that [json.load] makes of the members of an object:
    a name that occurs again keeps its place and takes the later
    value. *)
Definition dict_of_members {V} (l : list (string * V)) : dict V :=
  fold_left (λ d (kv : string * V), set kv.1 kv.2 d) l [].

Definition nat_of_json (j : json) : option nat :=
  match j with
  | JInt z => if (0 <=? z)%Z then Some (Z.to_nat z) else None
  | _ => None
  end.
Definition str_of_json (j : json) : option string :=
  match j with JStr s => Some s | _ => None end.
Definition value_of_json (j : json) : option value :=
  match j with
  | JStr s => Some (VStr s)
  | JNull => Some VNone
  | JArr l => VList <$> mapM str_of_json l
  | _ => None
  end.
Definition dict_of_json {V} (f : json → option V) (j : json)
  : option (dict V) :=
  match j with
  | JObj l => mapM (λ kv : string * json, v ← f kv.2; Some (kv.1, v))
                   (dict_of_members l)
  | _ => None
  end.
Definition kdict_of_json {V} (f : json → option V) (j : json)
  : option (kdict V) :=
  kdict_of_dict <$> dict_of_json f j.

(** The state that [load_index] makes of the document [data].  The code
    stores the four members unchecked; [None] stands for the documents
    that are not of the shape that [save_index] writes. *)
Definition state_of_data (data : json) : option state :=
  match data with
  | JObj members =>
      let data := dict_of_members members in
      i ← get "index" data ≫= dict_of_json (kdict_of_json nat_of_json);
      n ← get "doc_count" data ≫= nat_of_json;
      l ← get "doc_lengths" data ≫= kdict_of_json nat_of_json;
      d ← get "drugs" data ≫= kdict_of_json (kdict_of_json value_of_json);
      Some {| index := i; doc_count := n; doc_lengths := l; drugs := d |}
  | _ => None
  end.

(** [save_index] and [load_index] on the files, by path: [json.dump]
    writes the text of the document and [json.load] reads the text of
    the file.  [None] also stands for a path without a file. *)
Definition save_index (fs : dict string) (output_path : string)
    (st : state) : result (dict string) :=
  text ←ᵣ Json.dump (index_data st); inr (set output_path text fs).

Definition load_index (fs : dict string) (input_path : string)
  : option state :=
  text ← get input_path fs; data ← Json.decode text; state_of_data data.

(** No count of the state has more digits than Python converts. *)
Definition within_str_digits (st : state) : Prop :=
  Json.ints_ok (index_data st) = true.

(** Every key of the state is a string. *)
Definition str_keys {V} (d : kdict V) : Prop :=
  Forall (λ kv : key * V, is_Some kv.1) d.
Definition str_keyed (st : state) : Prop :=
  Forall (λ tp : string * kdict nat, str_keys tp.2) (index st) ∧
  str_keys (doc_lengths st) ∧
  str_keys (drugs st) ∧
  Forall (λ dr : key * kdict value, str_keys dr.2) (drugs st).

(** A Python dictionary holds a key once. *)
Definition state_wf (st : state) : Prop :=
  wf (index st) ∧
  Forall (λ tp : string * kdict nat, kwf tp.2) (index st) ∧
  kwf (doc_lengths st) ∧
  kwf (drugs st) ∧
  Forall (λ dr : key * kdict value, kwf dr.2) (drugs st).

End Store.

(** ** Concrete inputs used by the examples and counterexamples *)

Module Examples.
Import Crawler.

Definition url_a : string := base_url ++ "/a".
Definition url_b : string := base_url ++ "/b".
Definition url_c : string := base_url ++ "/c".

Definition page_s : string := "<a href='/a'>a</a> <a href='/b'>b</a>".
Definition page_b : string := "<a href='/c'>c</a>".
Definition page_c : string := "<a href='/a'>a</a>".

(** A site of four pages: the start page links to [/a] and [/b], [/b]
    links to [/c] and [/c] links to [/a]; the server answers every
    request for [/a] with status 503.  [a_first] fixes the order in
    which the two links of the start page come out of the set. *)
Definition flaky_site (a_first : bool) : web :=
  {| http_get := λ _ url,
       if String.eqb url url_a then Response 503 "Service Unavailable"
       else if String.eqb url base_url then Response 200 page_s
       else if String.eqb url url_b then Response 200 page_b
       else if String.eqb url url_c then Response 200 page_c
       else Response 404 "Not Found";
     extract_links := λ html _,
       if String.eqb html page_s
       then (if a_first then [url_a; url_b] else [url_b; url_a])
       else if String.eqb html page_b then [url_c]
       else if String.eqb html page_c then [url_a]
       else [] |}.

(** A site of one page without links. *)
Definition single_page : web :=
  {| http_get := λ _ url,
       if String.eqb url base_url then Response 200 "<p>no links</p>"
       else Response 404 "Not Found";
     extract_links := λ _ _, [] |}.

(** The table of two drugs: [A] is about pain and relief, [B] about
    pain only. *)
Definition row (id name : string) : PyDict.dict string :=
  [ ("setid", id); ("drug_name", name);
    ("active_ingredients", "Not found");
    ("inactive_ingredients", "Not found");
    ("indications_and_usage", "Not found");
    ("contraindications", "Not found"); ("warnings", "Not found") ].

Definition two_drugs : Indexer.indexer :=
  match Indexer.load_rows Indexer.init [row "A" "Pain Relief"; row "B" "Pain"]
  with
  | inr ix => ix
  | inl _ => Indexer.init
  end.


(** A table whose first record stops before the column [setid], and
    whose second record has a field more than the header. *)
Definition ragged_table : list (list string) :=
  [ [ "drug_name"; "setid" ]; [ "Aspirin" ]; [ "Ibuprofen"; "B"; "tablet" ] ].

Definition ragged_index : Store.state :=
  match Store.load_from_tsv Store.init ragged_table with
  | inr st => st
  | inl _ => Store.init
  end.

(** An instance of the float interface to run examples with: rationals,
    with the first-order term [q - 1] of the logarithm at 1 in the
    place of [math.log].  No theorem depends on it. *)
#[export] Instance ExampleFloats : Floats :=
  {| float := Q;
     float_of_Z := inject_Z;
     fadd := Qplus;
     fmul := Qmult;
     flog := λ q, (q - 1)%Q;
     fltb := λ x y, negb (Qle_bool y x) |}.

End Examples.

Module CrawlerFacts.
Import Crawler.

Lemma attempts_outcome w url todo : ∀ attempt c r c',
  attempts w url todo attempt c = (r, c') →
  page_count c' = page_count c ∧ state_file c' = state_file c ∧
  ((r = None ∧ visited c' = visited c) ∨
   (is_Some r ∧ visited c' = {[url]} ∪ visited c)).
Proof.
  induction todo as [|todo IH]; intros attempt c r c' E; simpl in E.
  - injection E as <- <-. auto.
  - destruct (http_get w _ url) as [code text|].
    + destruct (raises code).
      * destruct (attempt =? max_retries).
        -- injection E as <- <-. simpl. auto.
        -- apply IH in E. simpl in E. exact E.
      * injection E as <- <-. simpl. split; [done|]. split; [done|].
        right. split; [by eexists | done].
    + destruct (attempt =? max_retries).
      * injection E as <- <-. simpl. auto.
      * apply IH in E. simpl in E. exact E.
Qed.

Lemma fetch_outcome w c url r c' :
  fetch w c url = (r, c') →
  page_count c' = page_count c ∧ state_file c' = state_file c ∧
  ((r = None ∧ visited c' = visited c) ∨
   (is_Some r ∧ (url ∉ visited c) ∧ visited c' = {[url]} ∪ visited c)).
Proof.
  unfold fetch. case_bool_decide as Hv.
  - intros [= <- <-]. auto.
  - intros E. apply attempts_outcome in E as (Hp & Hs & Hr).
    split; [done|]. split; [done|].
    destruct Hr as [Hr|[Hr Hr']]; [by left|by right].
Qed.

Lemma enqueue_cases c q link :
  enqueue c q link = q ∨
  ((link ∉ visited c) ∧ (link ∉ q) ∧ is_allowed_url link = true ∧
   enqueue c q link = q ++ [link]).
Proof.
  unfold enqueue.
  destruct (bool_decide (link ∉ visited c)) eqn:E1; [|by left].
  destruct (bool_decide (link ∉ q)) eqn:E2; [|by left].
  destruct (is_allowed_url link) eqn:E3; [|by left].
  right. apply bool_decide_eq_true_1 in E1, E2. done.
Qed.

Lemma enqueue_ok c q link :
  frontier_ok (c, q) → frontier_ok (c, enqueue c q link).
Proof.
  intros [Hnd Hdis].
  destruct (enqueue_cases c q link) as [->|(Hv & Hq & _ & ->)]; [done|].
  split; simpl in *.
  - apply NoDup_app. split; [done|]. split; [|apply NoDup_singleton].
    intros x Hx ->%list_elem_of_singleton. done.
  - intros u [Hu| ->%list_elem_of_singleton]%elem_of_app; auto.
Qed.

Lemma enqueue_all_ok c links : ∀ q,
  frontier_ok (c, q) → frontier_ok (c, fold_left (enqueue c) links q).
Proof.
  induction links as [|l links IH]; intros q Hq; simpl; [done|].
  apply IH, enqueue_ok, Hq.
Qed.

Lemma frontier_ok_visited c c' q :
  visited c' = visited c → frontier_ok (c, q) → frontier_ok (c', q).
Proof. unfold frontier_ok; simpl. by intros ->. Qed.

Lemma step_ok w s s' : frontier_ok s → step w s = Some s' → frontier_ok s'.
Proof.
  destruct s as [c q]. intros [Hnd Hdis]. unfold step; simpl in *.
  destruct q as [|u q]; [done|].
  destruct (N.of_nat (size (visited c)) <? max_pages)%N; [|done].
  apply NoDup_cons in Hnd as [Hu Hnd].
  assert (Hq : frontier_ok (c, q)).
  { split; [done|]. intros x Hx. apply Hdis. by right. }
  destruct (fetch w c u) as [r c1] eqn:Ef.
  apply fetch_outcome in Ef as (_ & _ & Hf).
  assert (Hq1 : frontier_ok (c1, q)).
  { destruct Hf as [[_ Hv]|(_ & _ & Hv)].
    - by apply (frontier_ok_visited c).
    - destruct Hq as [? Hd]. split; [done|]. simpl in *.
      intros x Hx. rewrite Hv. apply not_elem_of_union. split; [|auto].
      intros ->%elem_of_singleton. done. }
  destruct r as [html|]; [|by intros [= <-]].
  destruct (String.eqb html ""); [by intros [= <-]|].
  intros [= <-].
  set (c2 := save_html c1 u html).
  assert (Hq2 : frontier_ok (c2, fold_left (enqueue c2)
                                (extract_links w html u) q)).
  { apply enqueue_all_ok. by apply (frontier_ok_visited c1). }
  match goal with |- context [if ?b then _ else _] => destruct b end;
    [|exact Hq2].
  by apply (frontier_ok_visited c2).
Qed.

Lemma reaches_ok w s s' : frontier_ok s → reaches w s s' → frontier_ok s'.
Proof. intros Hs Hr. induction Hr; eauto using step_ok. Qed.

(** A queue of one URL is in order after one iteration, whatever the
    visited set holds. *)
Lemma step_singleton_ok w c u s' : step w (c, [u]) = Some s' → frontier_ok s'.
Proof.
  destruct (decide (u ∈ visited c)) as [Hv|Hv].
  - unfold step, fetch; simpl.
    destruct (N.of_nat (size (visited c)) <? max_pages)%N; [|done].
    rewrite bool_decide_eq_true_2 by done. intros [= <-].
    split; simpl; [apply NoDup_nil_2|]. by intros x ?%elem_of_nil.
  - apply step_ok. split; simpl; [apply NoDup_singleton|].
    by intros x ->%list_elem_of_singleton.
Qed.

Definition snapshot_ok (sn : snapshot) : Prop :=
  NoDup (snap_to_visit sn) ∧
  ∀ u, u ∈ snap_to_visit sn → u ∉ snap_visited sn.

(** The starts of a crawl that the invariant is about: a crawler that
    has visited nothing yet, or a resume from a stored snapshot that is
    itself in order. *)
Definition start_ok (c : crawler) (resume : bool) : Prop :=
  match resume, state_file c with
  | true, Some sn => snapshot_ok sn
  | _, _ => visited c = ∅
  end.

(** [resume] found a snapshot whose pending list is empty: the loop is
    entered with the start URL alone. *)
Definition reseeded (c : crawler) (resume : bool) : bool :=
  match resume, state_file c with
  | true, Some sn => match snap_to_visit sn with [] => true | _ => false end
  | _, _ => false
  end.

Lemma entry_ok c start_url resume :
  start_ok c resume → reseeded c resume = false →
  frontier_ok (crawl_entry c start_url resume).
Proof.
  unfold start_ok, reseeded, crawl_entry, load_state.
  destruct resume, (state_file c) as [sn|]; simpl.
  - intros [Hnd Hd]. destruct (snap_to_visit sn) as [|u q] eqn:Eq; [done|].
    intros _. split; simpl; [done|].
    intros x Hx. rewrite elem_of_list_to_set. by apply Hd.
  - intros Hv _. split; simpl; [apply NoDup_singleton|].
    rewrite Hv. set_solver.
  - intros Hv _. split; simpl; [apply NoDup_singleton|].
    rewrite Hv. set_solver.
  - intros Hv _. split; simpl; [apply NoDup_singleton|].
    rewrite Hv. set_solver.
Qed.

Lemma entry_singleton c start_url resume :
  reseeded c resume = true →
  (crawl_entry c start_url resume).2 = [default base_url start_url].
Proof.
  unfold reseeded, crawl_entry, load_state.
  destruct resume, (state_file c) as [sn|]; simpl; try done.
  by destruct (snap_to_visit sn).
Qed.

Lemma first_step_ok w c start_url resume s1 :
  start_ok c resume →
  step w (crawl_entry c start_url resume) = Some s1 → frontier_ok s1.
Proof.
  intros Hs. destruct (reseeded c resume) eqn:Er.
  - pose proof (entry_singleton c start_url resume Er) as E.
    destruct (crawl_entry c start_url resume) as [c' q]. simpl in E.
    subst q. apply step_singleton_ok.
  - apply step_ok. by apply entry_ok.
Qed.

Lemma app_snoc {A} (l : list A) (x : A) (l' : list A) :
  (l ++ [x]) ++ l' = l ++ x :: l'.
Proof. by rewrite <- app_assoc. Qed.

(** What the loop over the new links appends. *)
Lemma enqueue_all_appends c links : ∀ q,
  ∃ added, fold_left (enqueue c) links q = q ++ added ∧ NoDup added ∧
           ∀ x, x ∈ added → (x ∉ visited c) ∧ (x ∉ q).
Proof.
  induction links as [|l links IH]; intros q; simpl.
  - exists []. rewrite app_nil_r. split; [done|].
    split; [apply NoDup_nil_2|]. by intros x ?%elem_of_nil.
  - destruct (IH (enqueue c q l)) as (added & E & Hnd & Hin).
    destruct (enqueue_cases c q l) as [Eq|(Hv & Hq & _ & Eq)];
      rewrite Eq in E, Hin |- *.
    + exists added. done.
    + exists (l :: added). rewrite E, app_snoc. split; [done|]. split.
      * apply NoDup_cons. split; [|done]. intros Hl.
        apply Hin in Hl as [_ Hl]. apply Hl, elem_of_app. right. by left.
      * intros x [->|Hx]%elem_of_cons; [done|].
        apply Hin in Hx as [? Hx]. split; [done|].
        intros ?. apply Hx, elem_of_app. by left.
Qed.

Lemma step_appends w c u q c' q' :
  step w (c, u :: q) = Some (c', q') →
  ∃ added, q' = q ++ added ∧ NoDup added ∧
           ∀ x, x ∈ added → (x ∉ visited c') ∧ (x ∉ q).
Proof.
  assert (Hnil : ∀ c0 : crawler,
    ∃ added, q = q ++ added ∧ NoDup added ∧
             ∀ x, x ∈ added → (x ∉ visited c0) ∧ (x ∉ q)).
  { intros c0. exists []. rewrite app_nil_r. split; [done|].
    split; [apply NoDup_nil_2|]. by intros x ?%elem_of_nil. }
  unfold step; simpl.
  destruct (N.of_nat (size (visited c)) <? max_pages)%N; [|done].
  destruct (fetch w c u) as [[html|] c1]; [|by intros [= <- <-]].
  destruct (String.eqb html ""); [by intros [= <- <-]|].
  intros [= <- <-].
  match goal with |- context [if ?b then _ else _] => destruct b end;
    apply (enqueue_all_appends (save_html c1 u html)).
Qed.

(** *** A fetch that runs out of attempts *)

Definition failed_record (url : string) (code : option nat) : FetchRecord :=
  {| rec_url := url; rec_status := failed; http_code := code;
     retries := max_retries; saved_path := None |}.

Lemma fetch_exhausted w c url c1 :
  url ∉ visited c → fetch w c url = (None, c1) →
  ∃ code,
    trace c1 = trace c ++ [ Sleep; Get url; Sleep; Get url; Sleep; Get url;
                            Log (failed_record url code) ] ∧
    visited c1 = visited c ∧ page_count c1 = page_count c.
Proof.
  intros Hv. unfold fetch. rewrite bool_decide_eq_false_2 by done.
  unfold max_retries, attempts, log_metadata, failed_record; simpl.
  repeat match goal with
    | |- context [http_get w ?t url] =>
        destruct (http_get w t url) as [? ?|]
    | |- context [raises ?n] => destruct (raises n)
    end; try discriminate;
    intros [= <-]; eexists; simpl; rewrite !app_snoc; done.
Qed.

Lemma metadata_app c t :
  flat_map (λ e, match e with Log r => [r] | _ => [] end) (trace c ++ t)
  = metadata c ++ flat_map (λ e, match e with Log r => [r] | _ => [] end) t.
Proof. unfold metadata. apply flat_map_app. Qed.

End CrawlerFacts.

Module PyDictFacts.
Import PyDict.

Section Lookup.
Context {V : Type}.
Implicit Types (d : dict V) (k : string) (v : V).

Lemma eqb_true k : String.eqb k k = true.
Proof. apply String.eqb_refl. Qed.

Lemma eqb_false k k' : k ≠ k' → String.eqb k k' = false.
Proof. by intros ?%String.eqb_neq. Qed.

Lemma get_set_eq k v d : get k (set k v d) = Some v.
Proof.
  induction d as [|[k' v'] d IH]; simpl.
  - by rewrite eqb_true.
  - destruct (String.eqb k k') eqn:E; simpl; rewrite ?eqb_true, ?E; done.
Qed.

Lemma get_set_ne k k' v d : k ≠ k' → get k' (set k v d) = get k' d.
Proof.
  intros Hne. induction d as [|[k0 v0] d IH]; simpl.
  - by rewrite eqb_false.
  - destruct (String.eqb k k0) eqn:E; simpl.
    + apply String.eqb_eq in E as <-. by rewrite !eqb_false.
    + by rewrite IH.
Qed.

Lemma get_default_set_eq k v dflt d : get_default k dflt (set k v d) = v.
Proof. unfold get_default. by rewrite get_set_eq. Qed.

Lemma get_default_set_ne k k' v dflt d :
  k ≠ k' → get_default k' dflt (set k v d) = get_default k' dflt d.
Proof. intros. unfold get_default. by rewrite get_set_ne. Qed.

Lemma get_None_keys k d : get k d = None ↔ k ∉ keys d.
Proof.
  induction d as [|[k' v'] d IH]; simpl.
  - split; [intros _ ?%elem_of_nil; done | done].
  - destruct (String.eqb k k') eqn:E.
    + apply String.eqb_eq in E as <-. split; [done|].
      intros Hk. destruct Hk. by left.
    + apply String.eqb_neq in E. rewrite IH, not_elem_of_cons. tauto.
Qed.

Lemma keys_set k v d :
  keys (set k v d) = if mem k d then keys d else keys d ++ [k].
Proof.
  unfold mem. induction d as [|[k' v'] d IH]; simpl; [done|].
  destruct (String.eqb k k') eqn:E; simpl.
  - apply String.eqb_eq in E as <-. done.
  - rewrite IH. by destruct (get k d).
Qed.

Lemma NoDup_keys_set k v d : NoDup (keys d) → NoDup (keys (set k v d)).
Proof.
  intros Hnd. rewrite keys_set. unfold mem.
  destruct (get k d) eqn:E; [done|].
  apply get_None_keys in E. apply NoDup_app. split; [done|].
  split; [|apply NoDup_singleton].
  by intros x Hx ->%list_elem_of_singleton.
Qed.

(** Replacing the value under [k] moves a sum over the values by the
    difference between the new and the old summand. *)
Lemma sum_set (g : V → nat) (dflt : V) k v d :
  g dflt = 0 →
  sum_list (map (λ kv : string * V, g kv.2) (set k v d))
    + g (get_default k dflt d)
  = sum_list (map (λ kv : string * V, g kv.2) d) + g v.
Proof.
  intros Hg. unfold get_default.
  induction d as [|[k' v'] d IH]; simpl.
  - rewrite Hg. lia.
  - destruct (String.eqb k k') eqn:E; simpl; lia.
Qed.
End Lookup.

End PyDictFacts.

Module IndexFacts.
Import PyDict PyDictFacts Indexer.

(** *** [Counter] *)

Definition count_step (c : dict nat) (t : string) : dict nat :=
  set t (S (get_default t 0 c)) c.

Lemma Counter_fold tokens : Counter tokens = fold_left count_step tokens [].
Proof. done. Qed.

Lemma count_fold_NoDup tokens : ∀ c,
  NoDup (keys c) → NoDup (keys (fold_left count_step tokens c)).
Proof.
  induction tokens as [|t tokens IH]; intros c Hc; simpl; [done|].
  apply IH, NoDup_keys_set, Hc.
Qed.

Lemma count_fold_sum tokens : ∀ c,
  sum_list (values (fold_left count_step tokens c))
  = sum_list (values c) + length tokens.
Proof.
  induction tokens as [|t tokens IH]; intros c; simpl; [lia|].
  rewrite IH. unfold count_step, values.
  pose proof (sum_set (λ n : nat, n) 0 t (S (get_default t 0 c)) c eq_refl)
    as E.
  cbv beta in E.
  change (λ kv : string * nat, kv.2) with (@snd string nat) in E. lia.
Qed.

Lemma count_fold_get tokens t : ∀ c,
  get_default t 0 (fold_left count_step tokens c)
  = get_default t 0 c + occurrences t tokens.
Proof.
  unfold occurrences.
  induction tokens as [|t' tokens IH]; intros c; simpl; [lia|].
  rewrite IH. unfold count_step.
  destruct (String.eqb t t') eqn:E; simpl.
  - apply String.eqb_eq in E as <-. rewrite get_default_set_eq. lia.
  - apply String.eqb_neq in E. by rewrite get_default_set_ne.
Qed.

Lemma count_fold_mem tokens t : ∀ c,
  get t (fold_left count_step tokens c) = None ↔
  get t c = None ∧ t ∉ tokens.
Proof.
  induction tokens as [|t' tokens IH]; intros c; simpl.
  - split; [|tauto]. intros ?. split; [done|]. by intros ?%elem_of_nil.
  - rewrite IH. unfold count_step. rewrite not_elem_of_cons.
    destruct (decide (t' = t)) as [->|Hne].
    + rewrite get_set_eq. split; [by intros [? ?]|].
      intros (_ & Hne & _). by destruct Hne.
    + rewrite get_set_ne by done. split; [|by intros (? & ? & ?)].
      intros [? ?]. split; [done|]. split; [congruence|done].
Qed.

Lemma Counter_NoDup tokens : NoDup (keys (Counter tokens)).
Proof. apply count_fold_NoDup, NoDup_nil_2. Qed.

Lemma Counter_sum tokens : sum_list (values (Counter tokens)) = length tokens.
Proof. rewrite Counter_fold, count_fold_sum. done. Qed.

Lemma Counter_get tokens t :
  get t (Counter tokens)
  = if bool_decide (t ∈ tokens) then Some (occurrences t tokens) else None.
Proof.
  pose proof (count_fold_mem tokens t []) as Hm.
  pose proof (count_fold_get tokens t []) as Hg.
  rewrite <- Counter_fold in Hm, Hg. unfold get_default in Hg. simpl in *.
  case_bool_decide as Ht.
  - destruct (get t (Counter tokens)); [by rewrite Hg|].
    destruct Hm as [Hm _]. by destruct (Hm eq_refl).
  - by apply Hm.
Qed.

(** *** Postings *)

Lemma tf_post_ne d idx t n t' d' :
  t ≠ t' → tf (post d idx (t, n)) t' d' = tf idx t' d'.
Proof. intros. unfold tf, post; simpl. by rewrite get_default_set_ne. Qed.

Lemma tf_le_sum idx t d : tf idx t d ≤ postings_sum idx d.
Proof.
  unfold tf, postings_sum, get_default at 2.
  induction idx as [|[t' docs] idx IH]; simpl; [done|].
  destruct (String.eqb t t'); simpl; lia.
Qed.

Lemma postings_sum_post_same d idx t n :
  postings_sum (post d idx (t, n)) d + tf idx t d = postings_sum idx d + n.
Proof.
  unfold postings_sum, post, tf; simpl.
  pose proof (sum_set (get_default d 0) ([] : dict nat) t
                (set d n (get_default t ([] : dict nat) idx)) idx eq_refl) as E.
  by rewrite get_default_set_eq in E.
Qed.

Lemma postings_sum_post_other d d' idx t n :
  d ≠ d' → postings_sum (post d idx (t, n)) d' = postings_sum idx d'.
Proof.
  intros Hne. unfold postings_sum, post; simpl.
  pose proof (sum_set (get_default d' 0) ([] : dict nat) t
                (set d n (get_default t ([] : dict nat) idx)) idx eq_refl) as E.
  rewrite get_default_set_ne in E by done.
  apply Nat.add_cancel_r in E. exact E.
Qed.

Lemma fold_post_sum_other d d' items : ∀ idx,
  d ≠ d' →
  postings_sum (fold_left (post d) items idx) d' = postings_sum idx d'.
Proof.
  induction items as [|[t n] items IH]; intros idx Hne; simpl; [done|].
  by rewrite IH, postings_sum_post_other.
Qed.

Lemma fold_post_sum_same d items : ∀ idx,
  NoDup (keys items) → (∀ t, t ∈ keys items → tf idx t d = 0) →
  postings_sum (fold_left (post d) items idx) d
  = postings_sum idx d + sum_list (values items).
Proof.
  induction items as [|[t n] items IH]; intros idx Hnd Hz; simpl; [lia|].
  simpl in Hnd, Hz. apply NoDup_cons in Hnd as [Ht Hnd].
  rewrite IH; [|done|].
  - pose proof (postings_sum_post_same d idx t n) as E.
    rewrite (Hz t) in E by (by left). lia.
  - intros t' Ht'. rewrite tf_post_ne; [|by intros ->].
    apply Hz. by right.
Qed.

Lemma fold_post_get d items t : ∀ idx,
  NoDup (keys items) →
  get t (fold_left (post d) items idx)
  = match get t items with
    | Some n => Some (set d n (get_default t ([] : dict nat) idx))
    | None => get t idx
    end.
Proof.
  induction items as [|[t0 n0] items IH]; intros idx Hnd; simpl; [done|].
  simpl in Hnd. apply NoDup_cons in Hnd as [Ht Hnd]. rewrite IH by done.
  unfold post; simpl. destruct (String.eqb t t0) eqn:E.
  - apply String.eqb_eq in E as ->.
    apply get_None_keys in Ht. rewrite Ht. apply get_set_eq.
  - apply String.eqb_neq in E.
    rewrite get_default_set_ne, get_set_ne by done. done.
Qed.

Lemma get_get_default (idx : dict (dict nat)) t d :
  get d (get_default t ([] : dict nat) idx) = get t idx ≫= get d.
Proof. unfold get_default. destruct (get t idx); reflexivity. Qed.

(** *** The invariant behind index additivity *)

Definition additive (ix : indexer) (seen : list string) : Prop :=
  doc_count ix = length seen ∧
  (∀ d, d ∈ seen → get d (doc_lengths ix) = Some (postings_sum (index ix) d)) ∧
  (∀ d, d ∉ seen → postings_sum (index ix) d = 0).

Lemma additive_init : additive init [].
Proof.
  split; [done|]. split; [|done]. by intros d ?%elem_of_nil.
Qed.

Lemma add_tokens_new_sum ix d tokens :
  postings_sum (index ix) d = 0 →
  postings_sum (index (add_tokens ix d tokens)) d = length tokens.
Proof.
  intros Hz. simpl. rewrite fold_post_sum_same.
  - rewrite Counter_sum. lia.
  - apply Counter_NoDup.
  - intros t _. pose proof (tf_le_sum (index ix) t d). lia.
Qed.

Lemma add_tokens_additive ix seen d tokens :
  additive ix seen → d ∉ seen → additive (add_tokens ix d tokens) (d :: seen).
Proof.
  intros (Hc & Hl & Hz) Hd. split; [simpl; lia|]. split.
  - intros d' [->|Hd']%elem_of_cons.
    + rewrite add_tokens_new_sum by auto. simpl. by rewrite get_set_eq.
    + assert (d ≠ d') by (by intros ->). simpl.
      rewrite get_set_ne, fold_post_sum_other by done. auto.
  - intros d' [Hne Hd']%not_elem_of_cons. simpl.
    rewrite fold_post_sum_other by done. auto.
Qed.

Lemma add_documents_additive docs : ∀ ix seen,
  additive ix seen → NoDup (map fst docs) →
  (∀ d, d ∈ map fst docs → d ∉ seen) →
  additive (add_documents ix docs) (rev (map fst docs) ++ seen).
Proof.
  induction docs as [|[d text] docs IH]; intros ix seen Hi Hnd Hf; [done|].
  simpl in *. apply NoDup_cons in Hnd as [Hd Hnd].
  rewrite <- app_assoc. simpl. apply IH; [|done|].
  - apply add_tokens_additive; [done|]. apply Hf. by left.
  - intros d' Hd' [->|Hs]%elem_of_cons; [done|].
    by apply (Hf d'); [right|].
Qed.

End IndexFacts.

Module SearchFacts.
Import PyDict PyDictFacts Indexer IndexFacts Search.

Lemma get_Some_elem {V} k (v : V) (d : dict V) :
  get k d = Some v → (k, v) ∈ d.
Proof.
  induction d as [|[k' v'] d IH]; simpl; [done|].
  destruct (String.eqb k k') eqn:E.
  - apply String.eqb_eq in E as <-. intros [= ->]. by left.
  - intros Hg. right. by apply IH.
Qed.

Lemma mem_false_keys {V} k (d : dict V) : k ∉ keys d → mem k d = false.
Proof. intros Hk%get_None_keys. unfold mem. by rewrite Hk. Qed.

(** *** Well-formed indexes *)

Lemma wf_set {V} k (v : V) d : wf d → wf (set k v d).
Proof. apply NoDup_keys_set. Qed.

Lemma Forall_set {V} (P : string * V → Prop) k v (d : dict V) :
  P (k, v) → Forall P d → Forall P (set k v d).
Proof.
  intros Hv. induction 1 as [|[k' v'] d Hx Hd IH]; simpl.
  - by repeat constructor.
  - destruct (String.eqb k k'); by constructor.
Qed.

Lemma wf_get_default {V} (d : dict (dict V)) k :
  wf2 d → wf (get_default k ([] : dict V) d).
Proof.
  intros [_ Hd]. unfold get_default.
  destruct (get k d) as [p|] eqn:E; [|apply NoDup_nil_2].
  apply get_Some_elem in E. rewrite Forall_forall in Hd.
  apply (Hd _ E).
Qed.

Lemma wf2_post d idx item : wf2 idx → wf2 (post d idx item).
Proof.
  intros Hw. pose proof Hw as [Hk Hv]. unfold post. split.
  - by apply wf_set.
  - apply Forall_set; [|done]. simpl. by apply wf_set, wf_get_default.
Qed.

Lemma wf2_add_tokens ix d tokens :
  wf2 (index ix) → wf2 (index (add_tokens ix d tokens)).
Proof.
  simpl. generalize (Counter tokens) (index ix).
  intros items. induction items as [|i items IH]; intros idx Hw; simpl.
  - done.
  - by apply IH, wf2_post.
Qed.

Lemma wf2_add_documents docs : ∀ ix,
  wf2 (index ix) → wf2 (index (add_documents ix docs)).
Proof.
  induction docs as [|[d text] docs IH]; intros ix Hw; simpl; [done|].
  by apply IH, wf2_add_tokens.
Qed.

Section WithFloats.
Context `{Floats}.

(** *** The counters of the scoring loop *)

Lemma bump_counts w p : ∀ a d,
  wf p →
  get_default d 0 (doc_term_counts (fold_left (bump w) p a))
  = get_default d 0 (doc_term_counts a) + (if mem d p then 1 else 0).
Proof.
  induction p as [|[d0 tf0] p IH]; intros a d Hw; simpl.
  - unfold mem; simpl. lia.
  - unfold wf in Hw. simpl in Hw. apply NoDup_cons in Hw as [Hd0 Hw].
    rewrite IH by done. simpl. unfold mem at 2. simpl.
    destruct (String.eqb d d0) eqn:E.
    + apply String.eqb_eq in E as ->.
      rewrite get_default_set_eq, mem_false_keys by done. lia.
    + apply String.eqb_neq in E.
      rewrite get_default_set_ne by done. done.
Qed.

Lemma accumulate_counts e m terms : ∀ a a' d,
  wf2 (index (engine_indexer e)) →
  accumulate e m terms a = inr a' →
  get_default d 0 (doc_term_counts a')
  = get_default d 0 (doc_term_counts a)
    + matched (index (engine_indexer e)) d terms.
Proof.
  unfold matched.
  induction terms as [|t terms IH]; intros a a' d Hw; simpl.
  - intros [= <-]. lia.
  - unfold has_posting at 1.
    destruct (get t (index (engine_indexer e))) as [p|] eqn:Et;
      [|by apply IH].
    destruct (idf (idf_calc e) m t) as [err|w]; simpl; [done|].
    intros Ha. rewrite (IH _ _ d Hw Ha), bump_counts.
    + destruct (mem d p); simpl; lia.
    + destruct Hw as [_ Hw]. rewrite Forall_forall in Hw.
      apply get_Some_elem in Et. apply (Hw _ Et).
Qed.

Lemma matched_le e d terms :
  matched (index (engine_indexer e)) d terms ≤ num_query_terms e terms.
Proof.
  unfold matched, num_query_terms, has_posting, mem.
  induction terms as [|t terms IH]; simpl; [done|].
  destruct (get t (index (engine_indexer e))) as [p|]; [|done].
  destruct (get d p); simpl; lia.
Qed.

Lemma matched_all e d terms :
  matched (index (engine_indexer e)) d terms = num_query_terms e terms →
  ∀ t, t ∈ terms → mem t (index (engine_indexer e)) = true →
       is_Some (posting (index (engine_indexer e)) t d).
Proof.
  induction terms as [|t0 terms IH]; intros E t Ht Hm.
  - by apply elem_of_nil in Ht.
  - pose proof (matched_le e d terms) as Hle.
    unfold matched, num_query_terms, has_posting, posting, mem in *.
    simpl in E.
    destruct (get t0 (index (engine_indexer e))) as [p|] eqn:E0.
    + destruct (get d p) as [n|] eqn:Ed; simpl in E; [|lia].
      apply elem_of_cons in Ht as [->|Ht]; [|apply IH; [lia|done..]].
      rewrite E0. simpl. by rewrite Ed.
    + apply elem_of_cons in Ht as [->|Ht]; [by rewrite E0 in Hm|].
      by apply IH.
Qed.

(** *** Sorting, slicing and result records *)

Lemma elem_of_insert_desc x y l : x ∈ insert_desc y l ↔ x = y ∨ x ∈ l.
Proof.
  induction l as [|z l IH]; simpl.
  - rewrite list_elem_of_singleton, elem_of_nil. tauto.
  - destruct (fltb y.2 z.2); rewrite !elem_of_cons, ?IH; tauto.
Qed.

Lemma elem_of_sorted_desc x l : x ∈ sorted_desc l ↔ x ∈ l.
Proof.
  unfold sorted_desc. induction l as [|y l IH]; simpl; [done|].
  rewrite elem_of_insert_desc, IH, elem_of_cons. done.
Qed.

Lemma elem_of_slice_to {A} (x : A) k l : x ∈ slice_to k l → x ∈ l.
Proof. unfold slice_to. destruct (k <? 0)%Z; apply subseteq_take. Qed.

Lemma slice_to_all {A} k (l : list A) :
  (Z.of_nat (length l) ≤ k)%Z → slice_to k l = l.
Proof.
  intros Hk. unfold slice_to.
  destruct (k <? 0)%Z eqn:E; [apply Z.ltb_lt in E; lia|].
  apply take_ge. lia.
Qed.

Lemma slice_to_singleton {A} k (x : A) :
  slice_to k [x] = if (0 <? k)%Z then [x] else [].
Proof.
  unfold slice_to.
  destruct (k <? 0)%Z eqn:E1, (0 <? k)%Z eqn:E2;
    try apply Z.ltb_lt in E1; try apply Z.ltb_lt in E2;
    try apply Z.ltb_ge in E1; try apply Z.ltb_ge in E2; try lia.
  - simpl. destruct (Z.to_nat (- k)) eqn:E; [lia|reflexivity].
  - destruct (Z.to_nat k) eqn:E; [lia|]. simpl. by rewrite take_nil.
  - replace k with 0%Z by lia. reflexivity.
Qed.

Lemma make_hits_setids ix : ∀ r hits,
  make_hits ix r = inr hits → map setid hits = map fst r.
Proof.
  induction r as [|x r IH]; intros hits; simpl.
  - by intros [= <-].
  - unfold make_hit.
    destruct (get x.1 (drugs ix)) as [drug|]; simpl; [|done].
    destruct (field drug "drug_name"); simpl; [done|].
    destruct (field drug "indications_and_usage"); simpl; [done|].
    destruct (field drug "active_ingredients"); simpl; [done|].
    destruct (make_hits ix r) as [|hs]; simpl; [done|].
    intros [= <-]. simpl. by rewrite (IH hs).
Qed.

Lemma elem_of_filtered_scores x a n :
  x ∈ filtered_scores a n → get_default x.1 0 (doc_term_counts a) = n.
Proof.
  unfold filtered_scores. rewrite list_elem_of_In, filter_In.
  intros [_ E]. by apply Nat.eqb_eq in E.
Qed.

(** *** Query terms outside the vocabulary *)

Definition indexed (e : DrugSearchEngine) (t : string) : bool :=
  mem t (index (engine_indexer e)).

Lemma accumulate_indexed e m terms : ∀ a,
  accumulate e m (List.filter (indexed e) terms) a = accumulate e m terms a.
Proof.
  unfold indexed, mem.
  induction terms as [|t terms IH]; intros a; simpl; [done|].
  destruct (get t (index (engine_indexer e))) as [p|] eqn:Et; simpl.
  - rewrite Et. destruct (idf (idf_calc e) m t); simpl; [done|]. apply IH.
  - apply IH.
Qed.

Lemma num_query_terms_indexed e terms :
  num_query_terms e (List.filter (indexed e) terms) = num_query_terms e terms.
Proof.
  unfold num_query_terms, indexed. f_equal.
  induction terms as [|t terms IH]; simpl; [done|].
  destruct (mem t (index (engine_indexer e))) eqn:E; simpl;
    rewrite ?E, IH; done.
Qed.

Lemma search_terms_indexed e m k terms :
  search_terms e (List.filter (indexed e) terms) m k
  = search_terms e terms m k.
Proof.
  unfold search_terms, ranked.
  rewrite <- (accumulate_indexed e m terms).
  rewrite <- (num_query_terms_indexed e terms).
  destruct terms as [|t terms]; [done|].
  destruct (List.filter (indexed e) (t :: terms)) as [|t' terms'] eqn:E;
    [|done].
  simpl. unfold filtered_scores, slice_to. simpl.
  destruct (k <? 0)%Z; by rewrite ?take_nil.
Qed.

(** Every result is a document that has all indexed query terms. *)
Lemma search_terms_sound e terms m k hits :
  wf2 (index (engine_indexer e)) →
  search_terms e terms m k = inr hits →
  ∀ h t, h ∈ hits → t ∈ terms → indexed e t = true →
         is_Some (posting (index (engine_indexer e)) t (setid h)).
Proof.
  intros Hw Hs h t Hh Ht Hi. unfold search_terms in Hs.
  destruct terms as [|t0 terms0] eqn:Eterms; [by apply elem_of_nil in Ht|].
  rewrite <- Eterms in *. clear Eterms.
  destruct (accumulate e m terms no_scores) as [|a] eqn:Ea; [done|].
  simpl in Hs. apply make_hits_setids in Hs.
  assert (Hin : setid h ∈ map fst (ranked e terms a k)).
  { rewrite <- Hs. apply list_elem_of_In, in_map, list_elem_of_In, Hh. }
  apply list_elem_of_In, in_map_iff in Hin as (x & Ex & Hx).
  apply list_elem_of_In, elem_of_slice_to in Hx.
  rewrite elem_of_sorted_desc in Hx.
  apply elem_of_filtered_scores in Hx. rewrite Ex in Hx.
  rewrite (accumulate_counts e m terms no_scores a (setid h) Hw Ea) in Hx.
  by apply (matched_all e (setid h) terms).
Qed.

(** *** The arguments of the logarithms *)

Lemma Qnat_nonneg n : (0 <= Qnat n)%Q.
Proof. unfold Qnat, Qle; simpl. lia. Qed.

Lemma Qnat_pos n : 0 < n → (0 < Qnat n)%Q.
Proof. unfold Qnat, Qlt; simpl. lia. Qed.

Lemma Qnat_le n m : n ≤ m → (Qnat n <= Qnat m)%Q.
Proof. unfold Qnat, Qle; simpl. lia. Qed.

Lemma Qnat_succ n : (Qnat (n + 1) == Qnat n + 1)%Q.
Proof.
  unfold Qnat. rewrite Nat2Z.inj_add, inject_Z_plus. reflexivity.
Qed.

Lemma Qnat_lt n m : n < m → (Qnat n + 1 <= Qnat m)%Q.
Proof.
  intros Hn. rewrite <- Qnat_succ. apply Qnat_le. lia.
Qed.

(** The float range *)
Lemma float_limit_big : (1 < float_limit)%Q.
Proof. vm_compute. reflexivity. Qed.

Lemma float_tiny_pos : (0 < float_tiny)%Q.
Proof. vm_compute. reflexivity. Qed.

Lemma float_tiny_small : (float_tiny * (float_limit + 1) < half)%Q.
Proof. vm_compute. reflexivity. Qed.

Lemma Qabs_div a b : (0 < b)%Q → (Qabs (a / b) == Qabs a / b)%Q.
Proof.
  intros Hb. unfold Qdiv. rewrite Qabs_Qmult.
  rewrite (Qabs_pos (/ b)); [reflexivity|].
  apply Qlt_le_weak, Qinv_lt_0_compat, Hb.
Qed.

(** A quotient by at least 1 is no larger than the dividend. *)
Lemma Qdiv_le_dividend a b : (0 <= a)%Q → (1 <= b)%Q → (a / b <= a)%Q.
Proof.
  intros Ha Hb. apply Qle_shift_div_r; [lra|].
  pose proof (Qmult_le_compat_r 1 b a Hb Ha) as Hm.
  rewrite Qmult_1_l, (Qmult_comm b a) in Hm. exact Hm.
Qed.

Lemma quotient_in_range a b :
  (Qabs a < float_limit)%Q → (1 <= b)%Q → (Qabs (a / b) < float_limit)%Q.
Proof.
  intros Ha Hb. rewrite Qabs_div by lra.
  apply (Qle_lt_trans _ (Qabs a)); [|done].
  apply Qdiv_le_dividend; [apply Qabs_nonneg|done].
Qed.

Lemma quotient_above_tiny a b :
  (half <= a)%Q → (0 < b)%Q → (b <= float_limit + 1)%Q →
  (float_tiny < a / b)%Q.
Proof.
  intros Ha Hb Hl. apply Qlt_shift_div_l; [done|].
  apply (Qle_lt_trans _ (float_tiny * (float_limit + 1))).
  - apply Qmult_le_l; [apply float_tiny_pos|done].
  - pose proof float_tiny_small. lra.
Qed.

Lemma quotient_nonpos a b : (a <= 0)%Q → (0 < b)%Q → (a / b <= 0)%Q.
Proof. intros Ha Hb. apply Qle_shift_div_r; [done|]. lra. Qed.


(** The operations, by cases *)
Lemma float_of_int_ok n :
  (Qabs n < float_limit)%Q → float_of_int n = inr n.
Proof.
  intros Hn. unfold float_of_int.
  destruct (Qle_bool float_limit (Qabs n)) eqn:E; [|done].
  apply Qle_bool_iff in E. lra.
Qed.


Lemma true_div_ok a b :
  (0 < b)%Q → (Qabs (a / b) < float_limit)%Q → true_div a b = inr (a / b)%Q.
Proof.
  intros Hb Hq. unfold true_div.
  destruct (Qeq_bool b 0) eqn:E; [apply Qeq_bool_iff in E; lra|].
  destruct (Qle_bool float_limit (Qabs (a / b))) eqn:E'; [|done].
  apply Qle_bool_iff in E'. lra.
Qed.

Lemma true_div_overflow a b :
  (0 < b)%Q → (float_limit <= Qabs (a / b))%Q →
  true_div a b = inl OverflowError.
Proof.
  intros Hb Hq%Qle_bool_iff. unfold true_div. rewrite Hq.
  destruct (Qeq_bool b 0) eqn:E; [apply Qeq_bool_iff in E; lra|done].
Qed.


Lemma float_div_ok a b : (0 < b)%Q → float_div a b = inr (a / b)%Q.
Proof.
  intros Hb. unfold float_div.
  destruct (Qeq_bool b 0) eqn:E; [apply Qeq_bool_iff in E; lra|done].
Qed.

Lemma math_log_ok q :
  (float_tiny < q)%Q → math_log q = inr (PyFloat (flog q)).
Proof.
  intros Hq. unfold math_log.
  destruct (Qle_bool q float_tiny) eqn:E; [|done].
  apply Qle_bool_iff in E. lra.
Qed.

Lemma math_log_error q : (q <= float_tiny)%Q → math_log q = inl ValueError.
Proof. intros Hq%Qle_bool_iff. unfold math_log. by rewrite Hq. Qed.


(** The logarithm of a quotient of integers within the float range *)
Lemma log_div_ok a b :
  (half <= a)%Q → (a < float_limit)%Q →
  (1 <= b)%Q → (b <= float_limit + 1)%Q →
  (q ←ᵣ true_div a b; math_log q) = inr (PyFloat (flog (a / b))).
Proof.
  intros Ha Hl Hb Hbl. unfold half in Ha.
  rewrite true_div_ok; [|lra|].
  - simpl. apply math_log_ok. apply quotient_above_tiny; [done|lra|done].
  - apply quotient_in_range; [|done]. rewrite Qabs_pos; lra.
Qed.

Lemma log_div_error a b :
  (a <= 0)%Q → (Qabs a < float_limit)%Q → (1 <= b)%Q →
  (q ←ᵣ true_div a b; math_log q) = inl ValueError.
Proof.
  intros Ha Hl Hb. rewrite true_div_ok; [|lra|by apply quotient_in_range].
  simpl. apply math_log_error.
  pose proof (quotient_nonpos a b Ha ltac:(lra)). pose proof float_tiny_pos.
  lra.
Qed.

Lemma Qnat_abs n : (Qabs (Qnat n) == Qnat n)%Q.
Proof. apply Qabs_pos, Qnat_nonneg. Qed.

Lemma Qnat_diff_in_range n d :
  (Qnat n < float_limit)%Q → (Qnat d < float_limit)%Q →
  (Qabs (Qnat n - Qnat d) < float_limit)%Q.
Proof.
  intros Hn Hd. apply Qabs_Qlt_condition.
  pose proof (Qnat_nonneg n). pose proof (Qnat_nonneg d). lra.
Qed.



End WithFloats.
End SearchFacts.

Module RegexFacts.
Import Regex.

(** *** What a match consumes *)

(** The character before the cursor once [m] has been passed over. *)
Definition adv (prev : option ascii) (m : list ascii) : option ascii :=
  match last m with Some c => Some c | None => prev end.

Lemma adv_nil prev : adv prev [] = prev.
Proof. done. Qed.

Lemma adv_cons prev c m : adv prev (c :: m) = adv (Some c) m.
Proof.
  unfold adv. destruct m as [|c' m]; [done|]. rewrite last_cons_cons.
  by destruct (last (c' :: m)) eqn:E; [|apply last_None in E].
Qed.

Lemma adv_app prev m1 m2 : adv prev (m1 ++ m2) = adv (adv prev m1) m2.
Proof.
  revert prev. induction m1 as [|c m1 IH]; intros prev; simpl; [done|].
  by rewrite !adv_cons, IH.
Qed.

(** From [p], passing over [m] leads to [p']. *)
Definition moves (m : list ascii) (p p' : pos) : Prop :=
  p.2 = m ++ p'.2 ∧ p'.1 = adv p.1 m.

Lemma moves_nil p : moves [] p p.
Proof. done. Qed.

Lemma moves_app m1 m2 p q p' :
  moves m1 p q → moves m2 q p' → moves (m1 ++ m2) p p'.
Proof.
  intros [E1 A1] [E2 A2]. split.
  - by rewrite E1, E2, app_assoc.
  - by rewrite A2, A1, adv_app.
Qed.

Lemma moves_eq m p p' : moves m p p' → p' = (adv p.1 m, drop (length m) p.2).
Proof.
  intros [E A]. destruct p' as [a s]. simpl in *.
  by rewrite A, E, drop_app_length.
Qed.

Lemma moves_length m p p' : moves m p p' → length p.2 = length m + length p'.2.
Proof. intros [E _]. by rewrite E, length_app. Qed.

(** *** The matches of a pattern, declaratively *)

Fixpoint den (r : re) (p p' : pos) : Prop :=
  match r with
  | Eps => p' = p
  | Cls f => ∃ c s, p.2 = c :: s ∧ f c = true ∧ p' = (Some c, s)
  | Seq r1 r2 => ∃ q, den r1 p q ∧ den r2 q p'
  | Alt r1 r2 => den r1 p p' ∨ den r2 p p'
  | Star r1 => rtc (den r1) p p'
  | Bnd => at_boundary p = true ∧ p' = p
  | Eos => at_end p = true ∧ p' = p
  end.

Lemma elem_of_flat_map {A B} (f : A → list B) (l : list A) (y : B) :
  y ∈ flat_map f l ↔ ∃ x, x ∈ l ∧ y ∈ f x.
Proof.
  rewrite list_elem_of_In, in_flat_map. setoid_rewrite list_elem_of_In. done.
Qed.

Lemma star_ends_sound (f : pos → list pos) (R : pos → pos → Prop) :
  (∀ p p', p' ∈ f p → R p p') →
  ∀ n p p', p' ∈ star_ends f n p → rtc R p p'.
Proof.
  intros Hf. induction n as [|n IH]; intros p p'; simpl.
  - intros ->%list_elem_of_singleton. done.
  - intros [Hin| ->%list_elem_of_singleton]%elem_of_app; [|done].
    apply elem_of_flat_map in Hin as (q & Hq & Hin).
    apply list_elem_of_In, filter_In in Hq as [Hq%list_elem_of_In _].
    eapply rtc_l; [by apply Hf|]. by apply IH.
Qed.

Lemma ends_sound r : ∀ p p', p' ∈ ends r p → den r p p'.
Proof.
  induction r as [|f|r1 IH1 r2 IH2|r1 IH1 r2 IH2|r1 IH1| |];
    intros p p'; simpl.
  - by intros ->%list_elem_of_singleton.
  - destruct p as [a [|c s]]; simpl; [by intros ?%elem_of_nil|].
    destruct (f c) eqn:E; [|by intros ?%elem_of_nil].
    intros ->%list_elem_of_singleton. by exists c, s.
  - intros (q & Hq & Hp)%elem_of_flat_map. exists q. auto.
  - intros [?|?]%elem_of_app; auto.
  - apply star_ends_sound. exact IH1.
  - destruct (at_boundary p) eqn:E; [|by intros ?%elem_of_nil].
    by intros ->%list_elem_of_singleton.
  - destruct (at_end p) eqn:E; [|by intros ?%elem_of_nil].
    by intros ->%list_elem_of_singleton.
Qed.

Lemma match_at_sound r p p' : match_at r p = Some p' → den r p p'.
Proof.
  unfold match_at. intros Hh. apply ends_sound.
  destruct (ends r p) as [|x l]; [done|]. injection Hh as ->. by left.
Qed.

(** Every match passes over a stretch of the text. *)
Lemma den_moves r : ∀ p p', den r p p' → ∃ m, moves m p p'.
Proof.
  induction r as [|f|r1 IH1 r2 IH2|r1 IH1 r2 IH2|r1 IH1| |];
    intros p p'; simpl.
  - intros ->. exists []. apply moves_nil.
  - intros (c & s & E & _ & ->). exists [c]. by split.
  - intros (q & H1 & H2).
    destruct (IH1 _ _ H1) as [m1 M1], (IH2 _ _ H2) as [m2 M2].
    exists (m1 ++ m2). by apply (moves_app _ _ _ q).
  - intros [?|?]; auto.
  - induction 1 as [p|p q p' Hpq _ IH].
    + exists []. apply moves_nil.
    + destruct (IH1 _ _ Hpq) as [m1 M1], IH as [m2 M2].
      exists (m1 ++ m2). by apply (moves_app _ _ _ q).
  - intros [_ ->]. exists []. apply moves_nil.
  - intros [_ ->]. exists []. apply moves_nil.
Qed.

(** Repetitions of a character class. *)
Lemma den_star_cls f p p' :
  den (Star (Cls f)) p p' → ∃ m, forallb f m = true ∧ moves m p p'.
Proof.
  simpl. induction 1 as [p|p q p' Hpq _ (m & Hm & M)].
  - exists []. split; [done|apply moves_nil].
  - destruct Hpq as (c & s & E & Hc & ->).
    exists (c :: m). split; [simpl; by rewrite Hc|].
    apply (moves_app [c] m _ (Some c, s)); [by split|done].
Qed.

Lemma den_plus_cls f p p' :
  den (Plus (Cls f)) p p' →
  ∃ m, m ≠ [] ∧ forallb f m = true ∧ moves m p p'.
Proof.
  intros (q & (c & s & E & Hc & ->) & Hs).
  apply den_star_cls in Hs as (m & Hm & M).
  exists (c :: m). split; [done|]. split; [simpl; by rewrite Hc|].
  apply (moves_app [c] m _ (Some c, s)); [by split|done].
Qed.

(** *** Computing the first match *)

Lemma flat_map_one {A B} (f : A → list B) x : flat_map f [x] = f x.
Proof. simpl. apply app_nil_r. Qed.

Lemma filter_one {A} (P : A → bool) x :
  P x = true → List.filter P [x] = [x].
Proof. intros E. simpl. by rewrite E. Qed.

Lemma ends_cls_cons f prev c s :
  ends (Cls f) (prev, c :: s) = if f c then [(Some c, s)] else [].
Proof. done. Qed.

Lemma ends_seq_bnd r p :
  at_boundary p = true → ends (Seq Bnd r) p = ends r p.
Proof.
  intros E. change (ends (Seq Bnd r) p) with (flat_map (ends r) (ends Bnd p)).
  simpl (ends Bnd p). rewrite E. apply flat_map_one.
Qed.

Lemma ends_seq_cls f r prev c s :
  f c = true → ends (Seq (Cls f) r) (prev, c :: s) = ends r (Some c, s).
Proof.
  intros E.
  change (ends (Seq (Cls f) r) (prev, c :: s))
    with (flat_map (ends r) (ends (Cls f) (prev, c :: s))).
  rewrite ends_cls_cons, E. apply flat_map_one.
Qed.

Lemma star_ends_S f n p :
  star_ends f (S n) p
  = flat_map (star_ends f n) (List.filter (progress p) (f p)) ++ [p].
Proof. done. Qed.

Definition stops (f : ascii → bool) (post : list ascii) : Prop :=
  match post with c :: _ => f c = false | [] => True end.

(** A greedy repetition of a class first takes the whole run. *)
Lemma star_cls_head f seg : ∀ prev n post,
  forallb f seg = true → stops f post → length seg ≤ n →
  ∃ tl, star_ends (ends (Cls f)) n (prev, seg ++ post)
        = (adv prev seg, post) :: tl.
Proof.
  induction seg as [|c seg IH]; intros prev n post Hf Hp Hn.
  - exists []. destruct n as [|n]; [done|]. simpl.
    destruct post as [|c post]; [done|]. simpl in Hp. by rewrite Hp.
  - destruct n as [|n]; [simpl in Hn; lia|].
    simpl in Hf. apply andb_true_iff in Hf as [Hc Hf].
    destruct (IH (Some c) n post Hf Hp) as [tl E]; [simpl in Hn; lia|].
    rewrite star_ends_S. change ((c :: seg) ++ post) with (c :: seg ++ post).
    rewrite ends_cls_cons, Hc.
    assert (Hpr : progress (prev, c :: seg ++ post) (Some c, seg ++ post)
                  = true).
    { unfold progress. simpl. apply Nat.ltb_lt. lia. }
    rewrite filter_one, flat_map_one, E, adv_cons by done.
    by eexists.
Qed.

Lemma adv_Some_forallb f c seg :
  f c = true → forallb f seg = true →
  ∃ c', adv (Some c) seg = Some c' ∧ f c' = true.
Proof.
  revert c. induction seg as [|c0 seg IH]; intros c Hc Hf.
  - by exists c.
  - simpl in Hf. apply andb_true_iff in Hf as [Hc0 Hf].
    rewrite adv_cons. by apply IH.
Qed.

End RegexFacts.

Module TokenizerFacts.
Import Regex RegexFacts Indexer.

(** *** Character classes *)

Lemma lower_is_word c : is_lower c = true → is_word c = true.
Proof. unfold is_word. intros ->. by rewrite orb_true_r. Qed.

Lemma lower_not_hyphen c : is_lower c = true → Ascii.eqb "-" c = false.
Proof.
  intros Hc. destruct (Ascii.eqb "-" c) eqn:E; [|done].
  apply Ascii.eqb_eq in E as <-. discriminate Hc.
Qed.

Lemma hyphen_not_word : is_word "-" = false.
Proof. done. Qed.

(** *** Matches of the word pattern *)

Lemma word_match_sound p p' :
  match_at word_pattern p = Some p' →
  ∃ m, moves m p p' ∧ forallb is_lower m = true ∧ 3 ≤ length m.
Proof.
  intros Hm%match_at_sound.
  destruct Hm as (q0 & [_ ->] & q1 & (c1 & s1 & E1 & H1 & ->)
                     & q2 & (c2 & s2 & E2 & H2 & ->)
                     & q3 & (c3 & s3 & E3 & H3 & ->)
                     & q4 & Hs & q5 & [_ ->] & ->).
  apply den_star_cls in Hs as (m & Hm & M).
  simpl in E2, E3. exists (c1 :: c2 :: c3 :: m). split; [|split].
  - apply (moves_app [c1] _ _ (Some c1, s1)); [by split|].
    apply (moves_app [c2] _ _ (Some c2, s2)); [by split|].
    apply (moves_app [c3] _ _ (Some c3, s3)); [by split|done].
  - simpl. by rewrite H1, H2, H3.
  - simpl. lia.
Qed.

(** A run of at least three lower-case letters between two characters
    that are not word characters is what the word pattern matches
    there. *)
Lemma word_match prev seg post :
  forallb is_lower seg = true → 3 ≤ length seg →
  word_before (prev, seg ++ post) = false →
  word_after (prev, post) = false →
  match_at word_pattern (prev, seg ++ post) = Some (adv prev seg, post).
Proof.
  intros Hl Hn Hb Ha.
  destruct seg as [|c1 [|c2 [|c3 seg]]]; simpl in Hn; try lia.
  simpl in Hl.
  apply andb_true_iff in Hl as [H1 Hl]. apply andb_true_iff in Hl as [H2 Hl].
  apply andb_true_iff in Hl as [H3 Hl].
  assert (Hstop : stops is_lower post).
  { destruct post as [|c post]; [done|]. unfold word_after in Ha.
    simpl in *. destruct (is_lower c) eqn:E; [|done].
    apply lower_is_word in E. congruence. }
  destruct (star_cls_head is_lower seg (Some c3) (length (seg ++ post)) post
              Hl Hstop) as [tl Etl].
  { rewrite length_app. lia. }
  destruct (adv_Some_forallb is_lower c3 seg H3 Hl) as (c' & Ec' & Hc').
  unfold match_at, word_pattern, Cat. simpl foldr.
  rewrite ends_seq_bnd.
  2:{ unfold at_boundary. rewrite Hb. unfold word_after. simpl.
      by rewrite (lower_is_word c1). }
  change ((c1 :: c2 :: c3 :: seg) ++ post)
    with (c1 :: c2 :: c3 :: seg ++ post).
  rewrite !ends_seq_cls by done.
  change (ends (Seq (Star (Cls is_lower)) (Seq Bnd Eps))
               (Some c3, seg ++ post))
    with (flat_map (ends (Seq Bnd Eps))
            (star_ends (ends (Cls is_lower)) (length (seg ++ post))
               (Some c3, seg ++ post))).
  rewrite Etl.
  change (flat_map ?f (?x :: ?l)) with (f x ++ flat_map f l).
  rewrite ends_seq_bnd.
  2:{ unfold at_boundary, word_before. simpl. rewrite Ec'.
      rewrite (lower_is_word c') by done.
      unfold word_after in *. simpl in *. by rewrite Ha. }
  simpl. by rewrite !adv_cons.
Qed.

(** *** Matches of the compound pattern *)

(** A segment: a non-empty run of lower-case letters. *)
Definition segment (seg : list ascii) : Prop :=
  seg ≠ [] ∧ forallb is_lower seg = true.

(** [seg1-seg2-...] *)
Definition hyphenated (seg1 : list ascii) (segs : list (list ascii))
  : list ascii :=
  seg1 ++ concat (map (cons "-"%char) segs).

Lemma moves_ends_lower m0 c seg p q :
  moves (m0 ++ c :: seg) p q → is_lower c = true →
  forallb is_lower seg = true → word_before q = true.
Proof.
  intros [_ A] Hc Hs. unfold word_before. rewrite A, adv_app, adv_cons.
  destruct (adv_Some_forallb is_lower c seg Hc Hs) as (c' & -> & Hc').
  by apply lower_is_word.
Qed.

Lemma den_segment p q :
  den (Plus (Cls is_lower)) p q →
  ∃ seg, segment seg ∧ moves seg p q ∧ word_before q = true.
Proof.
  intros (seg & Hne & Hl & M)%den_plus_cls. exists seg.
  split; [done|]. split; [done|].
  destruct seg as [|c seg]; [done|]. simpl in Hl.
  apply andb_true_iff in Hl as [Hc Hl].
  by apply (moves_ends_lower [] c seg p q).
Qed.

Lemma den_hyphen_segment p q :
  den (Seq (Lit "-") (Plus (Cls is_lower))) p q →
  ∃ seg, segment seg ∧ moves ("-"%char :: seg) p q ∧ word_before q = true.
Proof.
  intros (q1 & (q0 & (c & s & E & Hc & ->) & ->) & Hs).
  apply Ascii.eqb_eq in Hc as <-.
  apply den_segment in Hs as (seg & Hseg & M & Hw).
  exists seg. split; [done|]. split; [|done].
  apply (moves_app ["-"%char] seg p (Some "-"%char, s)); [by split|done].
Qed.

Lemma den_hyphen_segments p q :
  rtc (den (Seq (Lit "-") (Plus (Cls is_lower)))) p q →
  word_before p = true →
  ∃ segs, Forall segment segs ∧
          moves (concat (map (cons "-"%char) segs)) p q ∧
          word_before q = true.
Proof.
  induction 1 as [p|p q1 q Hpq _ IH]; intros Hw.
  - exists []. split; [done|]. split; [apply moves_nil|done].
  - apply den_hyphen_segment in Hpq as (seg & Hseg & M & Hw1).
    destruct (IH Hw1) as (segs & Hsegs & Ms & Hwq).
    exists (seg :: segs). split; [by constructor|]. split; [|done].
    simpl. change ("-"%char :: seg ++ ?l) with (("-"%char :: seg) ++ l).
    by apply (moves_app _ _ p q1).
Qed.

Lemma boundary_after_word p :
  at_boundary p = true → word_after p = true → word_before p = false.
Proof. unfold at_boundary. intros Hb Ha. rewrite Ha in Hb.
       by destruct (word_before p). Qed.

Lemma boundary_before_word p :
  at_boundary p = true → word_before p = true → word_after p = false.
Proof. unfold at_boundary. intros Hb Ha. rewrite Ha in Hb.
       by destruct (word_after p). Qed.

Lemma compound_match_shape p p' :
  match_at compound_pattern p = Some p' →
  ∃ seg1 segs,
    segs ≠ [] ∧ Forall segment (seg1 :: segs) ∧
    moves (hyphenated seg1 segs) p p' ∧
    word_before p = false ∧ word_after p' = false.
Proof.
  intros Hm%match_at_sound.
  destruct Hm as (q0 & [Hb ->] & q1 & H1 & q2 & (q3 & H2 & H3)
                     & q4 & [Hb' ->] & ->).
  apply den_segment in H1 as (seg1 & Hs1 & M1 & Hw1).
  apply den_hyphen_segment in H2 as (seg2 & Hs2 & M2 & Hw2).
  apply den_hyphen_segments in H3 as (segs & Hsegs & M3 & Hw3); [|done].
  exists seg1, (seg2 :: segs). split; [done|].
  split; [by apply Forall_cons_2; [|apply Forall_cons_2]|].
  split; [|split].
  - unfold hyphenated. simpl.
    apply (moves_app _ _ p q1); [done|].
    change ("-"%char :: seg2 ++ ?l) with (("-"%char :: seg2) ++ l).
    by apply (moves_app _ _ q1 q3).
  - apply boundary_after_word; [done|].
    destruct Hs1 as [Hne Hl], M1 as [E _]. unfold word_after. rewrite E.
    destruct seg1 as [|c seg1]; [done|]. simpl in *.
    apply andb_true_iff in Hl as [Hc _]. by apply lower_is_word.
  - by apply boundary_before_word.
Qed.

(** *** Segments *)

Lemma eqb_hyphen_lower c : is_lower c = true → Ascii.eqb c "-" = false.
Proof.
  intros Hc. destruct (Ascii.eqb c "-") eqn:E; [|done].
  apply Ascii.eqb_eq in E as ->. discriminate Hc.
Qed.

Lemma split_hyphen_segment seg :
  forallb is_lower seg = true → split_hyphen seg = [seg].
Proof.
  induction seg as [|c seg IH]; simpl; [done|].
  intros [Hc Hl]%andb_true_iff. by rewrite eqb_hyphen_lower, IH.
Qed.

Lemma split_hyphen_cons seg rest :
  forallb is_lower seg = true →
  split_hyphen (seg ++ "-"%char :: rest) = seg :: split_hyphen rest.
Proof.
  induction seg as [|c seg IH]; simpl; [done|].
  intros [Hc Hl]%andb_true_iff. by rewrite eqb_hyphen_lower, IH.
Qed.

Lemma split_hyphenated segs : ∀ seg1,
  Forall segment (seg1 :: segs) →
  split_hyphen (hyphenated seg1 segs) = seg1 :: segs.
Proof.
  unfold hyphenated.
  induction segs as [|seg segs IH]; intros seg1 Hs; simpl.
  - rewrite app_nil_r. apply split_hyphen_segment.
    apply Forall_cons in Hs as [[_ ?] _]. done.
  - apply Forall_cons in Hs as [[_ H1] Hs].
    rewrite split_hyphen_cons by done. by rewrite IH.
Qed.

(** Where a segment lies in its compound: at the start or after a
    hyphen, and at the end or before a hyphen. *)
Lemma segment_position segs : ∀ seg1 seg,
  seg ∈ seg1 :: segs →
  ∃ A B, hyphenated seg1 segs = A ++ seg ++ B ∧
         (A = [] ∨ ∃ A', A = A' ++ ["-"%char]) ∧
         (B = [] ∨ ∃ B', B = "-"%char :: B').
Proof.
  unfold hyphenated.
  induction segs as [|s segs IH]; intros seg1 seg Hin; simpl.
  - apply list_elem_of_singleton in Hin as ->.
    exists [], []. rewrite !app_nil_r. auto.
  - apply elem_of_cons in Hin as [->|Hin].
    + exists [], ("-"%char :: s ++ concat (map (cons "-"%char) segs)).
      split; [done|]. split; [by left|]. right. by eexists.
    + destruct (IH s seg Hin) as (A & B & E & HA & HB).
      exists (seg1 ++ "-"%char :: A), B. rewrite E. split.
      * by rewrite <- !app_assoc.
      * split; [|done]. right.
        destruct HA as [->|[A' ->]].
        -- by exists seg1.
        -- exists (seg1 ++ "-"%char :: A'). by rewrite <- app_assoc.
Qed.

(** *** The scan *)

Lemma elem_of_hits m ps : m ∈ hits ps ↔ Hit m ∈ ps.
Proof.
  unfold hits. rewrite elem_of_flat_map. split.
  - intros ([c|m'] & Hin & Hm); [by apply elem_of_nil in Hm|].
    by apply list_elem_of_singleton in Hm as ->.
  - intros Hin. exists (Hit m). split; [done|]. by left.
Qed.

Lemma moves_take m p p' :
  moves m p p' → take (length p.2 - length p'.2) p.2 = m.
Proof.
  intros [E _]. rewrite E, length_app.
  replace (length m + length p'.2 - length p'.2) with (length m) by lia.
  by rewrite take_app_length.
Qed.

(** Every match reported lies in the text, and is the first match of
    the pattern at its position. *)
Lemma scan_hit_sound r : ∀ s prev skip m,
  Hit m ∈ scan r prev s skip →
  ∃ pre post p',
    s = pre ++ m ++ post ∧
    match_at r (adv prev pre, m ++ post) = Some p' ∧
    moves m (adv prev pre, m ++ post) p'.
Proof.
  induction s as [|c s IH]; intros prev skip m; simpl.
  { by intros ?%elem_of_nil. }
  assert (Hrec : ∀ k, Hit m ∈ scan r (Some c) s k →
    ∃ pre post p',
      c :: s = pre ++ m ++ post ∧
      match_at r (adv prev pre, m ++ post) = Some p' ∧
      moves m (adv prev pre, m ++ post) p').
  { intros k (pre & post & p' & E & Hm & M)%IH.
    exists (c :: pre), post, p'. rewrite adv_cons. by rewrite E. }
  destruct skip as [|k]; [|apply Hrec].
  destruct (match_at r (prev, c :: s)) as [p'|] eqn:Em.
  - intros [[= ->]|Hin]%elem_of_cons.
    + destruct (den_moves r _ _ (match_at_sound r _ _ Em)) as [m M].
      pose proof (moves_take _ _ _ M) as Et. simpl in Et. rewrite Et.
      pose proof M as [E _]. simpl in E.
      exists [], p'.2, p'. rewrite adv_nil. simpl. rewrite <- E.
      done.
    + apply elem_of_app in Hin as [Hin|Hin]; [|by apply (Hrec _ Hin)].
      destruct (_ =? 0); [|by apply elem_of_nil in Hin].
      by apply list_elem_of_singleton in Hin.
  - intros [[=]|Hin]%elem_of_cons. by apply (Hrec 0).
Qed.

Definition wb (prev : option ascii) : bool :=
  match prev with Some c => is_word c | None => false end.

(** The scan for words reports every run of at least three lower-case
    letters that stands between characters that are not word
    characters. *)
Lemma scan_word_complete seg post :
  forallb is_lower seg = true → 3 ≤ length seg →
  word_after (None, post) = false →
  ∀ pre prev skip,
    forallb is_lower (take skip (pre ++ seg ++ post)) = true →
    wb (adv prev pre) = false →
    (pre = [] → skip = 0) →
    Hit seg ∈ scan word_pattern prev (pre ++ seg ++ post) skip.
Proof.
  intros Hl Hn Ha. induction pre as [|c pre IH]; intros prev skip Ht Hb H0.
  - rewrite (H0 eq_refl). simpl app.
    pose proof (word_match prev seg post Hl Hn Hb Ha) as Em.
    destruct seg as [|c seg]; [simpl in Hn; lia|].
    simpl app in *. simpl scan. rewrite Em. simpl snd.
    assert (S (length (seg ++ post)) - length post = length (c :: seg))
      as -> by (simpl; rewrite length_app; lia).
    change (c :: seg ++ post) with ((c :: seg) ++ post).
    rewrite take_app_length. by left.
  - simpl app. simpl scan. rewrite adv_cons in Hb.
    assert (Hlast : pre = [] → is_lower c = true → False).
    { intros -> Hc. simpl in Hb. apply lower_is_word in Hc. congruence. }
    destruct skip as [|k].
    + destruct (match_at word_pattern (prev, c :: pre ++ seg ++ post))
        as [p'|] eqn:Em.
      * apply word_match_sound in Em as (m & M & Hm & Hlen).
        pose proof (moves_length _ _ _ M) as Hlm. simpl in Hlm.
        pose proof M as [E _]. simpl in E.
        destruct m as [|c' m]; [simpl in Hlen; lia|].
        simpl in E. injection E as <- E. simpl in Hm.
        apply andb_true_iff in Hm as [Hc Hm].
        assert (S (length (pre ++ seg ++ post)) - length p'.2
                = S (length m)) as -> by (simpl in *; lia).
        right. simpl. apply IH; [|done|].
        -- rewrite E. by rewrite take_app_length.
        -- intros Hp. by destruct (Hlast Hp).
      * right. apply IH; [done|done|done].
    + simpl in Ht. apply andb_true_iff in Ht as [Hc Ht].
      apply IH; [done|done|]. intros Hp. by destruct (Hlast Hp).
Qed.

(** *** Compounds and their segments among the matches *)

Lemma has_char_app c a b : has_char c (a ++ b) = has_char c a || has_char c b.
Proof. unfold has_char. apply existsb_app. Qed.

Lemma compound_matches s c :
  c ∈ findall compound_pattern s →
  has_char "-" c = true ∧
  Forall segment (split_hyphen c) ∧
  2 ≤ length (split_hyphen c) ∧
  ∀ seg, seg ∈ split_hyphen c → 3 ≤ length seg →
         seg ∈ findall word_pattern s.
Proof.
  unfold findall. rewrite elem_of_hits.
  intros (pre & post & p' & Es & Hm & M)%scan_hit_sound.
  apply compound_match_shape in Hm
    as (seg1 & segs & Hne & Hsegs & M' & Hb & Ha).
  assert (c = hyphenated seg1 segs) as ->.
  { destruct M as [E _], M' as [E' _]. simpl in *.
    rewrite E in E' at 1. by apply app_inv_tail in E'. }
  rewrite split_hyphenated by done.
  split; [|split; [done|split]].
  - destruct segs as [|seg2 segs]; [done|]. unfold hyphenated. simpl.
    rewrite has_char_app. simpl. by rewrite orb_true_r.
  - destruct segs; [done|]. simpl. lia.
  - intros seg Hin Hlen. apply elem_of_hits.
    destruct (segment_position segs seg1 seg Hin) as (A & B & E & HA & HB).
    rewrite Forall_forall in Hsegs. destruct (Hsegs seg Hin) as [_ Hl].
    rewrite Es, E.
    replace (pre ++ (A ++ seg ++ B) ++ post)
      with ((pre ++ A) ++ seg ++ (B ++ post))
      by (by rewrite <- !app_assoc).
    apply scan_word_complete; try done.
    + destruct HB as [->|[B' ->]]; [|done].
      destruct M as [E' _]. simpl in E'. apply app_inv_head in E'.
      unfold word_after in *. simpl. by rewrite E'.
    + rewrite adv_app. destruct HA as [->|[A' ->]].
      * exact Hb.
      * by rewrite adv_app.
Qed.

(** *** From candidates to tokens *)

Lemma length_string_of_list_ascii cs :
  String.length (string_of_list_ascii cs) = length cs.
Proof. induction cs as [|c cs IH]; simpl; [done|]. by rewrite IH. Qed.

Lemma is_stopword_false tok : is_stopword tok = false ↔ tok ∉ ALL_STOPWORDS.
Proof.
  unfold is_stopword. split.
  - intros E Hin. apply not_true_iff_false in E. apply E.
    apply existsb_exists. exists tok. split; [by apply list_elem_of_In|].
    apply String.eqb_refl.
  - intros Hn. apply not_true_iff_false. intros (w & Hw & E)%existsb_exists.
    apply String.eqb_eq in E as <-. by apply Hn, list_elem_of_In.
Qed.

Lemma tokenize_unfold text :
  text ≠ "" → text ≠ "Not found" →
  tokenize text
  = map string_of_list_ascii
        (List.filter keep (candidates (list_ascii_of_string text))).
Proof.
  intros H1%String.eqb_neq H2%String.eqb_neq. unfold tokenize.
  by rewrite H1, H2.
Qed.

Lemma elem_of_tokenize text tok :
  tok ∈ tokenize text →
  ∃ cs, tok = string_of_list_ascii cs ∧
        cs ∈ candidates (list_ascii_of_string text) ∧ keep cs = true.
Proof.
  unfold tokenize.
  destruct (String.eqb text "" || String.eqb text "Not found");
    [by intros ?%elem_of_nil|].
  intros (cs & <- & Hcs)%list_elem_of_In%in_map_iff.
  apply filter_In in Hcs as [Hcs Hk]. exists cs.
  split; [done|]. split; [by apply list_elem_of_In|done].
Qed.

Lemma tokenize_keeps text cs :
  text ≠ "" → text ≠ "Not found" →
  cs ∈ candidates (list_ascii_of_string text) → keep cs = true →
  string_of_list_ascii cs ∈ tokenize text.
Proof.
  intros H1 H2 Hcs Hk. rewrite tokenize_unfold by done.
  apply list_elem_of_In, in_map, filter_In. split; [|done].
  by apply list_elem_of_In.
Qed.

Lemma compound_is_candidate text c :
  c ∈ findall compound_pattern (working_text text) → c ∈ candidates text.
Proof.
  intros Hc. unfold candidates. fold (working_text text).
  apply elem_of_app. right. apply elem_of_app. by left.
Qed.

Lemma word_is_candidate text w :
  w ∈ findall word_pattern (working_text text) → w ∈ candidates text.
Proof.
  intros Hc. unfold candidates. fold (working_text text).
  apply elem_of_app. right. apply elem_of_app. right.
  apply elem_of_app. by right.
Qed.

Lemma keep_cases cs :
  keep cs = true →
  (has_digit cs = true ∨ has_char "-" cs = true ∨ has_char "%" cs = true) ∨
  ((string_of_list_ascii cs ∉ ALL_STOPWORDS) ∧ 2 < length cs).
Proof.
  unfold keep. intros [H|H]%orb_true_iff.
  - left. apply orb_true_iff in H as [H|H]; [|auto].
    apply orb_true_iff in H as [H|H]; auto.
  - right. apply andb_true_iff in H as [Hs Hl].
    apply negb_true_iff, is_stopword_false in Hs.
    apply Nat.ltb_lt in Hl. done.
Qed.

Lemma keep_digit cs : has_digit cs = true → keep cs = true.
Proof. unfold keep. by intros ->. Qed.

Lemma keep_hyphen cs : has_char "-" cs = true → keep cs = true.
Proof. unfold keep. intros ->. by rewrite orb_true_r. Qed.

Lemma keep_word cs :
  is_stopword (string_of_list_ascii cs) = false → 3 ≤ length cs →
  keep cs = true.
Proof.
  unfold keep. intros -> Hl. simpl.
  rewrite (proj2 (Nat.ltb_lt 2 (length cs))) by lia.
  by rewrite orb_true_r.
Qed.

(** No stop word has a digit, a hyphen or a percent sign. *)
Lemma stopwords_plain :
  forallb (λ w, negb (keep (list_ascii_of_string w))) ALL_STOPWORDS = true.
Proof. vm_compute. reflexivity. Qed.

End TokenizerFacts.

Module CrawlProps.
Import Crawler CrawlerFacts.

(** *** The trace of one call of [fetch] *)

(** [n] attempts: a politeness delay, then the request. *)
Definition attempts_trace (url : string) (n : nat) : list event :=
  concat (replicate n [Sleep; Get url]).

Lemma fetch_unvisited w c url r c' :
  url ∉ visited c → fetch w c url = (r, c') →
  ∃ n row,
    1 ≤ n ≤ max_retries ∧
    trace c' = trace c ++ attempts_trace url n ++ [Log row] ∧
    rec_url row = url ∧ retries row = n ∧
    page_count c' = page_count c ∧ state_file c' = state_file c ∧
    match r with
    | Some _ =>
        rec_status row = success ∧ visited c' = {[url]} ∪ visited c ∧
        saved_path row = Some (get_html_path c url)
    | None =>
        rec_status row = failed ∧ n = max_retries ∧
        visited c' = visited c ∧ saved_path row = None
    end.
Proof.
  intros Hv. unfold fetch. rewrite bool_decide_eq_false_2 by done.
  unfold max_retries, attempts, log_metadata, attempts_trace; simpl.
  repeat match goal with
    | |- context [http_get w ?t url] =>
        destruct (http_get w t url) as [? ?|]
    | |- context [raises ?n] => destruct (raises n)
    end;
    intros [= <- <-];
    let close n :=
      exists n; eexists; simpl; rewrite ?app_snoc;
      (split; [lia|]); (split; [reflexivity|]);
      simpl; repeat split; reflexivity in
    first [close 1 | close 2 | close 3].
Qed.

Lemma fetch_visited w c url : url ∈ visited c → fetch w c url = (None, c).
Proof. intros Hv. unfold fetch. by rewrite bool_decide_eq_true_2. Qed.

(** *** One iteration of the loop, by cases *)

(** What an iteration that fetches an unvisited URL adds to the trace
    after the attempts: the audit row, then for a page with a body the
    file and perhaps a snapshot. *)
Inductive iteration (c : crawler) (u : string) (c' : crawler) : Prop :=
| it_skipped :
    u ∈ visited c → c' = c → iteration c u c'
| it_failed row :
    u ∉ visited c → rec_url row = u → rec_status row = failed →
    retries row = max_retries → saved_path row = None →
    trace c' = trace c ++ attempts_trace u max_retries ++ [Log row] →
    visited c' = visited c → page_count c' = page_count c →
    iteration c u c'
| it_empty n row :
    u ∉ visited c → 1 ≤ n ≤ max_retries →
    rec_url row = u → rec_status row = success → retries row = n →
    saved_path row = Some (get_html_path c u) →
    trace c' = trace c ++ attempts_trace u n ++ [Log row] →
    visited c' = {[u]} ∪ visited c → page_count c' = page_count c →
    iteration c u c'
| it_saved n row html ws :
    u ∉ visited c → 1 ≤ n ≤ max_retries →
    rec_url row = u → rec_status row = success → retries row = n →
    saved_path row = Some (get_html_path c u) → html ≠ "" →
    trace c' = trace c ++ attempts_trace u n
                 ++ [Log row; WriteHtml (get_html_path c u) html] ++ ws →
    (ws = [] ∨ ∃ sn, ws = [WriteState sn]) →
    visited c' = {[u]} ∪ visited c → page_count c' = S (page_count c) →
    iteration c u c'.

Lemma step_iteration w c u q c' q' :
  step w (c, u :: q) = Some (c', q') → iteration c u c'.
Proof.
  unfold step; simpl.
  destruct (N.of_nat (size (visited c)) <? max_pages)%N; [|done].
  destruct (decide (u ∈ visited c)) as [Hv|Hv].
  { rewrite (fetch_visited w c u Hv). intros [= <- <-]. by apply it_skipped. }
  destruct (fetch w c u) as [r c1] eqn:Ef.
  destruct (fetch_unvisited w c u r c1 Hv Ef)
    as (n & row & Hn & Ht & Hu & Hr & Hp & _ & Hcase).
  destruct r as [html|].
  - destruct Hcase as (Hs & Hvis & Hsp).
    destruct (String.eqb html "") eqn:Eh.
    + intros [= <- <-]. by apply (it_empty c u c1 n row).
    + apply String.eqb_neq in Eh.
      match goal with |- context [if ?b then _ else _] => destruct b end;
        intros [= <- <-].
      * apply (it_saved c u _ n row html
                 [WriteState {| snap_to_visit :=
                     fold_left (enqueue (save_html c1 u html))
                               (extract_links w html u) q;
                   snap_visited := elements (visited c1);
                   snap_page_count := S (page_count c1) |}]);
          simpl; try done; [|by right; eexists|by rewrite Hp].
        unfold get_html_path. rewrite Ht, Hp, <- !app_assoc. done.
      * apply (it_saved c u _ n row html []); simpl; try done;
          [|by left|by rewrite Hp].
        unfold get_html_path. rewrite Ht, Hp, <- !app_assoc. done.
  - destruct Hcase as (Hs & -> & Hvis & Hsp). intros [= <- <-].
    by apply (it_failed c u c1 row).
Qed.

(** The loop passes through the frontiers it reaches. *)
Lemma reaches_front w s s1 s' :
  step w s = Some s1 → reaches w s1 s' → reaches w s s'.
Proof.
  intros Hs Hr. induction Hr as [|s1 s2 s3 Hr IH H23].
  - eapply reaches_step; [apply reaches_refl|done].
  - eapply reaches_step; [by apply IH|done].
Qed.

Lemma loop_reaches w fuel : ∀ s s',
  loop w fuel s = Some s' → reaches w s s' ∧ step w s' = None.
Proof.
  induction fuel as [|fuel IH]; intros s s'; simpl.
  - destruct (step w s) eqn:E; [done|]. intros [= <-].
    split; [apply reaches_refl|done].
  - destruct (step w s) as [s1|] eqn:E.
    + intros [Hr Hn]%IH. split; [|done]. by apply (reaches_front w s s1).
    + intros [= <-]. split; [apply reaches_refl|done].
Qed.

Lemma reaches_ind_step (P : crawler → Prop) w c0 q0 :
  P c0 →
  (∀ c u c', P c → iteration c u c' → P c') →
  ∀ s, reaches w (c0, q0) s → P s.1.
Proof.
  intros H0 Hstep s Hr.
  remember (c0, q0) as s0 eqn:E0. induction Hr as [|s0 s1 s2 Hr IH H12].
  - by subst.
  - destruct s1 as [c [|u q]]; [done|]. destruct s2 as [c' q'].
    apply step_iteration in H12. simpl in *. eapply Hstep; [by apply IH|done].
Qed.

(** *** Politeness *)

(** Every request in the trace comes directly after a delay. *)
Definition polite (t : list event) : Prop :=
  ∀ pre u post, t = pre ++ Get u :: post → ∃ pre', pre = pre' ++ [Sleep].

Lemma polite_app t1 t2 : polite t1 → polite t2 → polite (t1 ++ t2).
Proof.
  intros H1 H2 pre u post E.
  apply app_eq_inv in E as [(k & E1 & E2)|(k & E1 & E2)].
  - destruct k as [|e k].
    + simpl in E2. rewrite app_nil_r in E1. subst.
      destruct (H2 [] u post eq_refl) as [pre' Hp].
      by destruct pre'.
    + injection E2 as E3 E2. subst e. by apply (H1 pre u k).
  - destruct (H2 k u post E2) as [pre' ->].
    exists (t1 ++ pre'). by rewrite E1, app_assoc.
Qed.

Lemma polite_no_get t : (∀ u, Get u ∉ t) → polite t.
Proof.
  intros Hn pre u post ->. destruct (Hn u).
  apply elem_of_app. right. by left.
Qed.

Lemma polite_attempt u : polite [Sleep; Get u].
Proof.
  intros pre u' post E. destruct pre as [|a [|b pre]].
  - discriminate E.
  - injection E as -> _. by exists [].
  - injection E as _ _ E. by destruct pre.
Qed.

Lemma polite_attempts u n : polite (attempts_trace u n).
Proof.
  unfold attempts_trace. induction n as [|n IH]; simpl.
  - apply polite_no_get. by intros u' ?%elem_of_nil.
  - apply (polite_app [Sleep; Get u]); [apply polite_attempt|done].
Qed.

Lemma iteration_polite c u c' :
  polite (trace c) → iteration c u c' → polite (trace c').
Proof.
  intros Hp [Hv ->|row _ _ _ _ _ Ht _ _|n row _ _ _ _ _ _ Ht _ _
            |n row html ws _ _ _ _ _ _ _ Ht Hws _ _]; [done|..];
    rewrite Ht; apply polite_app; try done;
    apply polite_app; try apply polite_attempts;
    apply polite_no_get; intros u' Hin.
  - by apply list_elem_of_singleton in Hin.
  - by apply list_elem_of_singleton in Hin.
  - destruct Hws as [->|[sn ->]]; simpl in Hin;
      repeat (apply elem_of_cons in Hin as [?|Hin]; [done|]);
      by apply elem_of_nil in Hin.
Qed.

(** *** Successful fetches and saved pages *)

(** The URLs of the [success] rows of a trace, in order. *)
Definition success_urls (t : list event) : list string :=
  flat_map (λ e, match e with
                 | Log r => match rec_status r with
                            | success => [rec_url r]
                            | failed => []
                            end
                 | _ => []
                 end) t.

(** The paths of the pages written, in order. *)
Definition html_writes (t : list event) : list (nat * string) :=
  flat_map (λ e, match e with WriteHtml p _ => [p] | _ => [] end) t.

Lemma success_urls_app t1 t2 :
  success_urls (t1 ++ t2) = success_urls t1 ++ success_urls t2.
Proof. apply flat_map_app. Qed.

Lemma html_writes_app t1 t2 :
  html_writes (t1 ++ t2) = html_writes t1 ++ html_writes t2.
Proof. apply flat_map_app. Qed.

Lemma success_urls_attempts u n : success_urls (attempts_trace u n) = [].
Proof. unfold attempts_trace. induction n as [|n IH]; simpl; done. Qed.

Lemma html_writes_attempts u n : html_writes (attempts_trace u n) = [].
Proof. unfold attempts_trace. induction n as [|n IH]; simpl; done. Qed.

(** What one iteration adds to the trace, to the successes and to the
    pages written. *)
Lemma iteration_delta c u c' :
  iteration c u c' →
  ∃ d, trace c' = trace c ++ d ∧
       ((success_urls d = [] ∧ html_writes d = [] ∧
         visited c' = visited c ∧ page_count c' = page_count c) ∨
        ((u ∉ visited c) ∧ success_urls d = [u] ∧
         visited c' = {[u]} ∪ visited c ∧
         ((html_writes d = [] ∧ page_count c' = page_count c) ∨
          (html_writes d = [get_html_path c u] ∧
           page_count c' = S (page_count c))))).
Proof.
  intros [Hv ->|row Hv Hu Hs _ _ Ht Hvis Hp
         |n row Hv _ Hu Hs _ _ Ht Hvis Hp
         |n row html ws Hv _ Hu Hs _ _ _ Ht Hws Hvis Hp].
  - exists []. rewrite app_nil_r. split; [done|]. by left.
  - eexists. split; [exact Ht|]. left.
    rewrite success_urls_app, html_writes_app,
      success_urls_attempts, html_writes_attempts. simpl. by rewrite Hs.
  - eexists. split; [exact Ht|]. right.
    rewrite success_urls_app, html_writes_app,
      success_urls_attempts, html_writes_attempts. simpl.
    rewrite Hs, Hu. split; [done|]. split; [done|]. split; [done|]. by left.
  - eexists. split; [exact Ht|]. right.
    rewrite !success_urls_app, !html_writes_app,
      success_urls_attempts, html_writes_attempts. simpl.
    rewrite Hs, Hu.
    assert (success_urls ws = [] ∧ html_writes ws = []) as [-> ->].
    { by destruct Hws as [->|[sn ->]]. }
    split; [done|]. split; [done|]. split; [done|]. by right.
Qed.

(** The successful fetches since [c0]: no URL twice, none that [c0] had
    visited, and together with those of [c0] they are the visited set. *)
Definition fetched_once (c0 c : crawler) : Prop :=
  ∃ t, trace c = trace c0 ++ t ∧
       NoDup (success_urls t) ∧
       visited c = visited c0 ∪ list_to_set (success_urls t) ∧
       ∀ x, x ∈ success_urls t → x ∉ visited c0.

Lemma fetched_once_refl c : fetched_once c c.
Proof.
  exists []. rewrite app_nil_r. simpl. split; [done|].
  split; [apply NoDup_nil_2|]. split; [set_solver|].
  by intros x ?%elem_of_nil.
Qed.

Lemma fetched_once_step c0 c u c' :
  fetched_once c0 c → iteration c u c' → fetched_once c0 c'.
Proof.
  intros (t & Ht & Hnd & Hvis & Hnew) Hit.
  destruct (iteration_delta c u c' Hit)
    as (d & Hd & [(Hs & _ & Hv & _)|(Hu & Hs & Hv & _)]);
    exists (t ++ d); rewrite Hd, Ht, <- app_assoc, success_urls_app, Hs.
  - rewrite app_nil_r, Hv. done.
  - rewrite Hvis in Hu. apply not_elem_of_union in Hu as [Hu0 Hut].
    rewrite elem_of_list_to_set in Hut.
    split; [done|]. split; [|split].
    + apply NoDup_app. split; [done|]. split; [|apply NoDup_singleton].
      by intros x Hx ->%list_elem_of_singleton.
    + rewrite Hv, Hvis, list_to_set_app_L. simpl. set_solver.
    + intros x [Hx| ->%list_elem_of_singleton]%elem_of_app; auto.
Qed.

(** The pages written since [c0]: the counter counts them, the [k]-th
    goes to batch [(page_count c0 + k) / 2000], and each belongs to a
    successful fetch. *)
Definition pages_counted (c0 c : crawler) : Prop :=
  ∃ t, trace c = trace c0 ++ t ∧
       page_count c = page_count c0 + length (html_writes t) ∧
       map fst (html_writes t)
       = map (λ k, (page_count c0 + k) / 2000)
             (seq 0 (length (html_writes t))) ∧
       length (html_writes t) ≤ length (success_urls t).

Lemma pages_counted_refl c : pages_counted c c.
Proof.
  exists []. rewrite app_nil_r. simpl. split; [done|].
  split; [lia|]. done.
Qed.

Lemma pages_counted_step c0 c u c' :
  pages_counted c0 c → iteration c u c' → pages_counted c0 c'.
Proof.
  intros (t & Ht & Hp & Hb & Hle) Hit.
  destruct (iteration_delta c u c' Hit)
    as (d & Hd & [(Hs & Hw & _ & Hpc)
                 |(_ & Hs & _ & [[Hw Hpc]|[Hw Hpc]])]);
    exists (t ++ d);
    rewrite Hd, Ht, <- app_assoc, success_urls_app, html_writes_app, Hs, Hw,
      Hpc.
  - rewrite !app_nil_r. done.
  - rewrite app_nil_r, length_app. simpl. split; [done|].
    split; [done|]. split; [done|]. lia.
  - rewrite !length_app. simpl. split; [done|]. split; [lia|]. split; [|lia].
    rewrite map_app, Nat.add_1_r, seq_S, map_app, Hb. simpl.
    by rewrite Hp.
Qed.

Lemma entry_trace c start_url resume :
  trace (crawl_entry c start_url resume).1 = trace c.
Proof.
  unfold crawl_entry, load_state.
  destruct resume; [|done].
  destruct (state_file c) as [sn|]; [|done].
  by destruct (snap_to_visit sn).
Qed.

(** A complete [crawl]: the loop from the entry frontier, then the final
    snapshot. *)
Lemma crawl_run w fuel c start_url resume c' :
  crawl w fuel c start_url resume = Some c' →
  ∃ s, reaches w (crawl_entry c start_url resume) s ∧ step w s = None ∧
       c' = save_state s.1 s.2.
Proof.
  unfold crawl.
  destruct (loop w fuel (crawl_entry c start_url resume)) as [s|] eqn:El;
    [|done].
  simpl. intros [= <-]. apply loop_reaches in El as [Hr Hn]. by exists s.
Qed.

(** *** What the link loop lets into the queue *)

Lemma enqueue_all_allowed c links : ∀ q x,
  x ∈ fold_left (enqueue c) links q →
  x ∈ q ∨ (is_allowed_url x = true ∧ x ∈ links).
Proof.
  induction links as [|l links IH]; intros q x; simpl; [by left|].
  intros [Hx|[Ha Hx]]%IH.
  - destruct (enqueue_cases c q l) as [Eq|(_ & _ & Ha & Eq)];
      rewrite Eq in Hx; [by left|].
    apply elem_of_app in Hx as [Hx|Hx]; [by left|].
    apply list_elem_of_singleton in Hx as ->.
    right. split; [done|]. by left.
  - right. split; [done|]. by right.
Qed.

Lemma step_allowed w c u q c' q' x :
  step w (c, u :: q) = Some (c', q') → x ∈ q' →
  x ∈ q ∨ (is_allowed_url x = true ∧
           ∃ html c1, fetch w c u = (Some html, c1) ∧
                      x ∈ extract_links w html u).
Proof.
  unfold step; simpl.
  destruct (N.of_nat (size (visited c)) <? max_pages)%N; [|done].
  destruct (fetch w c u) as [[html|] c1]; [|intros [= <- <-]; by left].
  destruct (String.eqb html ""); [intros [= <- <-]; by left|].
  intros Hs Hx.
  assert (Hq : q' = fold_left (enqueue (save_html c1 u html))
                              (extract_links w html u) q).
  { match type of Hs with context [if ?b then _ else _] => destruct b end;
      by injection Hs as _ <-. }
  rewrite Hq in Hx. apply enqueue_all_allowed in Hx as [Hx|[Ha Hx]];
    [by left|]. right. split; [done|]. by exists html, c1.
Qed.

(** Where the URLs of the queue come from: the queue at the start, or
    the links of a page that was fetched. *)
Definition brought_up (w : web) (x : string) : Prop :=
  ∃ ca v html cb, fetch w ca v = (Some html, cb) ∧ x ∈ extract_links w html v.

Lemma reaches_queue_origin w c0 q0 s :
  reaches w (c0, q0) s →
  ∀ x, x ∈ s.2 → x ∈ q0 ∨ (is_allowed_url x = true ∧ brought_up w x).
Proof.
  intros Hr. remember (c0, q0) as s0 eqn:E0.
  induction Hr as [|s0 s1 s2 Hr IH H12]; [subst; by left|].
  specialize (IH E0). destruct s1 as [c [|u q]]; [done|].
  destruct s2 as [c' q']. simpl in *. intros x Hx.
  destruct (step_allowed w c u q c' q' x H12 Hx)
    as [Hq|(Ha & html & c1 & Ef & Hl)].
  - apply IH. by right.
  - right. split; [done|]. by exists c, u, html, c1.
Qed.

Lemma reaches_fetched_once w c0 q0 s :
  reaches w (c0, q0) s → fetched_once c0 s.1.
Proof.
  apply (reaches_ind_step (fetched_once c0));
    [apply fetched_once_refl|].
  intros c u c'. apply fetched_once_step.
Qed.

(** The link loop only appends. *)
Lemma enqueue_all_mono c links : ∀ q x,
  x ∈ q → x ∈ fold_left (enqueue c) links q.
Proof.
  induction links as [|l links IH]; intros q x Hx; simpl; [done|].
  apply IH. destruct (enqueue_cases c q l) as [->|(_ & _ & _ & ->)];
    [done|]. apply elem_of_app. by left.
Qed.

Lemma enqueue_all_adds c links : ∀ q x,
  x ∈ links → x ∉ visited c → is_allowed_url x = true →
  x ∈ fold_left (enqueue c) links q.
Proof.
  induction links as [|l links IH]; intros q x Hx Hv Ha; simpl.
  - by apply elem_of_nil in Hx.
  - apply elem_of_cons in Hx as [->|Hx]; [|by apply IH].
    apply enqueue_all_mono. unfold enqueue.
    destruct (decide (l ∈ q)) as [Hq|Hq].
    + rewrite (bool_decide_eq_false_2 (l ∉ q)) by by intros ?.
      by rewrite andb_false_r.
    + rewrite !bool_decide_eq_true_2, Ha by done. simpl.
      apply elem_of_app. right. by left.
Qed.

Lemma attempts_trace_head u n :
  1 ≤ n → ∃ t, attempts_trace u n = Sleep :: Get u :: t.
Proof.
  intros Hn. destruct n as [|n]; [lia|]. unfold attempts_trace. simpl.
  by eexists.
Qed.

(** An iteration on an unvisited URL requests it. *)
Lemma iteration_requests c u c' :
  u ∉ visited c → iteration c u c' →
  ∃ t, trace c' = trace c ++ Sleep :: Get u :: t.
Proof.
  intros Hv [Hv' _|row _ _ _ _ _ Ht _ _
            |n row _ Hn _ _ _ _ Ht _ _
            |n row html ws _ Hn _ _ _ _ _ Ht _ _ _]; [done|..].
  - destruct (attempts_trace_head u max_retries) as [t Et];
      [unfold max_retries; lia|].
    rewrite Ht, Et. by eexists.
  - destruct (attempts_trace_head u n) as [t Et]; [lia|].
    rewrite Ht, Et. by eexists.
  - destruct (attempts_trace_head u n) as [t Et]; [lia|].
    rewrite Ht, Et. by eexists.
Qed.

(** An iteration on a page with a body that lists [x]: [x] is in the
    queue afterwards, if it is allowed and not visited. *)
Lemma step_brings_up w c v q c' q' html c1 x :
  step w (c, v :: q) = Some (c', q') →
  fetch w c v = (Some html, c1) → html ≠ "" →
  x ∈ extract_links w html v → is_allowed_url x = true →
  x ∉ visited c → x ≠ v →
  x ∈ q' ∧ x ∉ visited c'.
Proof.
  intros Hs Ef Hh Hl Ha Hx Hxv.
  assert (Hv : v ∉ visited c).
  { intros Hv. rewrite (fetch_visited w c v Hv) in Ef. done. }
  destruct (fetch_unvisited w c v _ c1 Hv Ef)
    as (n & row & _ & _ & _ & _ & _ & _ & _ & Hvis & _).
  assert (Hx1 : x ∉ visited c1).
  { rewrite Hvis. set_solver. }
  revert Hs. unfold step; simpl.
  destruct (N.of_nat (size (visited c)) <? max_pages)%N; [|done].
  rewrite Ef. apply String.eqb_neq in Hh. rewrite Hh.
  assert (Hin : x ∈ fold_left (enqueue (save_html c1 v html))
                        (extract_links w html v) q)
    by by apply enqueue_all_adds.
  match goal with |- context [if ?b then _ else _] => destruct b end;
    by intros [= <- <-].
Qed.

(** *** Termination *)

Lemma step_measure w c u q c' q' :
  step w (c, u :: q) = Some (c', q') →
  (visited c' = visited c ∧ q' = q) ∨
  (size (visited c') = S (size (visited c)) ∧
   size (visited c) < N.to_nat max_pages).
Proof.
  unfold step; simpl.
  destruct (N.of_nat (size (visited c)) <? max_pages)%N eqn:Eg; [|done].
  apply N.ltb_lt in Eg.
  destruct (fetch w c u) as [r c1] eqn:Ef.
  apply fetch_outcome in Ef as (_ & _ & [[-> Hv]|(Hr & Hu & Hv)]).
  { intros [= <- <-]. by left. }
  assert (Hsz : size (visited c1) = S (size (visited c))).
  { rewrite Hv, size_union, size_singleton by set_solver. done. }
  destruct r as [html|]; [|by destruct Hr].
  intros Hstep. right. split; [|lia].
  destruct (String.eqb html ""); [by injection Hstep as <- _|].
  match type of Hstep with context [if ?b then _ else _] => destruct b end;
    by injection Hstep as <- _.
Qed.

Lemma loop_terminates w : ∀ s, ∃ fuel s', loop w fuel s = Some s'.
Proof.
  assert (H : ∀ a b s,
    N.to_nat max_pages - size (visited s.1) ≤ a → length s.2 ≤ b →
    ∃ fuel s', loop w fuel s = Some s').
  { induction a as [|a IHa]; induction b as [|b IHb]; intros s Ha Hb;
      (destruct (step w s) as [s1|] eqn:Es;
       [|exists 0, s; cbn [loop]; by rewrite Es]);
      (destruct s as [c [|u q]]; [discriminate Es|]); destruct s1 as [c1 q1];
      destruct (step_measure w c u q c1 q1 Es) as [[Hv Hq]|[Hsz Hlt]];
      cbn [fst snd length] in *; try lia.
    - destruct (IHb (c1, q1)) as (fuel & s' & El);
        [cbn [fst]; rewrite Hv; lia|cbn [snd]; subst q1; lia|].
      exists (S fuel), s'. cbn [loop]. by rewrite Es.
    - destruct (IHb (c1, q1)) as (fuel & s' & El);
        [cbn [fst]; rewrite Hv; lia|cbn [snd]; subst q1; lia|].
      exists (S fuel), s'. cbn [loop]. by rewrite Es.
    - destruct (IHa (length q1) (c1, q1)) as (fuel & s' & El);
        [cbn [fst]; lia|done|].
      exists (S fuel), s'. cbn [loop]. by rewrite Es. }
  intros s.
  by apply (H (N.to_nat max_pages - size (visited s.1)) (length s.2) s).
Qed.

End CrawlProps.

Module RegexMore.
Import Regex RegexFacts TokenizerFacts.

(** *** Texts of ASCII characters *)

Lemma ascii_text_decide (s : string) :
  forallb (λ c, code c <? 128) (list_ascii_of_string s) = true →
  ascii_text s.
Proof.
  unfold ascii_text. rewrite forallb_forall, Forall_forall.
  intros Hs c Hc. apply Nat.ltb_lt, Hs. by apply list_elem_of_In.
Qed.

(** *** Patterns without repetition: [ends] lists every match *)

Fixpoint star_free (r : re) : bool :=
  match r with
  | Seq r1 r2 | Alt r1 r2 => star_free r1 && star_free r2
  | Star _ => false
  | Eps | Cls _ | Bnd | Eos => true
  end.

Lemma ends_complete r :
  star_free r = true → ∀ p p', den r p p' → p' ∈ ends r p.
Proof.
  induction r as [|f|r1 IH1 r2 IH2|r1 IH1 r2 IH2|r1 _| |];
    simpl; intros Hs p p'.
  - intros ->. by left.
  - intros (c & s & E & Hc & ->). destruct p as [a t]. simpl in E.
    subst t. simpl. rewrite Hc. by left.
  - apply andb_true_iff in Hs as [H1 H2]. intros (q & D1 & D2).
    apply elem_of_flat_map. exists q. auto.
  - apply andb_true_iff in Hs as [H1 H2].
    intros [D|D]; apply elem_of_app; auto.
  - done.
  - intros [E ->]. rewrite E. by left.
  - intros [E ->]. rewrite E. by left.
Qed.

Lemma den_Any rs p p' : den (Any rs) p p' ↔ ∃ r, r ∈ rs ∧ den r p p'.
Proof.
  induction rs as [|r rs IH].
  - split.
    + by intros (c & s & _ & [=] & _).
    + by intros (r & ?%elem_of_nil & _).
  - change (Any (r :: rs)) with (Alt r (Any rs)). simpl. rewrite IH. split.
    + intros [D|(r' & Hin & D)].
      * exists r. split; [by left|done].
      * exists r'. split; [by right|done].
    + intros (r' & [->|Hin]%elem_of_cons & D); [by left|].
      right. by exists r'.
Qed.

(** *** Literals under [re.IGNORECASE] *)

Definition litI (l : list ascii) : re :=
  foldr (λ c r, Seq (Cls (λ x, Ascii.eqb (lower_char x) (lower_char c))) r)
        Eps l.

Lemma LitI_litI s : LitI s = litI (list_ascii_of_string s).
Proof. done. Qed.

Lemma den_litI_elim l : ∀ p p',
  den (litI l) p p' →
  ∃ e, moves e p p' ∧ map lower_char e = map lower_char l.
Proof.
  induction l as [|c l IH]; intros p p'; simpl.
  - intros ->. exists []. split; [apply moves_nil|done].
  - intros (q & (c0 & s0 & E & Hc & ->) & D).
    apply IH in D as (e & M & He). exists (c0 :: e). split.
    + apply (moves_app [c0] e _ (Some c0, s0)); [by split|done].
    + simpl. apply Ascii.eqb_eq in Hc. by rewrite Hc, He.
Qed.

Lemma den_litI_intro l : ∀ e prev post,
  map lower_char e = map lower_char l →
  den (litI l) (prev, e ++ post) (adv prev e, post).
Proof.
  induction l as [|c l IH]; intros [|c0 e] prev post He; try done.
  simpl in He. injection He as Hc He. simpl.
  exists (Some c0, e ++ post). split.
  - exists c0, (e ++ post). split; [done|]. split; [|done].
    rewrite Hc. apply Ascii.eqb_refl.
  - rewrite adv_cons. by apply IH.
Qed.

(** *** [search]: some position of the text has a match *)

Lemma search_true_elim r s :
  search r s = true →
  ∃ pre m post p',
    s = pre ++ m ++ post ∧
    den r (adv None pre, m ++ post) p' ∧
    moves m (adv None pre, m ++ post) p'.
Proof.
  unfold search, findall. destruct (hits _) as [|m l] eqn:E; [done|].
  intros _. assert (Hm : m ∈ hits (scan r None s 0)) by (rewrite E; by left).
  apply elem_of_hits, scan_hit_sound in Hm as (pre & post & p' & Es & Hm & M).
  exists pre, m, post, p'. split; [done|]. split; [|done].
  by apply match_at_sound.
Qed.

Lemma scan_some_hit r rest :
  rest ≠ [] → ∀ pre prev,
  is_Some (match_at r (adv prev pre, rest)) →
  ∃ m, Hit m ∈ scan r prev (pre ++ rest) 0.
Proof.
  intros Hr. induction pre as [|c pre IH]; intros prev.
  - rewrite adv_nil. destruct rest as [|c s]; [done|]. simpl.
    intros [p' ->]. eexists. by left.
  - rewrite adv_cons. intros Hm. simpl.
    destruct (match_at r (prev, c :: pre ++ rest)).
    + eexists. by left.
    + destruct (IH _ Hm) as [m Hin]. exists m. by right.
Qed.

Lemma search_true_intro r pre rest p' :
  star_free r = true → rest ≠ [] →
  den r (adv None pre, rest) p' →
  search r (pre ++ rest) = true.
Proof.
  intros Hs Hr D. apply (ends_complete r Hs) in D.
  destruct (scan_some_hit r rest Hr pre None) as [m Hin].
  { unfold match_at. destruct (ends r _); [by apply elem_of_nil in D|].
    by eexists. }
  apply elem_of_hits in Hin. unfold search, findall.
  destruct (hits _); [by apply elem_of_nil in Hin|done].
Qed.

(** *** The media filter of the crawler *)

Definition media_extensions : list string :=
  [ "png"; "jpg"; "jpeg"; "gif"; "ico"; "css"; "js"; "svg"; "woff";
    "woff2"; "ttf"; "eot"; "mp4"; "mp3"; "mov"; "avi" ].

Lemma MEDIA_EXTENSIONS_eq :
  Crawler.MEDIA_EXTENSIONS
  = Cat [ Chr "."%char; Any (map LitI media_extensions); Eos ].
Proof. done. Qed.

Lemma media_extensions_lower ext :
  ext ∈ media_extensions →
  map lower_char (list_ascii_of_string ext) = list_ascii_of_string ext.
Proof.
  unfold media_extensions. rewrite !elem_of_cons.
  intros H. repeat (destruct H as [->|H]; [done|]). by apply elem_of_nil in H.
Qed.

Lemma at_end_cases (p : pos) :
  at_end p = true ↔ p.2 = [] ∨ p.2 = ["010"%char].
Proof.
  unfold at_end. destruct p.2 as [|c [|c' s]]; split; try done; auto.
  - intros E%Nat.eqb_eq. right. f_equal.
    rewrite <- (ascii_nat_embedding c). unfold code in E. by rewrite E.
  - intros [[=]|[= ->]]. done.
  - by intros [|].
Qed.

Lemma den_Cat3 r1 r2 r3 p p' :
  den (Cat [r1; r2; r3]) p p' ↔
  ∃ q1 q2, den r1 p q1 ∧ den r2 q1 q2 ∧ den r3 q2 p'.
Proof.
  change (Cat [r1; r2; r3]) with (Seq r1 (Seq r2 (Seq r3 Eps))). simpl. split.
  - intros (q1 & D1 & q2 & D2 & q3 & D3 & ->). by exists q1, q2.
  - intros (q1 & q2 & D1 & D2 & D3). exists q1. split; [done|].
    exists q2. split; [done|]. by exists p'.
Qed.

Lemma den_Chr c p p' : den (Chr c) p p' ↔ p.2 = c :: p'.2 ∧ p'.1 = Some c.
Proof.
  unfold Chr. simpl. split.
  - intros (c' & s & E & <-%Ascii.eqb_eq & ->). done.
  - intros [E1 E2]. exists c, p'.2. split; [done|].
    split; [apply Ascii.eqb_refl|]. destruct p'. simpl in *. by subst.
Qed.

Lemma den_Eos p p' : den Eos p p' ↔ at_end p = true ∧ p' = p.
Proof. done. Qed.

Lemma media_match p p' :
  den Crawler.MEDIA_EXTENSIONS p p' ↔
  ∃ e ext, ext ∈ media_extensions ∧
           map lower_char e = list_ascii_of_string ext ∧
           p.2 = "."%char :: e ++ p'.2 ∧
           p'.1 = adv (Some "."%char) e ∧
           (p'.2 = [] ∨ p'.2 = ["010"%char]).
Proof.
  rewrite MEDIA_EXTENSIONS_eq, den_Cat3. split.
  - intros (q1 & q2 & [E Hq1]%den_Chr & HA & [He ->]%den_Eos).
    apply den_Any in HA as (r & Hr & D).
    apply list_elem_of_fmap in Hr as (ext & -> & Hext).
    rewrite LitI_litI in D. apply den_litI_elim in D as (e & [M1 M2] & Hl).
    exists e, ext. split; [done|].
    rewrite (media_extensions_lower ext Hext) in Hl.
    split; [done|]. split; [by rewrite E, M1|].
    split; [by rewrite M2, Hq1|]. by apply at_end_cases.
  - intros (e & ext & Hext & Hl & E & Ha & Hn).
    exists (Some "."%char, e ++ p'.2), p'. split; [by apply den_Chr|]. split.
    + apply den_Any. exists (LitI ext). split.
      * apply list_elem_of_fmap. by exists ext.
      * rewrite LitI_litI. destruct p' as [a' nl]. simpl in *. subst a'.
        apply den_litI_intro.
        by rewrite Hl, (media_extensions_lower ext Hext).
    + apply den_Eos. split; [|done]. by apply at_end_cases.
Qed.

Lemma MEDIA_EXTENSIONS_star_free : star_free Crawler.MEDIA_EXTENSIONS = true.
Proof. vm_compute. reflexivity. Qed.

End RegexMore.

Module TokenProps.
Import Regex RegexFacts TokenizerFacts Indexer.

(** *** Lower-casing *)

Lemma lower_char_not_upper c : is_upper (lower_char c) = false.
Proof.
  unfold lower_char. destruct (is_upper c) eqn:E; [|done].
  unfold is_upper, code in *. apply andb_true_iff in E as [E1 E2].
  apply Nat.leb_le in E1, E2. rewrite nat_ascii_embedding by lia.
  apply andb_false_iff. right. apply Nat.leb_gt. lia.
Qed.

Lemma lower_char_idem c : lower_char (lower_char c) = lower_char c.
Proof. unfold lower_char at 1. by rewrite lower_char_not_upper. Qed.

Lemma lower_idem s : lower (lower s) = lower s.
Proof.
  unfold lower. rewrite map_map. apply map_ext. apply lower_char_idem.
Qed.

(** [text.lower()] on a string *)
Definition lower_string (s : string) : string :=
  string_of_list_ascii (lower (list_ascii_of_string s)).

Lemma tokenize_lower text :
  text ≠ "Not found" → tokenize (lower_string text) = tokenize text.
Proof.
  intros Hnf. destruct (String.eqb_spec text "") as [->|Hne]; [done|].
  assert (H1 : lower_string text ≠ "").
  { intros E. apply (f_equal list_ascii_of_string) in E.
    unfold lower_string in E. rewrite list_ascii_of_string_of_list_ascii in E.
    destruct text; [done|discriminate E]. }
  assert (H2 : lower_string text ≠ "Not found").
  { intros E. apply (f_equal list_ascii_of_string) in E.
    unfold lower_string in E. rewrite list_ascii_of_string_of_list_ascii in E.
    destruct (list_ascii_of_string text) as [|c l]; [done|].
    simpl in E. injection E as E _.
    pose proof (lower_char_not_upper c) as Hu. rewrite E in Hu.
    discriminate Hu. }
  rewrite !tokenize_unfold by done. unfold lower_string.
  rewrite list_ascii_of_string_of_list_ascii. do 2 f_equal.
  unfold candidates. by rewrite lower_idem.
Qed.

(** *** Properties of all characters, decided by enumeration *)

Definition all_ascii : list ascii := map ascii_of_nat (seq 0 256).

Definition ascii_forall (P : ascii → bool) : bool := forallb P all_ascii.

Lemma ascii_forall_spec P : ascii_forall P = true → ∀ c, P c = true.
Proof.
  unfold ascii_forall. rewrite forallb_forall. intros HP c. apply HP.
  apply in_map_iff. exists (nat_of_ascii c).
  split; [apply ascii_nat_embedding|].
  apply in_seq. pose proof (nat_ascii_bounded c). lia.
Qed.

(** *** The characters that a pattern can consume *)

Fixpoint cls_all (P : ascii → bool) (r : re) : bool :=
  match r with
  | Cls f => ascii_forall (λ c, implb (f c) (P c))
  | Seq r1 r2 | Alt r1 r2 => cls_all P r1 && cls_all P r2
  | Star r1 => cls_all P r1
  | Eps | Bnd | Eos => true
  end.

Lemma den_chars P r :
  cls_all P r = true →
  ∀ p p', den r p p' → ∃ m, moves m p p' ∧ forallb P m = true.
Proof.
  induction r as [|f|r1 IH1 r2 IH2|r1 IH1 r2 IH2|r1 IH1| |];
    simpl; intros HP p p'.
  - intros ->. exists []. split; [apply moves_nil|done].
  - intros (c & s & E & Hc & ->). exists [c]. split; [by split|].
    pose proof (ascii_forall_spec _ HP c) as Hi. simpl in Hi.
    rewrite Hc in Hi. simpl in *. by rewrite Hi.
  - apply andb_true_iff in HP as [H1 H2]. intros (q & D1 & D2).
    destruct (IH1 H1 _ _ D1) as (m1 & M1 & F1).
    destruct (IH2 H2 _ _ D2) as (m2 & M2 & F2).
    exists (m1 ++ m2). split; [by apply (moves_app _ _ _ q)|].
    by rewrite forallb_app, F1, F2.
  - apply andb_true_iff in HP as [H1 H2]. intros [D|D]; auto.
  - induction 1 as [p|p q p' Hpq _ (m2 & M2 & F2)].
    + exists []. split; [apply moves_nil|done].
    + destruct (IH1 HP _ _ Hpq) as (m1 & M1 & F1).
      exists (m1 ++ m2). split; [by apply (moves_app _ _ _ q)|].
      by rewrite forallb_app, F1, F2.
  - intros [_ ->]. exists []. split; [apply moves_nil|done].
  - intros [_ ->]. exists []. split; [apply moves_nil|done].
Qed.

Lemma moves_inj m m' p p' : moves m p p' → moves m' p p' → m = m'.
Proof. intros [E _] [E' _]. rewrite E in E'. by apply app_inv_tail in E'. Qed.

Lemma findall_chars P r s m :
  cls_all P r = true → m ∈ findall r s →
  forallb P m = true ∧ ∃ pre post, s = pre ++ m ++ post.
Proof.
  unfold findall.
  intros HP (pre & post & p' & E & Hm & M)%elem_of_hits%scan_hit_sound.
  split; [|by exists pre, post]. apply match_at_sound in Hm.
  destruct (den_chars P r HP _ _ Hm) as (m' & M' & F).
  by rewrite (moves_inj _ _ _ _ M M').
Qed.

(** *** What [re.sub] puts out *)

Lemma scan_gap_sound r : ∀ s prev skip c,
  Gap c ∈ scan r prev s skip → c ∈ s.
Proof.
  induction s as [|c0 s IH]; intros prev skip c; simpl;
    [by intros ?%elem_of_nil|].
  destruct skip as [|k]; [|intros ?%IH; by right].
  destruct (match_at r (prev, c0 :: s)) as [p'|].
  - intros [[=]|Hin]%elem_of_cons.
    apply elem_of_app in Hin as [Hin|Hin%IH]; [|by right].
    destruct (_ =? 0); [|by apply elem_of_nil in Hin].
    apply list_elem_of_singleton in Hin as [= ->]. by left.
  - intros [[= ->]|Hin%IH]%elem_of_cons; [by left|by right].
Qed.

Lemma elem_of_sub r repl s c : c ∈ sub r repl s → c ∈ repl ∨ c ∈ s.
Proof.
  unfold sub. intros ([c'|m] & Hin & Hc)%elem_of_flat_map.
  - apply list_elem_of_singleton in Hc as ->. right.
    by apply scan_gap_sound in Hin.
  - by left.
Qed.

(** *** Deleting white space: [re.sub(r'\s+', '', d)] *)

Definition not_space (c : ascii) : bool := negb (is_space c).

Lemma star_ends_last f n p : ∃ l, star_ends f n p = l ++ [p].
Proof. destruct n; simpl; [by exists []|by eexists]. Qed.

Lemma spaces_match_space prev c s :
  is_space c = true →
  ∃ p' m, match_at spaces_pattern (prev, c :: s) = Some p' ∧
          moves (c :: m) (prev, c :: s) p' ∧ forallb is_space m = true.
Proof.
  intros Hc.
  assert (Hs : is_Some (match_at spaces_pattern (prev, c :: s))).
  { unfold match_at, spaces_pattern, Plus. rewrite ends_seq_cls by done.
    change (ends (Star (Cls is_space)) (Some c, s))
      with (star_ends (ends (Cls is_space)) (length s) (Some c, s)).
    destruct (star_ends_last (ends (Cls is_space)) (length s) (Some c, s))
      as [l ->]. by destruct l. }
  destruct Hs as [p' Em]. pose proof (match_at_sound _ _ _ Em) as D.
  apply den_plus_cls in D as (m & Hm & F & M).
  destruct m as [|c' m]; [done|]. pose proof M as [E _]. simpl in E.
  injection E as <- E. simpl in F. apply andb_true_iff in F as [_ F].
  by exists p', m.
Qed.

Lemma spaces_match_none prev c s :
  is_space c = false → match_at spaces_pattern (prev, c :: s) = None.
Proof.
  intros Hc. unfold match_at, spaces_pattern, Plus.
  change (ends (Seq (Cls is_space) (Star (Cls is_space))) (prev, c :: s))
    with (flat_map (ends (Star (Cls is_space)))
                   (ends (Cls is_space) (prev, c :: s))).
  by rewrite ends_cls_cons, Hc.
Qed.

Lemma filter_not_space_cons c s :
  List.filter not_space (c :: s)
  = if is_space c then List.filter not_space s
    else c :: List.filter not_space s.
Proof. cbn [List.filter]. unfold not_space at 1. by destruct (is_space c). Qed.

Lemma sub_spaces_scan : ∀ s prev skip,
  forallb is_space (take skip s) = true →
  flat_map (λ p, match p with Hit _ => [] | Gap c => [c] end)
           (scan spaces_pattern prev s skip)
  = List.filter not_space s.
Proof.
  induction s as [|c s IH]; intros prev skip Hk; [done|].
  rewrite filter_not_space_cons. destruct skip as [|k].
  - cbn [scan]. destruct (is_space c) eqn:Ec.
    + destruct (spaces_match_space prev c s Ec) as (p' & m & Em & M & Fm).
      rewrite Em. pose proof M as [E _]. cbn [fst snd] in E.
      injection E as E.
      assert (length (c :: s) - length p'.2 = S (length m)) as ->.
      { cbn [length]. rewrite E, length_app. lia. }
      cbn [Nat.eqb Nat.pred flat_map app]. apply IH.
      by rewrite E, take_app_length.
    + rewrite (spaces_match_none _ _ _ Ec). cbn [flat_map app].
      by rewrite IH.
  - cbn [take forallb] in Hk. apply andb_true_iff in Hk as [Hc Hk].
    cbn [scan]. rewrite Hc. by apply IH.
Qed.

Lemma sub_spaces s : sub spaces_pattern [] s = List.filter not_space s.
Proof. unfold sub. by apply sub_spaces_scan. Qed.

(** *** The alphabet of tokens *)

Definition token_char (c : ascii) : bool :=
  is_lower c || is_digit c
  || existsb (Ascii.eqb c) (list_ascii_of_string "_.%/-").

Definition dosage_char (c : ascii) : bool :=
  is_word c || is_space c || Ascii.eqb c "." || Ascii.eqb c "/".

Definition plain_char (c : ascii) : bool :=
  is_lower c || is_digit c
  || Ascii.eqb c "." || Ascii.eqb c "%" || Ascii.eqb c "-".

Lemma cls_dosage : cls_all dosage_char dosage_pattern = true.
Proof. vm_compute. reflexivity. Qed.

Lemma cls_compound : cls_all plain_char compound_pattern = true.
Proof. vm_compute. reflexivity. Qed.

Lemma cls_percentage : cls_all plain_char percentage_pattern = true.
Proof. vm_compute. reflexivity. Qed.

Lemma cls_word : cls_all plain_char word_pattern = true.
Proof. vm_compute. reflexivity. Qed.

Lemma plain_token :
  ascii_forall (λ c, implb (plain_char c) (token_char c)) = true.
Proof. vm_compute. reflexivity. Qed.

Lemma dosage_token :
  ascii_forall (λ c, implb (dosage_char c && not_space c
                            && negb (is_upper c)) (token_char c)) = true.
Proof. vm_compute. reflexivity. Qed.

Lemma plain_tokens r s m :
  cls_all plain_char r = true → m ∈ findall r s →
  forallb token_char m = true.
Proof.
  intros HP Hm. destruct (findall_chars _ _ _ _ HP Hm) as [F _].
  rewrite forallb_forall in *. intros c Hc. specialize (F c Hc).
  pose proof (ascii_forall_spec _ plain_token c) as Hi. simpl in Hi.
  by rewrite F in Hi.
Qed.

Lemma candidates_alphabet text cs :
  cs ∈ candidates text → forallb token_char cs = true.
Proof.
  unfold candidates. cbv zeta. rewrite !elem_of_app.
  intros [Hd|[Hc|[Hp|Hw]]].
  - apply list_elem_of_In, in_map_iff in Hd as (d & <- & Hd%list_elem_of_In).
    rewrite sub_spaces.
    destruct (findall_chars _ _ _ _ cls_dosage Hd) as (F & pre & post & E).
    rewrite forallb_forall in *. intros c [Hc Hns]%filter_In.
    specialize (F c Hc).
    assert (Hu : is_upper c = false).
    { assert (Hin : In c (lower text)).
      { rewrite E. apply in_or_app. right. apply in_or_app. by left. }
      unfold lower in Hin. apply in_map_iff in Hin as (x & <- & _).
      apply lower_char_not_upper. }
    pose proof (ascii_forall_spec _ dosage_token c) as Hi. simpl in Hi.
    by rewrite F, Hns, Hu in Hi.
  - by apply (plain_tokens compound_pattern _ _ cls_compound Hc).
  - by apply (plain_tokens percentage_pattern _ _ cls_percentage Hp).
  - by apply (plain_tokens word_pattern _ _ cls_word Hw).
Qed.

(** *** Dosage matches *)

Lemma dosage_match_digit p p' m :
  den dosage_pattern p p' → moves m p p' →
  ∃ c m', m = c :: m' ∧ is_digit c = true.
Proof.
  intros (q0 & [_ ->] & q1 & (q & D1 & D2) & D3) M.
  apply den_plus_cls in D1 as (m1 & Hne & F1 & M1).
  apply den_moves in D2 as [m2 M2]. apply den_moves in D3 as [m3 M3].
  pose proof (moves_app _ _ _ _ _ M1 (moves_app _ _ _ _ _ M2 M3)) as M'.
  rewrite (moves_inj _ _ _ _ M M').
  destruct m1 as [|c m1]; [done|]. simpl in F1.
  apply andb_true_iff in F1 as [Hc _]. by exists c, (m1 ++ m2 ++ m3).
Qed.

Lemma digit_not_space :
  ascii_forall (λ c, implb (is_digit c) (not_space c)) = true.
Proof. vm_compute. reflexivity. Qed.

Lemma dosage_token_has_digit s d :
  d ∈ findall dosage_pattern s →
  has_digit (List.filter not_space d) = true.
Proof.
  unfold findall.
  intros (pre & post & p' & E & Hm & M)%elem_of_hits%scan_hit_sound.
  apply match_at_sound in Hm.
  destruct (dosage_match_digit _ _ _ Hm M) as (c & m' & -> & Hc).
  pose proof (ascii_forall_spec _ digit_not_space c) as Hi. simpl in Hi.
  rewrite Hc in Hi. simpl in Hi. rewrite filter_not_space_cons.
  unfold not_space in Hi. apply negb_true_iff in Hi. rewrite Hi.
  unfold has_digit. simpl. by rewrite Hc.
Qed.

End TokenProps.

(** ** JSON text read back *)

Module JsonProps.
Import Regex Json TokenProps.

(** *** Induction on documents *)

Fixpoint json_size (j : json) : nat :=
  match j with
  | JArr l => S (list_sum (map (λ x, S (json_size x)) l))
  | JObj l =>
      S (list_sum (map (λ kv : string * json, S (json_size kv.2)) l))
  | _ => 1
  end.

Lemma json_nested_ind (P : json → Prop) :
  P JNull → (∀ z, P (JInt z)) → (∀ s, P (JStr s)) →
  (∀ l, Forall P l → P (JArr l)) →
  (∀ l, Forall (λ kv : string * json, P kv.2) l → P (JObj l)) →
  ∀ j, P j.
Proof.
  intros Hn Hi Hs Ha Ho. fix IH 1. intros [|z|s|l|l].
  - exact Hn.
  - apply Hi.
  - apply Hs.
  - apply Ha. induction l as [|x l IHl]; constructor; [apply IH|exact IHl].
  - apply Ho. induction l as [|[k v] l IHl]; constructor;
      [apply IH|exact IHl].
Qed.

(** *** Characters *)

Ltac each_char c :=
  destruct c as [[] [] [] [] [] [] [] []].

Lemma char_facts (P : ascii → bool) :
  ascii_forall P = true → ∀ c, P c = true.
Proof. apply ascii_forall_spec. Qed.

(** The characters that a value begins with. *)
Definition value_start (c : ascii) : bool :=
  is_digit c || (code c =? 45) || Ascii.eqb c quote
  || Ascii.eqb c "["%char || Ascii.eqb c "{"%char || Ascii.eqb c "n"%char.

Lemma value_start_not c :
  value_start c = true →
  is_ws c = false ∧ Ascii.eqb c "]"%char = false ∧
  Ascii.eqb c "}"%char = false ∧ Ascii.eqb c ","%char = false.
Proof.
  intros H.
  pose proof (char_facts
    (λ c, implb (value_start c)
            (negb (is_ws c) && negb (Ascii.eqb c "]"%char)
             && negb (Ascii.eqb c "}"%char) && negb (Ascii.eqb c ","%char)))
    ltac:(vm_compute; reflexivity) c) as Hc.
  simpl in Hc. rewrite H in Hc. simpl in Hc.
  repeat (apply andb_true_iff in Hc as [Hc ?]).
  repeat split; by apply negb_true_iff.
Qed.

Lemma digit_of_None c : is_digit c = false → digit_of c = None.
Proof.
  intros H.
  pose proof (char_facts
    (λ c, implb (negb (is_digit c))
            (match digit_of c with None => true | Some _ => false end))
    ltac:(vm_compute; reflexivity) c) as Hc.
  simpl in Hc. rewrite H in Hc. simpl in Hc. by destruct (digit_of c).
Qed.

(** *** Strings *)

Lemma scanstring_escape c rest :
  scanstring (escape c ++ rest) = cons_char c <$> scanstring rest.
Proof. each_char c; reflexivity. Qed.

Lemma scanstring_escaped cs rest :
  scanstring (flat_map escape cs ++ quote :: rest) = Some (cs, rest).
Proof.
  induction cs as [|c cs IH]; [reflexivity|].
  cbn [flat_map]. rewrite <- app_assoc, scanstring_escape, IH. done.
Qed.


(** *** Integers *)

(** Where a number ends: not before a digit, a dot or an exponent. *)
Definition number_stop (rest : list ascii) : bool :=
  match rest with
  | [] => true
  | c :: _ => negb (is_digit c) && negb (float_follows rest)
  end.

Lemma read_digits_digits d rest :
  number_stop rest = true → read_digits (digits d ++ rest) = (d, rest).
Proof.
  intros Hr.
  induction d as [|d IH|d IH|d IH|d IH|d IH|d IH|d IH|d IH|d IH|d IH];
    try (cbn [digits app read_digits];
         match goal with
         | |- context [digit_of ?c] =>
             change (digit_of c) with (Some Decimal.D0)
             || change (digit_of c) with (Some Decimal.D1)
             || change (digit_of c) with (Some Decimal.D2)
             || change (digit_of c) with (Some Decimal.D3)
             || change (digit_of c) with (Some Decimal.D4)
             || change (digit_of c) with (Some Decimal.D5)
             || change (digit_of c) with (Some Decimal.D6)
             || change (digit_of c) with (Some Decimal.D7)
             || change (digit_of c) with (Some Decimal.D8)
             || change (digit_of c) with (Some Decimal.D9)
         end; by rewrite IH).
  cbn [digits app]. destruct rest as [|c rest]; [done|].
  cbn [read_digits]. rewrite digit_of_None; [done|].
  simpl in Hr. apply andb_true_iff in Hr as [Hr _].
  by apply negb_true_iff.
Qed.

Lemma unorm_to_uint p : Decimal.unorm (Pos.to_uint p) = Pos.to_uint p.
Proof.
  pose proof (DecimalPos.Unsigned.to_of (Pos.to_uint p)) as H.
  rewrite DecimalPos.Unsigned.of_to in H. by symmetry.
Qed.

(** The digits of a number are a zero, or begin with another digit. *)
Definition canonical (d : Decimal.uint) : Prop :=
  d = Decimal.D0 Decimal.Nil ∨
  ∃ c t, digits d = c :: t ∧ is_digit c = true ∧ (code c =? 48) = false.

Lemma canonical_unorm d : Decimal.unorm d = d → canonical d.
Proof.
  unfold canonical. intros H.
  destruct d as [|d|d|d|d|d|d|d|d|d|d];
    [vm_compute in H; discriminate H| |
     right; eexists _, _; by repeat split..].
  left. unfold Decimal.unorm in H. cbn [Decimal.nzhead] in H.
    destruct (Decimal.nzhead d) eqn:E; try discriminate H.
  - by injection H as <-.
  - by apply DecimalFacts.nzhead_nonzero in E.
Qed.

Lemma canonical_to_int z :
  match Z.to_int z with
  | Decimal.Pos d | Decimal.Neg d => canonical d
  end.
Proof.
  destruct z as [|p|p]; simpl.
  - by left.
  - apply canonical_unorm, unorm_to_uint.
  - apply canonical_unorm, unorm_to_uint.
Qed.

Lemma read_integer_digits d rest :
  canonical d → number_stop rest = true →
  read_integer (digits d ++ rest) = Some (d, rest).
Proof.
  intros [->|(c & t & E & Hd & Hz)] Hr; [reflexivity|].
  pose proof (read_digits_digits d rest Hr) as Hrd.
  rewrite E in *. cbn [app read_integer] in *. by rewrite Hz, Hd, Hrd.
Qed.

Lemma number_stop_follows rest :
  number_stop rest = true → float_follows rest = false.
Proof.
  destruct rest as [|c rest]; [done|]. unfold number_stop.
  intros [_ H]%andb_true_iff. by apply negb_true_iff.
Qed.

Lemma scan_number_int_repr z rest :
  int_ok z = true → number_stop rest = true →
  scan_number (int_repr z ++ rest) = Some (JInt z, rest).
Proof.
  intros Hok Hr. unfold int_repr, int_ok in *.
  pose proof (canonical_to_int z) as Hc.
  pose proof (DecimalZ.of_to z) as Hz.
  destruct (Z.to_int z) as [d|d].
  - assert (Hs : ∃ c t, digits d ++ rest = c :: t ∧ (code c =? 45) = false).
    { destruct Hc as [->|(c & t & E & Hd & _)].
      - by eexists _, _.
      - rewrite E. eexists _, _. split; [done|].
        pose proof (char_facts
          (λ c, implb (is_digit c) (negb (code c =? 45)))
          ltac:(vm_compute; reflexivity) c) as Hi.
        simpl in Hi. rewrite Hd in Hi. by apply negb_true_iff. }
    destruct Hs as (c & t & E & Hm). unfold scan_number. rewrite E, Hm.
    cbn [fst snd]. rewrite <- E, (read_integer_digits d rest Hc Hr).
    rewrite (number_stop_follows rest Hr).
    apply Nat.leb_le in Hok.
    destruct (Nat.ltb_spec max_str_digits (Decimal.nb_digits d)); [lia|].
    by rewrite Hz.
  - unfold scan_number. cbn [app]. change (code "-" =? 45) with true.
    cbn [fst snd]. rewrite (read_integer_digits d rest Hc Hr).
    rewrite (number_stop_follows rest Hr).
    apply Nat.leb_le in Hok.
    destruct (Nat.ltb_spec max_str_digits (Decimal.nb_digits d)); [lia|].
    by rewrite Hz.
Qed.

(** *** The scanner, by the first character *)

Lemma scan_once_string fuel s1 :
  scan_once (S fuel) (quote :: s1)
  = match scanstring s1 with
    | Some (cs, rest) => Some (JStr (string_of_list_ascii cs), rest)
    | None => None
    end.
Proof. reflexivity. Qed.

Lemma scan_once_object fuel s1 :
  scan_once (S fuel) ("{"%char :: s1)
  = match after "}"%char (skip_ws s1) with
    | Some rest => Some (JObj [], rest)
    | None =>
        match JSONObject fuel (skip_ws s1) with
        | Some (pairs, rest) => Some (JObj pairs, rest)
        | None => None
        end
    end.
Proof. reflexivity. Qed.

Lemma scan_once_array fuel s1 :
  scan_once (S fuel) ("["%char :: s1)
  = match after "]"%char (skip_ws s1) with
    | Some rest => Some (JArr [], rest)
    | None =>
        match JSONArray fuel (skip_ws s1) with
        | Some (values, rest) => Some (JArr values, rest)
        | None => None
        end
    end.
Proof. reflexivity. Qed.

Lemma scan_once_null fuel rest :
  scan_once (S fuel) (chars "null" ++ rest) = Some (JNull, rest).
Proof. reflexivity. Qed.

Lemma scan_once_number fuel c s1 :
  is_digit c || (code c =? 45) = true →
  scan_once (S fuel) (c :: s1) = scan_number (c :: s1).
Proof.
  each_char c; intros H; vm_compute in H; try discriminate H; reflexivity.
Qed.

Lemma JSONArray_step fuel s :
  JSONArray (S fuel) s
  = match scan_once fuel s with
    | None => None
    | Some (value, rest) =>
        match after "]"%char (skip_ws rest) with
        | Some rest' => Some ([value], rest')
        | None =>
            match after ","%char (skip_ws rest) with
            | None => None
            | Some rest' =>
                match JSONArray fuel (skip_ws rest') with
                | Some (values, rest'') => Some (value :: values, rest'')
                | None => None
                end
            end
        end
    end.
Proof. reflexivity. Qed.

Lemma JSONObject_step fuel s :
  JSONObject (S fuel) s
  = match after quote s ≫= scanstring with
    | None => None
    | Some (key, rest) =>
        match after ":"%char (skip_ws rest) with
        | None => None
        | Some rest1 =>
            match scan_once fuel (skip_ws rest1) with
            | None => None
            | Some (value, rest2) =>
                let pair := (string_of_list_ascii key, value) in
                match after "}"%char (skip_ws rest2) with
                | Some rest3 => Some ([pair], rest3)
                | None =>
                    match after ","%char (skip_ws rest2) with
                    | None => None
                    | Some rest3 =>
                        match JSONObject fuel (skip_ws rest3) with
                        | Some (pairs, rest4) => Some (pair :: pairs, rest4)
                        | None => None
                        end
                    end
                end
            end
        end
    end.
Proof. reflexivity. Qed.

(** *** White space *)

Lemma skip_ws_spaces n s : skip_ws (repeat " "%char n ++ s) = skip_ws s.
Proof. induction n as [|n IH]; [done|]. exact IH. Qed.

Lemma skip_ws_newline_indent level s :
  skip_ws (newline_indent level ++ s) = skip_ws s.
Proof.
  unfold newline_indent. cbn [app]. change (skip_ws (newline :: ?x))
    with (skip_ws x). apply skip_ws_spaces.
Qed.

Lemma skip_ws_start c s : is_ws c = false → skip_ws (c :: s) = c :: s.
Proof. intros H. cbn [skip_ws]. by rewrite H. Qed.


(** *** A document that is written is read back *)

Lemma after_same c s : after c (c :: s) = Some s.
Proof. unfold after. by rewrite Ascii.eqb_refl. Qed.

Lemma after_other c x s : Ascii.eqb x c = false → after c (x :: s) = None.
Proof. intros H. unfold after. by rewrite H. Qed.

Lemma iterencode_start level j :
  ∃ c t, iterencode level j = c :: t ∧ value_start c = true.
Proof.
  destruct j as [|z|s|[|x l]|[|kv l]]; try (by eexists _, _).
  cbn [iterencode]. unfold int_repr.
  pose proof (canonical_to_int z) as H. destruct (Z.to_int z) as [d|d].
  - destruct H as [->|(c & t & E & Hd & _)]; [by eexists _, _|].
    rewrite E. eexists _, _; split; [done|]. unfold value_start.
    by rewrite Hd.
  - by eexists _, _.
Qed.

Lemma skip_ws_value level j s :
  skip_ws (iterencode level j ++ s) = iterencode level j ++ s.
Proof.
  destruct (iterencode_start level j) as (c & t & -> & Hc).
  apply skip_ws_start. by apply value_start_not.
Qed.

Lemma after_value c level j s :
  c = "]"%char ∨ c = "}"%char ∨ c = ","%char →
  after c (iterencode level j ++ s) = None.
Proof.
  destruct (iterencode_start level j) as (x & t & -> & Hx).
  apply value_start_not in Hx as (_ & ? & ? & ?).
  intros [-> | [-> | ->]]; by apply after_other.
Qed.

Lemma separated_cons sep x y items :
  separated sep (x :: y :: items) = x ++ sep ++ separated sep (y :: items).
Proof. cbn [separated flat_map]. by rewrite <- app_assoc. Qed.

Definition reads_back (j : json) : Prop :=
  ints_ok j = true →
  ∀ level fuel rest,
    json_size j ≤ fuel → number_stop rest = true →
    scan_once fuel (iterencode level j ++ rest) = Some (j, rest).

Lemma JSONArray_items level rest l : ∀ x fuel,
  Forall reads_back (x :: l) → forallb ints_ok (x :: l) = true →
  list_sum (map (λ x, S (json_size x)) (x :: l)) ≤ fuel →
  JSONArray fuel
    (separated (","%char :: newline_indent (S level))
               (map (iterencode (S level)) (x :: l))
     ++ newline_indent level ++ "]"%char :: rest)
  = Some (x :: l, rest).
Proof.
  induction l as [|y l IH]; intros x fuel HP Hok Hf;
    apply Forall_cons in HP as [Hx HP];
    cbn [forallb] in Hok; apply andb_true_iff in Hok as [Hokx Hok];
    simpl in Hf; (destruct fuel as [|fuel]; [lia|]);
    rewrite JSONArray_step.
  - cbn [map separated flat_map]. rewrite app_nil_r.
    rewrite (Hx Hokx (S level) fuel
               (newline_indent level ++ "]"%char :: rest)) by (lia || done).
    rewrite skip_ws_newline_indent, (skip_ws_start "]"%char) by done.
    by rewrite after_same.
  - cbn [map]. rewrite separated_cons, <- !app_assoc.
    rewrite (Hx Hokx (S level) fuel) by (lia || done).
    cbn [app]. rewrite (skip_ws_start ","%char) by done.
    rewrite after_other by done. rewrite after_same.
    rewrite skip_ws_newline_indent.
    change (iterencode (S level) y :: map (iterencode (S level)) l)
      with (map (iterencode (S level)) (y :: l)).
    assert (E : skip_ws
                  (separated (","%char :: newline_indent (S level))
                     (map (iterencode (S level)) (y :: l))
                   ++ newline_indent level ++ "]"%char :: rest)
                = separated (","%char :: newline_indent (S level))
                    (map (iterencode (S level)) (y :: l))
                  ++ newline_indent level ++ "]"%char :: rest).
    { cbn [map separated]. rewrite <- app_assoc. apply skip_ws_value. }
    rewrite E, (IH y fuel HP Hok) by (simpl; lia). done.
Qed.

Lemma member_text k body :
  encode_basestring_ascii k ++ chars ": " ++ body
  = quote :: flat_map escape (chars k)
    ++ quote :: ":"%char :: " "%char :: body.
Proof.
  unfold encode_basestring_ascii. cbn [app]. by rewrite <- app_assoc.
Qed.

Definition member_texts (level : nat) (l : list (string * json))
  : list (list ascii) :=
  map (λ kv : string * json,
         encode_basestring_ascii kv.1 ++ chars ": "
         ++ iterencode (S level) kv.2) l.

Lemma members_start level sep kv l s :
  ∃ t, separated sep (member_texts level (kv :: l)) ++ s = quote :: t.
Proof.
  cbn [member_texts map separated]. rewrite <- !app_assoc.
  rewrite member_text. by eexists.
Qed.

Lemma separated_members level sep kv kv' l s :
  separated sep (member_texts level (kv :: kv' :: l)) ++ s
  = encode_basestring_ascii kv.1 ++ chars ": "
    ++ iterencode (S level) kv.2 ++ sep
    ++ separated sep (member_texts level (kv' :: l)) ++ s.
Proof.
  change (member_texts level (kv :: kv' :: l))
    with ((encode_basestring_ascii kv.1 ++ chars ": "
           ++ iterencode (S level) kv.2)
          :: member_texts level (kv' :: l)).
  change (member_texts level (kv' :: l))
    with ((encode_basestring_ascii kv'.1 ++ chars ": "
           ++ iterencode (S level) kv'.2)
          :: member_texts level l).
  rewrite separated_cons. by rewrite <- !app_assoc.
Qed.

Lemma JSONObject_items level rest l : ∀ kv fuel,
  Forall (λ kv : string * json, reads_back kv.2) (kv :: l) →
  forallb (λ kv : string * json, ints_ok kv.2) (kv :: l) = true →
  list_sum (map (λ kv : string * json, S (json_size kv.2)) (kv :: l))
  ≤ fuel →
  JSONObject fuel
    (separated (","%char :: newline_indent (S level))
               (member_texts level (kv :: l))
     ++ newline_indent level ++ "}"%char :: rest)
  = Some (kv :: l, rest).
Proof.
  induction l as [|kv' l IH]; intros [k v] fuel HP Hok Hf;
    apply Forall_cons in HP as [Hx HP];
    cbn [forallb] in Hok; apply andb_true_iff in Hok as [Hokx Hok];
    simpl in Hf; (destruct fuel as [|fuel]; [lia|]);
    simpl in Hx, Hokx, Hf; rewrite JSONObject_step.
  - cbn [member_texts map separated flat_map fst snd].
    rewrite app_nil_r, <- !app_assoc, member_text, after_same.
    cbn [mbind option_bind]. rewrite scanstring_escaped.
    rewrite (skip_ws_start ":"%char) by done. rewrite after_same.
    change (skip_ws (" "%char :: ?x)) with (skip_ws x).
    rewrite skip_ws_value.
    rewrite (Hx Hokx (S level) fuel
               (newline_indent level ++ "}"%char :: rest)) by (lia || done).
    cbv zeta.
    rewrite skip_ws_newline_indent, (skip_ws_start "}"%char) by done.
    rewrite after_same. unfold chars. by rewrite string_of_list_ascii_of_string.
  - rewrite separated_members.
    cbn [fst snd]. rewrite member_text, after_same.
    cbn [mbind option_bind]. rewrite scanstring_escaped.
    rewrite (skip_ws_start ":"%char) by done. rewrite after_same.
    change (skip_ws (" "%char :: ?x)) with (skip_ws x).
    rewrite skip_ws_value.
    rewrite (Hx Hokx (S level) fuel) by (lia || done).
    cbv zeta. cbn [app]. rewrite (skip_ws_start ","%char) by done.
    rewrite after_other by done. rewrite after_same.
    rewrite skip_ws_newline_indent.
    destruct (members_start level (","%char :: newline_indent (S level))
                kv' l (newline_indent level ++ "}"%char :: rest))
      as [t Et].
    rewrite Et, (skip_ws_start quote) by done. rewrite <- Et.
    rewrite (IH kv' fuel HP Hok) by (simpl; lia).
    unfold chars. by rewrite string_of_list_ascii_of_string.
Qed.

Theorem scan_once_iterencode j : reads_back j.
Proof.
  induction j as [|z|s|l IH|l IH] using json_nested_ind;
    intros Hok level fuel rest Hf Hr;
    (destruct fuel as [|fuel]; [simpl in Hf; lia|]).
  - apply scan_once_null.
  - cbn [iterencode ints_ok] in *.
    destruct (iterencode_start level (JInt z)) as (c & t & E & Hc).
    cbn [iterencode] in E.
    assert (Hd : is_digit c || (code c =? 45) = true).
    { revert E Hc. unfold int_repr.
      pose proof (canonical_to_int z) as H. destruct (Z.to_int z) as [d|d].
      - destruct H as [->|(c' & t' & E' & Hd & _)].
        + by intros [= <- <-].
        + rewrite E'. intros [= <- <-] _. by rewrite Hd.
      - by intros [= <- <-]. }
    rewrite <- (scan_number_int_repr z rest Hok Hr), E. cbn [app].
    by apply scan_once_number.
  - cbn [iterencode]. unfold encode_basestring_ascii. cbn [app].
    rewrite scan_once_string, <- app_assoc. cbn [app].
    rewrite scanstring_escaped. unfold chars.
    by rewrite string_of_list_ascii_of_string.
  - destruct l as [|x l]; [reflexivity|].
    cbn [iterencode app]. rewrite scan_once_array, <- !app_assoc.
    rewrite skip_ws_newline_indent.
    assert (E : ∀ s,
              skip_ws
                (separated (","%char :: newline_indent (S level))
                   (map (iterencode (S level)) (x :: l)) ++ s)
              = separated (","%char :: newline_indent (S level))
                  (map (iterencode (S level)) (x :: l)) ++ s
              ∧ after "]"%char
                  (separated (","%char :: newline_indent (S level))
                     (map (iterencode (S level)) (x :: l)) ++ s) = None).
    { intros s. cbn [map separated]. rewrite <- app_assoc.
      split; [apply skip_ws_value|apply after_value; by left]. }
    destruct (E (newline_indent level ++ ["]"%char] ++ rest)) as [-> ->].
    cbn [app]. cbn [json_size] in Hf. cbn [ints_ok] in Hok.
    by rewrite (JSONArray_items level rest l x fuel IH Hok) by lia.
  - destruct l as [|kv l]; [reflexivity|].
    cbn [iterencode app]. rewrite scan_once_object, <- !app_assoc.
    rewrite skip_ws_newline_indent.
    change (map
              (λ kv0 : string * json,
                 encode_basestring_ascii kv0.1 ++ chars ": "
                 ++ iterencode (S level) kv0.2) (kv :: l))
      with (member_texts level (kv :: l)).
    destruct (members_start level (","%char :: newline_indent (S level))
                kv l (newline_indent level ++ ["}"%char] ++ rest))
      as [t Et].
    rewrite Et, (skip_ws_start quote), (after_other "}"%char quote) by done.
    rewrite <- Et. cbn [app]. cbn [json_size] in Hf. cbn [ints_ok] in Hok.
    by rewrite (JSONObject_items level rest l kv fuel IH Hok) by lia.
Qed.

(** The calls of the scanner are fewer than the characters it reads. *)
Lemma length_separated {A} (size : A → nat) (f : A → list ascii) sep l :
  Forall (λ x, size x ≤ length (f x)) l → 0 < length sep →
  list_sum (map (λ x, S (size x)) l) ≤ S (length (separated sep (map f l))).
Proof.
  intros Hl Hs. destruct Hl as [|x l Hx Hl]; [simpl; lia|].
  assert (H : list_sum (map (λ x, S (size x)) l)
              ≤ length (flat_map (λ y, sep ++ y) (map f l))).
  { induction Hl as [|y l Hy Hl IH]; [done|].
    simpl. rewrite !length_app. lia. }
  simpl. rewrite length_app. lia.
Qed.

Lemma newline_indent_length level : 0 < length (newline_indent level).
Proof. simpl. lia. Qed.

Lemma json_size_length level j : json_size j ≤ length (iterencode level j).
Proof.
  revert level.
  induction j as [|z|s|l IH|l IH] using json_nested_ind; intros level.
  - simpl. lia.
  - destruct (iterencode_start level (JInt z)) as (c & t & -> & _).
    simpl. lia.
  - simpl. lia.
  - destruct l as [|x l]; [simpl; lia|].
    pose proof (length_separated json_size (iterencode (S level))
                  (","%char :: newline_indent (S level)) (x :: l)) as H.
    cbn [iterencode json_size]. cbn [length]. rewrite !length_app.
    specialize (H ltac:(eapply Forall_impl; [exact IH|];
                        intros ? Hx; apply Hx)
                  ltac:(simpl; lia)).
    pose proof (newline_indent_length (S level)). lia.
  - destruct l as [|kv l]; [simpl; lia|].
    pose proof (length_separated (λ kv : string * json, json_size kv.2)
                  (λ kv : string * json,
                     encode_basestring_ascii kv.1 ++ chars ": "
                     ++ iterencode (S level) kv.2)
                  (","%char :: newline_indent (S level)) (kv :: l)) as H.
    cbn [iterencode json_size]. cbn [length]. rewrite !length_app.
    specialize (H ltac:(eapply Forall_impl; [exact IH|];
                        intros ? Hx; cbn beta in *; rewrite !length_app;
                        specialize (Hx (S level)); lia)
                  ltac:(simpl; lia)).
    pose proof (newline_indent_length (S level)). lia.
Qed.

(** What [json.dump] wrote, [json.load] reads. *)
Theorem decode_dump (o : json) :
  ints_ok o = true →
  ∃ text, dump o = inr text ∧ decode text = Some o.
Proof.
  intros Hok. unfold dump. rewrite Hok. eexists. split; [done|].
  unfold decode, chars. rewrite list_ascii_of_string_of_list_ascii.
  cbv zeta. rewrite <- (app_nil_r (iterencode 0 o)) at 2.
  rewrite skip_ws_value, app_nil_r.
  rewrite <- (app_nil_r (iterencode 0 o)) at 2.
  rewrite (scan_once_iterencode o Hok 0 _ []); [done| |done].
  pose proof (json_size_length 0 o). lia.
Qed.

End JsonProps.

Module IndexProps.
Import PyDict PyDictFacts Indexer IndexFacts SearchFacts.

(** *** More on dictionaries *)

Lemma mem_keys {V} k (d : dict V) : mem k d = true ↔ k ∈ keys d.
Proof.
  unfold mem. destruct (get k d) eqn:E.
  - split; [intros _|done]. destruct (decide (k ∈ keys d)) as [|Hn]; [done|].
    apply get_None_keys in Hn. congruence.
  - apply get_None_keys in E. by split.
Qed.

Lemma elem_of_keys_set {V} k (v : V) d x :
  x ∈ keys (set k v d) ↔ x = k ∨ x ∈ keys d.
Proof.
  rewrite keys_set. destruct (mem k d) eqn:E.
  - apply mem_keys in E. split; [by right|]. by intros [->|].
  - rewrite elem_of_app, list_elem_of_singleton. tauto.
Qed.

Lemma keys_set_cong {V W} k (v : V) (w : W) (d : dict V) (e : dict W) :
  keys d = keys e → keys (set k v d) = keys (set k w e).
Proof.
  intros E. rewrite !keys_set.
  assert (mem k d = mem k e) as ->; [|by rewrite E].
  destruct (mem k e) eqn:Ee.
  - apply mem_keys. rewrite E. by apply mem_keys.
  - apply not_true_iff_false. rewrite mem_keys, E, <- mem_keys. congruence.
Qed.

Lemma length_set_le {V} k (v : V) d : length (set k v d) ≤ S (length d).
Proof.
  induction d as [|[k' v'] d IH]; simpl; [done|].
  destruct (String.eqb k k'); simpl; lia.
Qed.

Lemma set_nonempty {V} k (v : V) d : set k v d ≠ [].
Proof. destruct d as [|[k' v'] d]; simpl; [done|]. by destruct (String.eqb k k'). Qed.

Lemma get_set_cases {V} k k' (v v' : V) d :
  get k' (set k v d) = Some v' →
  (k' = k ∧ v' = v) ∨ (k' ≠ k ∧ get k' d = Some v').
Proof.
  destruct (decide (k = k')) as [->|Hne].
  - rewrite get_set_eq. intros [= ->]. by left.
  - rewrite get_set_ne by done. intros Hg. right. split; [|done].
    by intros ->.
Qed.

Lemma get_Some_keys {V} k (v : V) d : get k d = Some v → k ∈ keys d.
Proof. intros E. apply mem_keys. unfold mem. by rewrite E. Qed.

Lemma keys_get {V} k (d : dict V) : k ∈ keys d → is_Some (get k d).
Proof.
  intros Hk%mem_keys. unfold mem in Hk. destruct (get k d); [by eexists|done].
Qed.

(** *** The invariant of an index built by [load_from_tsv] *)

Definition consistent (ix : indexer) : Prop :=
  wf2 (index ix) ∧ wf (drugs ix) ∧
  keys (drugs ix) = keys (doc_lengths ix) ∧
  (∀ t p, get t (index ix) = Some p →
          p ≠ [] ∧ ∀ d, d ∈ keys p → d ∈ keys (doc_lengths ix)) ∧
  length (doc_lengths ix) ≤ doc_count ix.

Lemma consistent_init : consistent init.
Proof.
  repeat split; simpl; try done; try apply NoDup_nil_2.
Qed.

Lemma load_row_inv ix row :
  match load_row ix row with
  | inl e => e = KeyError "setid" ∧ mem "setid" row = false
  | inr ix' =>
      ∃ id, get "setid" row = Some id ∧
            ix' = add_tokens
                    {| index := index ix; doc_count := doc_count ix;
                       doc_lengths := doc_lengths ix;
                       drugs := set id row (drugs ix) |}
                    id (tokenize (create_document_text row
                                    default_field_weights))
  end.
Proof.
  unfold load_row, mem. destruct (get "setid" row) as [id|]; [|done].
  by exists id.
Qed.

Lemma consistent_add_tokens ix row id tokens :
  consistent ix →
  consistent (add_tokens
                {| index := index ix; doc_count := doc_count ix;
                   doc_lengths := doc_lengths ix;
                   drugs := set id row (drugs ix) |} id tokens).
Proof.
  intros (Hw & Hd & Hk & Hp & Hn). unfold consistent.
  split; [|unfold add_tokens; cbn [index drugs doc_lengths doc_count];
           split; [|split; [|split]]].
  - by apply (wf2_add_tokens
                {| index := index ix; doc_count := doc_count ix;
                   doc_lengths := doc_lengths ix;
                   drugs := set id row (drugs ix) |}).
  - by apply wf_set.
  - by apply keys_set_cong.
  - intros t p. rewrite fold_post_get by apply Counter_NoDup.
    destruct (get t (Counter tokens)) as [n|].
    + intros [= <-]. split; [apply set_nonempty|].
      intros d [->|Hin]%elem_of_keys_set; apply elem_of_keys_set;
        [by left|right].
      unfold get_default in Hin. destruct (get t (index ix)) as [p0|] eqn:E.
      * by apply (Hp t p0).
      * by apply elem_of_nil in Hin.
    + intros E. destruct (Hp t p E) as [Hne Hin]. split; [done|].
      intros d Hd'. apply elem_of_keys_set. right. by apply Hin.
  - pose proof (length_set_le id (length tokens) (doc_lengths ix)). lia.
Qed.

Lemma load_rows_inv rows : ∀ ix,
  match load_rows ix rows with
  | inl e => e = KeyError "setid" ∧ ∃ row, row ∈ rows ∧ mem "setid" row = false
  | inr ix' =>
      (∀ row, row ∈ rows → mem "setid" row = true) ∧
      doc_count ix' = doc_count ix + length rows ∧
      (consistent ix → consistent ix') ∧
      (∀ d r, get d (drugs ix') = Some r →
              get d (drugs ix) = Some r ∨
              (r ∈ rows ∧ get "setid" r = Some d))
  end.
Proof.
  induction rows as [|row rows IH]; intros ix; simpl.
  - split; [by intros ? ?%elem_of_nil|]. split; [lia|]. split; [done|].
    intros d r. by left.
  - pose proof (load_row_inv ix row) as Hr.
    destruct (load_row ix row) as [e|ix1]; simpl.
    + destruct Hr as [-> Hm]. split; [done|]. exists row. split; [by left|done].
    + destruct Hr as (id & Hid & ->). specialize (IH (add_tokens
        {| index := index ix; doc_count := doc_count ix;
           doc_lengths := doc_lengths ix;
           drugs := set id row (drugs ix) |} id
        (tokenize (create_document_text row default_field_weights)))).
      destruct (load_rows _ rows) as [e|ix'].
      * destruct IH as [-> (r & Hin & Hm)]. split; [done|].
        exists r. split; [by right|done].
      * destruct IH as (Hall & Hc & Hcons & Hdr).
        split; [|split; [|split]].
        -- intros r [->|Hin]%elem_of_cons; [|by apply Hall].
           unfold mem. by rewrite Hid.
        -- rewrite Hc. cbn [doc_count add_tokens]. lia.
        -- intros H0. by apply Hcons, consistent_add_tokens.
        -- intros d r [Hg|[Hin Hs]]%Hdr.
           ++ cbn [drugs add_tokens] in Hg.
              apply get_set_cases in Hg as [[-> ->]|[_ Hg]]; [|by left].
              right. split; [by left|done].
           ++ right. split; [by right|done].
Qed.

Lemma consistent_df_bounds ix t p :
  consistent ix → get t (index ix) = Some p → 1 ≤ length p ≤ doc_count ix.
Proof.
  intros ([_ Hw] & _ & _ & Hp & Hn) E. destruct (Hp t p E) as [Hne Hin].
  split; [destruct p; [done|simpl; lia]|].
  apply get_Some_elem in E. rewrite Forall_forall in Hw.
  specialize (Hw _ E). simpl in Hw.
  assert (Hs : keys p ⊆+ keys (doc_lengths ix)) by by apply NoDup_submseteq.
  apply submseteq_length in Hs. unfold keys in Hs.
  rewrite !length_map in Hs. lia.
Qed.

Lemma consistent_posting ix t d :
  consistent ix → is_Some (posting (index ix) t d) →
  is_Some (get d (drugs ix)) ∧ is_Some (get d (doc_lengths ix)).
Proof.
  intros (_ & _ & Hk & Hp & _) [n Hn]. unfold posting in Hn.
  destruct (get t (index ix)) as [p|] eqn:E; [|done]. simpl in Hn.
  destruct (Hp t p E) as [_ Hin]. apply get_Some_keys, Hin in Hn.
  split; apply keys_get; [by rewrite Hk|done].
Qed.

(** *** Records without usable text *)

Definition unusable (value : string) : Prop :=
  value = "" ∨ value = "Not found".

Lemma create_document_text_unusable row (w : dict nat) :
  (∀ f, f ∈ keys w → unusable (get_default f "" row)) →
  create_document_text row w = "".
Proof.
  intros Hu. unfold create_document_text. cbv zeta.
  assert (flat_map
            (λ fw : string * nat,
               if negb (String.eqb (get_default fw.1 "" row) "")
                  && negb (String.eqb (get_default fw.1 "" row) "Not found")
               then replicate fw.2 (get_default fw.1 "" row) else []) w
          = []) as ->; [|done].
  induction w as [|[f n] w IH]; [done|]. cbn [flat_map fst snd].
  rewrite IH by (intros f' Hf'; apply Hu; by right).
  destruct (Hu f) as [->| ->]; [by left|done|done].
Qed.

(** *** Sorting term counts *)

End IndexProps.

(** ** The indexer on tables and index files *)

Module StoreProps.
Import PyDict PyDictFacts Indexer IndexFacts SearchFacts Store.

(** *** Dictionaries with the key [None] *)

Lemma key_eqb_eq a b : key_eqb a b = true ↔ a = b.
Proof.
  destruct a, b; simpl; rewrite ?String.eqb_eq; naive_solver.
Qed.


Lemma key_eqb_neq a b : a ≠ b → key_eqb a b = false.
Proof.
  intros Hne. destruct (key_eqb a b) eqn:E; [|done].
  by apply key_eqb_eq in E.
Qed.

Section KDict.
Context {V : Type}.
Implicit Types (d : kdict V) (k : key) (v : V).



Lemma kset_absent k v d : k ∉ kkeys d → kset k v d = d ++ [(k, v)].
Proof.
  induction d as [|[k' v'] d IH]; simpl; [done|].
  intros [Hne Hk]%not_elem_of_cons.
  by rewrite key_eqb_neq, IH.
Qed.

Lemma kkeys_kset k v d : k ∈ kkeys (kset k v d).
Proof.
  induction d as [|[k' v'] d IH]; simpl; [by left|].
  destruct (key_eqb k k'); simpl; [by left|by right].
Qed.


Lemma set_absent (k : string) v (d : dict V) :
  k ∉ keys d → set k v d = d ++ [(k, v)].
Proof.
  induction d as [|[k' v'] d IH]; simpl; [done|].
  intros [Hne Hk]%not_elem_of_cons.
  by rewrite eqb_false, IH.
Qed.

(** [dict(pairs)] of pairs with distinct names is the list of pairs. *)
Lemma fold_set_NoDup (l : list (string * V)) : ∀ d : dict V,
  NoDup (keys d ++ map fst l) →
  fold_left (λ acc (kv : string * V), set kv.1 kv.2 acc) l d = d ++ l.
Proof.
  induction l as [|[k v] l IH]; intros d Hnd; simpl.
  - by rewrite app_nil_r.
  - assert (Hk : k ∉ keys d).
    { apply NoDup_app in Hnd as (_ & Hd & _). intros Hk.
      apply (Hd k Hk). by left. }
    rewrite (set_absent k v d Hk), IH, <- app_assoc; [done|].
    unfold keys in *. rewrite map_app. simpl. by rewrite <- app_assoc.
Qed.

Lemma dict_of_members_NoDup (l : list (string * V)) :
  NoDup (map fst l) → dict_of_members l = l.
Proof. intros Hnd. by apply (fold_set_NoDup l []). Qed.

Lemma set_values (P : V → Prop) (k : string) v (d : dict V) :
  P v → Forall (λ kv : string * V, P kv.2) d →
  Forall (λ kv : string * V, P kv.2) (set k v d).
Proof.
  intros Hv. induction 1 as [|[k' v'] d Hx Hd IH]; simpl.
  - by repeat constructor.
  - destruct (String.eqb k k'); constructor; done.
Qed.

Lemma fold_set_values (P : V → Prop) (l : list (string * V)) :
  Forall (λ kv : string * V, P kv.2) l → ∀ d : dict V,
  Forall (λ kv : string * V, P kv.2) d →
  Forall (λ kv : string * V, P kv.2)
         (fold_left (λ acc (kv : string * V), set kv.1 kv.2 acc) l d).
Proof.
  induction 1 as [|[k v] l Hx Hl IH]; intros d Hd; simpl; [done|].
  apply IH. by apply set_values.
Qed.

Lemma dict_of_members_values (P : V → Prop) (l : list (string * V)) :
  Forall (λ kv : string * V, P kv.2) l →
  Forall (λ kv : string * V, P kv.2) (dict_of_members l).
Proof. intros Hl. by apply fold_set_values. Qed.

End KDict.

(** *** The document of [save_index], read back *)

Lemma nat_of_json_of_nat n : nat_of_json (json_of_nat n) = Some n.
Proof.
  unfold nat_of_json, json_of_nat.
  destruct (Z.leb_spec 0 (Z.of_nat n)); [|lia]. by rewrite Nat2Z.id.
Qed.

Lemma str_of_json_JStr l : mapM str_of_json (map JStr l) = Some l.
Proof. induction l as [|s l IH]; simpl; [done|]. by rewrite IH. Qed.

Lemma value_of_json_of_value v : value_of_json (json_of_value v) = Some v.
Proof.
  destruct v as [s| |l]; simpl; [done|done|]. by rewrite str_of_json_JStr.
Qed.

Section Documents.
Context {V : Type} (f : V → json) (g : json → option V).

Lemma mapM_members (d : dict V) :
  Forall (λ kv : string * V, g (f kv.2) = Some kv.2) d →
  mapM (λ kv : string * json, v ← g kv.2; Some (kv.1, v))
       (map (λ kv : string * V, (kv.1, f kv.2)) d) = Some d.
Proof.
  induction 1 as [|[k v] d Hx Hd IH]; simpl; [done|].
  simpl in Hx. by rewrite Hx, IH.
Qed.

Lemma dict_of_json_of_dict (d : dict V) :
  wf d →
  Forall (λ kv : string * V, g (f kv.2) = Some kv.2) d →
  dict_of_json g (json_of_dict f d) = Some d.
Proof.
  intros Hwf Hd. unfold dict_of_json, json_of_dict.
  rewrite dict_of_members_NoDup; [by apply mapM_members|].
  rewrite map_map. simpl. done.
Qed.

(** The names of string keys are the keys. *)
Lemma key_names (d : kdict V) :
  str_keys d →
  kdict_of_dict (map (λ kv : key * V, (key_name kv.1, kv.2)) d) = d.
Proof.
  unfold kdict_of_dict. induction 1 as [|[[k|] v] d Hx Hd IH]; simpl.
  - done.
  - f_equal. exact IH.
  - destruct Hx as [? Hx]. simpl in Hx. discriminate.
Qed.

Lemma key_names_NoDup (d : kdict V) :
  str_keys d → kwf d → NoDup (map key_name (kkeys d)).
Proof.
  unfold kwf, kkeys. intros Hs.
  assert (E : map Some (map key_name (map fst d)) = map fst d).
  { induction Hs as [|[[k|] v] d Hx Hd IH]; simpl.
    - done.
    - f_equal. exact IH.
    - destruct Hx as [? Hx]. simpl in Hx. discriminate. }
  intros Hnd. rewrite <- E in Hnd. by apply (NoDup_fmap_1 Some) in Hnd.
Qed.

Lemma kdict_of_json_of_kdict (d : kdict V) :
  kwf d → str_keys d →
  Forall (λ kv : key * V, g (f kv.2) = Some kv.2) d →
  kdict_of_json g (json_of_kdict f d) = Some d.
Proof.
  intros Hwf Hs Hd. unfold kdict_of_json.
  assert (E : json_of_kdict f d
              = json_of_dict f (map (λ kv : key * V, (key_name kv.1, kv.2)) d)).
  { unfold json_of_kdict, json_of_dict. by rewrite map_map. }
  rewrite E, dict_of_json_of_dict; simpl.
  - by rewrite key_names.
  - unfold wf, keys. rewrite map_map. simpl.
    rewrite <- (map_map fst key_name). by apply key_names_NoDup.
  - rewrite Forall_map. simpl. done.
Qed.

(** Whatever the keys, the document is read back, into a dictionary with
    string keys. *)
Lemma mapM_members_total (P : V → Prop) (l : list (string * json)) :
  Forall (λ kv : string * json, ∃ v, g kv.2 = Some v ∧ P v) l →
  ∃ d, mapM (λ kv : string * json, v ← g kv.2; Some (kv.1, v)) l = Some d ∧
       Forall (λ kv : string * V, P kv.2) d.
Proof.
  induction 1 as [|[k j] l (v & Hv & HP) Hl (d & Hd & HPd)]; simpl.
  - by exists [].
  - simpl in Hv. rewrite Hv, Hd. simpl. exists ((k, v) :: d).
    split; [done|]. by constructor.
Qed.

Lemma str_keys_kdict_of_dict (d : dict V) : str_keys (kdict_of_dict d).
Proof.
  unfold str_keys, kdict_of_dict. rewrite Forall_map.
  apply Forall_forall. intros kv _. by eexists.
Qed.

Lemma kdict_of_json_total (P : V → Prop) (d : kdict V) :
  (∀ v, ∃ v', g (f v) = Some v' ∧ P v') →
  ∃ d', kdict_of_json g (json_of_kdict f d) = Some d' ∧
        str_keys d' ∧ Forall (λ kv : key * V, P kv.2) d'.
Proof.
  intros Hgf. unfold kdict_of_json, json_of_kdict, dict_of_json.
  destruct (mapM_members_total P
              (dict_of_members
                 (map (λ kv : key * V, (key_name kv.1, f kv.2)) d)))
    as (d' & Hd' & HP).
  { apply (dict_of_members_values (λ j, ∃ v, g j = Some v ∧ P v)).
    rewrite Forall_map. apply Forall_forall. intros kv _. apply Hgf. }
  rewrite Hd'. simpl. exists (kdict_of_dict d'). split; [done|].
  split; [apply str_keys_kdict_of_dict|].
  unfold kdict_of_dict. by rewrite Forall_map.
Qed.

Lemma dict_of_json_total (P : V → Prop) (d : dict V) :
  (∀ v, ∃ v', g (f v) = Some v' ∧ P v') →
  ∃ d', dict_of_json g (json_of_dict f d) = Some d' ∧
        Forall (λ kv : string * V, P kv.2) d'.
Proof.
  intros Hgf. unfold json_of_dict, dict_of_json.
  apply mapM_members_total.
  apply (dict_of_members_values (λ j, ∃ v, g j = Some v ∧ P v)).
  rewrite Forall_map. apply Forall_forall. intros kv _. apply Hgf.
Qed.
End Documents.

Lemma data_members (a b c d : json) :
  dict_of_members
    [("index", a); ("doc_count", b); ("doc_lengths", c); ("drugs", d)]
  = [("index", a); ("doc_count", b); ("doc_lengths", c); ("drugs", d)].
Proof. reflexivity. Qed.

Lemma data_get (a b c d : json) :
  let data :=
    [("index", a); ("doc_count", b); ("doc_lengths", c); ("drugs", d)] in
  get "index" data = Some a ∧ get "doc_count" data = Some b ∧
  get "doc_lengths" data = Some c ∧ get "drugs" data = Some d.
Proof. by repeat split. Qed.

Ltac read_data :=
  unfold state_of_data, index_data; cbv beta iota zeta;
  rewrite data_members;
  match goal with
  | |- context [get "index" [("index", ?a); ("doc_count", ?b);
                             ("doc_lengths", ?c); ("drugs", ?d)]] =>
      destruct (data_get a b c d) as (-> & -> & -> & ->)
  end;
  cbn [mbind option_bind index doc_count doc_lengths drugs].

(** Saved and read back, a state whose keys are all strings is the state
    that was saved. *)
Lemma state_of_index_data (st : state) :
  state_wf st → str_keyed st → state_of_data (index_data st) = Some st.
Proof.
  intros (Hi & Hip & Hl & Hd & Hdr) (Si & Sl & Sd & Sdr).
  destruct st as [i n l d]. simpl in * |-.
  read_data.
  rewrite (dict_of_json_of_dict (json_of_kdict json_of_nat)
             (kdict_of_json nat_of_json) i Hi).
  2: { rewrite Forall_forall in Hip, Si. apply Forall_forall.
       intros kv Hkv. apply kdict_of_json_of_kdict; [by apply Hip|by apply Si|].
       apply Forall_forall. intros ? _. apply nat_of_json_of_nat. }
  cbn [mbind option_bind]. rewrite nat_of_json_of_nat. cbn [mbind option_bind].
  rewrite (kdict_of_json_of_kdict json_of_nat nat_of_json l Hl Sl).
  2: { apply Forall_forall. intros ? _. apply nat_of_json_of_nat. }
  cbn [mbind option_bind].
  rewrite (kdict_of_json_of_kdict (json_of_kdict json_of_value)
             (kdict_of_json value_of_json) d Hd Sd).
  2: { rewrite Forall_forall in Hdr, Sdr. apply Forall_forall.
       intros kv Hkv. apply kdict_of_json_of_kdict; [by apply Hdr|by apply Sdr|].
       apply Forall_forall. intros ? _. apply value_of_json_of_value. }
  done.
Qed.

(** Whatever the keys of the state, the document is read back, and the
    state read has string keys, the count that was saved and the terms
    that were saved. *)
Lemma state_of_index_data_total (st : state) :
  ∃ st', state_of_data (index_data st) = Some st' ∧ str_keyed st' ∧
         doc_count st' = doc_count st.
Proof.
  destruct st as [i n l d].
  read_data.
  destruct (dict_of_json_total (json_of_kdict json_of_nat)
              (kdict_of_json nat_of_json) (λ p, str_keys p) i)
    as (i' & Ei & Hi).
  { intros p. destruct (kdict_of_json_total json_of_nat nat_of_json
                          (λ _, True) p) as (p' & Ep & Hp & _).
    - intros v. exists v. by rewrite nat_of_json_of_nat.
    - by exists p'. }
  destruct (kdict_of_json_total json_of_nat nat_of_json (λ _, True) l)
    as (l' & El & Hl & _).
  { intros v. exists v. by rewrite nat_of_json_of_nat. }
  destruct (kdict_of_json_total (json_of_kdict json_of_value)
              (kdict_of_json value_of_json) (λ r, str_keys r) d)
    as (d' & Ed & Hd & Hdr).
  { intros r. destruct (kdict_of_json_total json_of_value value_of_json
                          (λ _, True) r) as (r' & Er & Hr & _).
    - intros v. exists v. by rewrite value_of_json_of_value.
    - by exists r'. }
  rewrite Ei. cbn [mbind option_bind]. rewrite nat_of_json_of_nat.
  cbn [mbind option_bind]. rewrite El. cbn [mbind option_bind].
  rewrite Ed. cbn [mbind option_bind].
  eexists. split; [done|]. by repeat split.
Qed.


(** *** The rows of [csv.DictReader] *)

Section Folds.
Context {A V : Type} (F : A → V).


Lemma wf_fold_set (l : list (string * A)) : ∀ d : dict V,
  wf d → wf (fold_left (λ acc (kv : string * A), set kv.1 (F kv.2) acc) l d).
Proof.
  induction l as [|[k' a] l IH]; intros d Hd; simpl; [done|].
  by apply IH, wf_set.
Qed.
End Folds.


Lemma dict_row_cells fieldnames record :
  cells (dict_row fieldnames record)
  = fold_left (λ acc (kv : string * unit), set kv.1 None acc)
      (map (λ k, (k, tt)) (drop (length record) fieldnames))
      (fold_left (λ acc (kv : string * string), set kv.1 (Some kv.2) acc)
         (zip fieldnames record) []).
Proof.
  unfold dict_row.
  destruct (Nat.ltb_spec (length fieldnames) (length record)) as [Hlt|Hge];
    simpl.
  - rewrite drop_ge by lia. done.
  - generalize (fold_left
                  (λ acc (kv : string * string), set kv.1 (Some kv.2) acc)
                  (zip fieldnames record) []).
    generalize (drop (length record) fieldnames).
    intros l. induction l as [|x l IH]; intros d; simpl; [done|]. apply IH.
Qed.


Lemma dict_row_wf fieldnames record :
  wf (cells (dict_row fieldnames record)).
Proof.
  rewrite dict_row_cells.
  apply (wf_fold_set (λ _ : unit, None)), (wf_fold_set Some), NoDup_nil_2.
Qed.



(** *** The loop of [load_from_tsv] *)

Definition row_wf (r : row) : Prop := wf (cells r).









Lemma DictReader_wf table : Forall row_wf (DictReader table).
Proof.
  destruct table as [|fieldnames records]; simpl; [done|].
  rewrite Forall_map. apply Forall_forall. intros r _. apply dict_row_wf.
Qed.

Lemma state_wf_init : state_wf init.
Proof. repeat split; simpl; try done; apply NoDup_nil_2. Qed.


(** *** Tables whose records are as long as the header *)














(** Saved to a file and loaded from it. *)
Lemma load_save_index fs path st :
  within_str_digits st →
  ∃ fs', save_index fs path st = inr fs' ∧
         load_index fs' path = state_of_data (index_data st).
Proof.
  intros Hok. unfold save_index, load_index.
  destruct (JsonProps.decode_dump (index_data st) Hok) as (text & -> & Hd).
  eexists. split; [done|]. rewrite get_set_eq.
  cbn [mbind option_bind]. by rewrite Hd.
Qed.

Lemma str_keyed_widen ix : str_keyed (widen ix).
Proof.
  unfold str_keyed, widen. simpl. repeat split.
  - rewrite Forall_map. apply Forall_forall. intros tp _.
    apply str_keys_kdict_of_dict.
  - apply str_keys_kdict_of_dict.
  - unfold str_keys. rewrite Forall_map. apply Forall_forall.
    intros dr _. by eexists.
  - rewrite Forall_map. apply Forall_forall. intros dr _. simpl.
    unfold str_keys, plain_record. rewrite Forall_map. apply Forall_forall.
    intros kv _. by eexists.
Qed.

Lemma widen_inj ix ix' : widen ix = widen ix' → ix = ix'.
Proof.
  assert (Hk : ∀ V, Inj (=) (=) (@kdict_of_dict V)).
  { intros V d. unfold kdict_of_dict. induction d as [|[k v] d IH];
      intros [|[k' v'] d']; simpl; try done.
    intros [= -> -> E]. by rewrite (IH _ E). }
  destruct ix as [i n l d], ix' as [i' n' l' d']. unfold widen. simpl.
  intros [= Ei -> El Ed]. f_equal.
  - revert i' Ei. induction i as [|[k v] i IH]; intros [|[k' v'] i']; simpl;
      try done.
    intros [= -> Ev E]. apply Hk in Ev as ->. by rewrite (IH _ E).
  - by apply Hk.
  - revert d' Ed. induction d as [|[k v] d IH]; intros [|[k' v'] d']; simpl;
      try done.
    intros [= -> Ev E]. rewrite (IH _ E). do 2 f_equal.
    clear -Ev. revert v' Ev. unfold plain_record.
    induction v as [|[a b] v IH]; intros [|[a' b'] v']; simpl; try done.
    intros [= -> -> E]. by rewrite (IH _ E).
Qed.

End StoreProps.

Module SearchProps.
Import PyDict PyDictFacts Indexer IndexFacts Search SearchFacts IndexProps.

Section WithFloats.
Context `{Floats}.

(** *** The IDF functions in closed form, within the float range *)

Definition in_float_range (c : IDFCalculator) (t : string) : Prop :=
  (Qnat (N c) < float_limit)%Q ∧ (Qnat (df c t) < float_limit)%Q.

Lemma standard_idf_cases c t :
  in_float_range c t →
  standard_idf c t
  = if df c t =? 0 then inr (PyInt 0)
    else if N c =? 0 then inl ValueError
    else inr (PyFloat (flog (Qnat (N c) / Qnat (df c t)))).
Proof.
  intros [HN Hd]. unfold standard_idf. cbv zeta.
  destruct (Nat.eqb_spec (df c t) 0) as [|Ed]; [done|].
  pose proof (Qnat_le 1 (df c t) ltac:(lia)) as H1.
  change (Qnat 1) with 1%Q in H1.
  destruct (Nat.eqb_spec (N c) 0) as [En|En].
  - rewrite En. apply log_div_error; [done| |done].
    pose proof float_limit_big. rewrite Qnat_abs. change (Qnat 0) with 0%Q.
    lra.
  - pose proof (Qnat_le 1 (N c) ltac:(lia)) as H2.
    change (Qnat 1) with 1%Q in H2.
    apply log_div_ok; unfold half; lra.
Qed.

Lemma smooth_idf_cases c t :
  in_float_range c t →
  smooth_idf c t
  = if N c =? 0 then inl ValueError
    else inr (PyFloat (flog (Qnat (N c) / Qnat (df c t + 1)))).
Proof.
  intros [HN Hd]. unfold smooth_idf. cbv zeta.
  pose proof (Qnat_succ (df c t)) as Hs. pose proof (Qnat_nonneg (df c t)).
  destruct (Nat.eqb_spec (N c) 0) as [En|En].
  - rewrite En. apply log_div_error; [done| |lra].
    pose proof float_limit_big. rewrite Qnat_abs. change (Qnat 0) with 0%Q.
    lra.
  - pose proof (Qnat_le 1 (N c) ltac:(lia)) as H2.
    change (Qnat 1) with 1%Q in H2.
    apply log_div_ok; unfold half; lra.
Qed.

Lemma probabilistic_idf_cases c t :
  in_float_range c t →
  probabilistic_idf c t
  = if (df c t =? 0) || (df c t =? N c) then inr (PyInt 0)
    else if N c <? df c t then inl ValueError
    else inr (PyFloat (flog ((Qnat (N c) - Qnat (df c t))
                             / Qnat (df c t)))).
Proof.
  intros [HN Hd]. unfold probabilistic_idf. cbv zeta.
  destruct (Nat.eqb_spec (df c t) 0) as [|Ed]; [done|].
  destruct (Nat.eqb_spec (df c t) (N c)) as [|En]; [done|]. cbn [orb].
  pose proof (Qnat_le 1 (df c t) ltac:(lia)) as H1.
  change (Qnat 1) with 1%Q in H1.
  pose proof (Qnat_nonneg (N c)). pose proof (Qnat_nonneg (df c t)).
  destruct (Nat.ltb_spec (N c) (df c t)) as [El|El].
  - pose proof (Qnat_lt _ _ El).
    apply log_div_error; [lra|by apply Qnat_diff_in_range|done].
  - pose proof (Qnat_lt (df c t) (N c) ltac:(lia)).
    apply log_div_ok; unfold half; lra.
Qed.

Lemma bm25_idf_cases c t :
  in_float_range c t →
  bm25_idf c t
  = if N c <? df c t then inl ValueError
    else inr (PyFloat (flog ((Qnat (N c) - Qnat (df c t) + half)
                             / (Qnat (df c t) + half)))).
Proof.
  intros [HN Hd]. unfold bm25_idf. cbv zeta.
  pose proof (Qnat_nonneg (N c)). pose proof (Qnat_nonneg (df c t)).
  rewrite (float_of_int_ok (Qnat (N c) - Qnat (df c t)))
    by by apply Qnat_diff_in_range.
  rewrite (float_of_int_ok (Qnat (df c t))) by (rewrite Qnat_abs; lra).
  cbn [rbind]. rewrite float_div_ok by (unfold half; lra). cbn [rbind].
  destruct (Nat.ltb_spec (N c) (df c t)) as [El|El].
  - pose proof (Qnat_lt _ _ El). apply math_log_error.
    pose proof (quotient_nonpos (Qnat (N c) - Qnat (df c t) + half)
                  (Qnat (df c t) + half)
                  ltac:(unfold half; lra) ltac:(unfold half; lra)).
    pose proof float_tiny_pos. lra.
  - pose proof (Qnat_le _ _ El). apply math_log_ok.
    apply quotient_above_tiny; unfold half; lra.
Qed.

Lemma idf_standard_fallback c m t :
  m ≠ "smooth" → m ≠ "probabilistic" → m ≠ "bm25" →
  idf c m t = standard_idf c t.
Proof.
  intros H1%String.eqb_neq H2%String.eqb_neq H3%String.eqb_neq.
  unfold idf. rewrite H1, H2, H3. by destruct (String.eqb m "standard").
Qed.

Lemma idf_ok c m t :
  (Qnat (N c) < float_limit)%Q →
  1 ≤ df c t ≤ N c → ∃ w, idf c m t = inr w.
Proof.
  intros HN [Hd Hn].
  assert (Hr : in_float_range c t).
  { split; [done|]. pose proof (Qnat_le _ _ Hn). lra. }
  unfold idf.
  rewrite standard_idf_cases, smooth_idf_cases, probabilistic_idf_cases,
    bm25_idf_cases by done.
  assert ((df c t =? 0) = false) as -> by (apply Nat.eqb_neq; lia).
  assert ((N c =? 0) = false) as -> by (apply Nat.eqb_neq; lia).
  assert ((N c <? df c t) = false) as -> by (apply Nat.ltb_ge; lia).
  cbn [orb]. destruct (df c t =? N c);
    repeat match goal with |- context [if ?b then _ else _] => destruct b end;
    by eexists.
Qed.

(** *** The scoring loop *)

Lemma accumulate_ext e m1 m2 terms :
  (∀ t, idf (idf_calc e) m1 t = idf (idf_calc e) m2 t) →
  ∀ a, accumulate e m1 terms a = accumulate e m2 terms a.
Proof.
  intros Hi. induction terms as [|t terms IH]; intros a; simpl; [done|].
  destruct (get t (index (engine_indexer e))); [|apply IH].
  rewrite Hi. destruct (idf (idf_calc e) m2 t); simpl; [done|apply IH].
Qed.

Lemma bump_keys w p : ∀ a d,
  d ∈ keys (scores (fold_left (bump w) p a)) →
  d ∈ keys (scores a) ∨ d ∈ keys p.
Proof.
  induction p as [|[d0 tf0] p IH]; intros a d; simpl; [by left|].
  intros [Hd|Hd]%IH; [|right; by right]. simpl in Hd.
  apply elem_of_keys_set in Hd as [->|Hd]; [right; by left|by left].
Qed.

Lemma bump_wf w p : ∀ a,
  wf (scores a) → wf (scores (fold_left (bump w) p a)).
Proof.
  induction p as [|[d0 tf0] p IH]; intros a Hw; simpl; [done|].
  apply IH. simpl. by apply wf_set.
Qed.

Lemma accumulate_keys e m terms : ∀ a a' d,
  accumulate e m terms a = inr a' →
  d ∈ keys (scores a') →
  d ∈ keys (scores a) ∨
  ∃ t p, get t (index (engine_indexer e)) = Some p ∧ d ∈ keys p.
Proof.
  induction terms as [|t terms IH]; intros a a' d; simpl.
  - intros [= <-]. by left.
  - destruct (get t (index (engine_indexer e))) as [p|] eqn:Et;
      [|apply IH].
    destruct (idf (idf_calc e) m t) as [err|w]; simpl; [done|].
    intros Ha Hd. destruct (IH _ _ _ Ha Hd) as [Hk|Hk]; [|by right].
    apply bump_keys in Hk as [Hk|Hk]; [by left|]. right. by exists t, p.
Qed.

Lemma accumulate_wf e m terms : ∀ a a',
  accumulate e m terms a = inr a' → wf (scores a) → wf (scores a').
Proof.
  induction terms as [|t terms IH]; intros a a'; simpl.
  - by intros [= <-].
  - destruct (get t (index (engine_indexer e))) as [p|]; [|apply IH].
    destruct (idf (idf_calc e) m t) as [err|w]; simpl; [done|].
    intros Ha Hw. apply (IH _ _ Ha). by apply bump_wf.
Qed.

Lemma accumulate_ok ix m terms :
  (Qnat (doc_count ix) < float_limit)%Q →
  (∀ t p, get t (index ix) = Some p → 1 ≤ length p ≤ doc_count ix) →
  ∀ a, ∃ a', accumulate (new_engine ix) m terms a = inr a'.
Proof.
  intros HN Hb. induction terms as [|t terms IH]; intros a; simpl.
  - by exists a.
  - destruct (get t (index ix)) as [p|] eqn:Et; [|apply IH].
    destruct (idf_ok {| calc_index := index ix; N := doc_count ix |} m t)
      as [w ->].
    + done.
    + unfold df, get_default. simpl. rewrite Et. apply (Hb t p Et).
    + simpl. apply IH.
Qed.

(** *** Ranking *)

Lemma insert_desc_perm x l : insert_desc x l ≡ₚ x :: l.
Proof.
  induction l as [|y l IH]; simpl; [done|].
  destruct (fltb x.2 y.2); [|done]. rewrite IH. apply perm_swap.
Qed.

Lemma sorted_desc_perm l : sorted_desc l ≡ₚ l.
Proof.
  induction l as [|x l IH]; simpl; [done|].
  by rewrite insert_desc_perm, IH.
Qed.

Lemma length_slice_to {A} k (l : list A) :
  (0 ≤ k)%Z → length (slice_to k l) ≤ Z.to_nat k.
Proof.
  intros Hk. unfold slice_to.
  assert ((k <? 0)%Z = false) as -> by (apply Z.ltb_ge; lia).
  rewrite length_take. lia.
Qed.

Lemma slice_to_take {A} k (l : list A) : ∃ n, slice_to k l = take n l.
Proof. unfold slice_to. destruct (k <? 0)%Z; by eexists. Qed.

Lemma keys_filter_sublist {V} (P : string * V → bool) (d : dict V) :
  keys (List.filter P d) `sublist_of` keys d.
Proof.
  induction d as [|x d IH]; simpl; [done|].
  destruct (P x); simpl; [by apply sublist_skip|by apply sublist_cons].
Qed.

Lemma keys_take_sublist {V} n (d : dict V) :
  keys (take n d) `sublist_of` keys d.
Proof.
  revert n. induction d as [|x d IH]; intros [|n]; simpl;
    try done; [apply sublist_nil_l|by apply sublist_skip].
Qed.

Lemma ranked_wf e terms a k : wf (scores a) → wf (ranked e terms a k).
Proof.
  intros Hw. unfold ranked.
  destruct (slice_to_take k (sorted_desc
              (filtered_scores a (num_query_terms e terms)))) as [n ->].
  eapply sublist_NoDup; [|apply keys_take_sublist].
  unfold keys. rewrite (Permutation_map fst (sorted_desc_perm _)).
  eapply sublist_NoDup; [exact Hw|apply keys_filter_sublist].
Qed.

Lemma elem_of_ranked e terms a k x :
  x ∈ ranked e terms a k → x ∈ scores a.
Proof.
  unfold ranked. intros Hx%elem_of_slice_to.
  rewrite elem_of_sorted_desc in Hx. unfold filtered_scores in Hx.
  by apply list_elem_of_In, filter_In in Hx as [Hx%list_elem_of_In _].
Qed.







(** *** Result records *)

Lemma make_hits_Forall2 ix : ∀ r hits,
  make_hits ix r = inr hits →
  Forall2 (λ h x, setid h = x.1 ∧ score h = x.2 ∧
                  ∃ drug, get x.1 (drugs ix) = Some drug ∧
                          get "drug_name" drug = Some (drug_name h) ∧
                          get "active_ingredients" drug
                          = Some (active_ingredients h))
          hits r.
Proof.
  induction r as [|x r IH]; intros hits; simpl.
  - intros [= <-]. constructor.
  - unfold make_hit, field.
    destruct (get x.1 (drugs ix)) as [drug|] eqn:Ed; simpl; [|done].
    destruct (get "drug_name" drug) eqn:E1; simpl; [|done].
    destruct (get "indications_and_usage" drug) eqn:E2; simpl; [|done].
    destruct (get "active_ingredients" drug) eqn:E3; simpl; [|done].
    destruct (make_hits ix r) as [|hs]; simpl; [done|].
    intros [= <-]. constructor; [|by apply IH]. simpl.
    split; [done|]. split; [done|]. by exists drug.
Qed.

Definition displayable (drug : dict string) : Prop :=
  mem "drug_name" drug = true ∧
  mem "indications_and_usage" drug = true ∧
  mem "active_ingredients" drug = true.

Lemma make_hits_ok ix r :
  (∀ x, x ∈ r → ∃ drug, get x.1 (drugs ix) = Some drug ∧ displayable drug) →
  ∃ hits, make_hits ix r = inr hits.
Proof.
  induction r as [|x r IH]; intros Hr; simpl; [by eexists|].
  destruct (Hr x) as (drug & Ed & H1 & H2 & H3); [by left|].
  destruct IH as [hs Ehs]; [intros y Hy; apply Hr; by right|].
  unfold make_hit, field, mem in *. rewrite Ed.
  destruct (get "drug_name" drug); [|done].
  destruct (get "indications_and_usage" drug); [|done].
  destruct (get "active_ingredients" drug); [|done].
  simpl. rewrite Ehs. simpl. by eexists.
Qed.

Lemma make_hits_elem ix : ∀ r hits h,
  make_hits ix r = inr hits → h ∈ hits → (setid h, score h) ∈ r.
Proof.
  intros r hits h Hm%make_hits_Forall2. induction Hm as [|h0 x hs r Hx _ IH].
  - by intros ?%elem_of_nil.
  - intros [->|Hin]%elem_of_cons; [|right; by apply IH].
    destruct Hx as (E1 & E2 & _). rewrite E1, E2. destruct x. by left.
Qed.


(** *** The score of one document *)

(** What the scoring loop does to the score of document [d] when it
    passes over the posting list [p] of a term of weight [w]. *)
Definition doc_bump (w : num) (d : string) (p : dict nat) (s : float)
  : float :=
  match get d p with
  | Some tf => to_float (add (PyFloat s) (mul (PyInt (Z.of_nat tf)) w))
  | None => s
  end.

(** The score of [d] alone: the loop over the query terms restricted to
    the postings of [d]. *)
Fixpoint doc_score (e : DrugSearchEngine) (idf_method : string)
    (query_terms : list string) (d : string) (s : float) : result float :=
  match query_terms with
  | [] => inr s
  | term :: rest =>
      match get term (index (engine_indexer e)) with
      | None => doc_score e idf_method rest d s
      | Some postings =>
          w ←ᵣ idf (idf_calc e) idf_method term;
          doc_score e idf_method rest d (doc_bump w d postings s)
      end
  end.

Lemma bump_scores w p : ∀ a d,
  wf p →
  get_default d float_zero (scores (fold_left (bump w) p a))
  = doc_bump w d p (get_default d float_zero (scores a)).
Proof.
  induction p as [|[d0 tf0] p IH]; intros a d Hw; [done|].
  unfold wf in Hw. simpl in Hw. apply NoDup_cons in Hw as [Hd0 Hw].
  cbn [fold_left]. rewrite IH by done. unfold doc_bump. cbn [get bump scores].
  destruct (String.eqb d d0) eqn:E.
  - apply String.eqb_eq in E as ->.
    apply get_None_keys in Hd0. rewrite Hd0.
    by rewrite get_default_set_eq.
  - apply String.eqb_neq in E. by rewrite get_default_set_ne.
Qed.

Lemma accumulate_scores e m terms : ∀ a a' d,
  wf2 (index (engine_indexer e)) →
  accumulate e m terms a = inr a' →
  doc_score e m terms d (get_default d float_zero (scores a))
  = inr (get_default d float_zero (scores a')).
Proof.
  induction terms as [|t terms IH]; intros a a' d Hw; simpl.
  - by intros [= <-].
  - destruct (get t (index (engine_indexer e))) as [p|] eqn:Et;
      [|by apply IH].
    destruct (idf (idf_calc e) m t) as [err|w]; simpl; [done|].
    intros Ha. rewrite <- (IH _ _ d Hw Ha). f_equal.
    symmetry. apply bump_scores.
    destruct Hw as [_ Hw]. rewrite Forall_forall in Hw.
    apply get_Some_elem in Et. apply (Hw _ Et).
Qed.

Lemma wf_elem_get {V} k (v : V) (d : dict V) :
  wf d → (k, v) ∈ d → get k d = Some v.
Proof.
  induction d as [|[k' v'] d IH]; intros Hw Hin; [by apply elem_of_nil in Hin|].
  unfold wf in Hw. simpl in Hw. apply NoDup_cons in Hw as [Hk Hw]. simpl.
  apply elem_of_cons in Hin as [[= <- <-]|Hin].
  - by rewrite String.eqb_refl.
  - destruct (String.eqb k k') eqn:E; [|by apply IH].
    apply String.eqb_eq in E as <-. destruct Hk.
    apply list_elem_of_In, in_map_iff. exists (k, v).
    split; [done|by apply list_elem_of_In].
Qed.

End WithFloats.


End SearchProps.

Module StatsProps.
Import PyDict Indexer Statistics.

Definition count_ge (a b : string * nat) : Prop := b.2 ≤ a.2.

Lemma elem_of_insert_by_count z x l :
  z ∈ insert_by_count x l ↔ z = x ∨ z ∈ l.
Proof.
  induction l as [|y l IH]; simpl.
  - rewrite list_elem_of_singleton, elem_of_nil. tauto.
  - destruct (x.2 <? y.2); rewrite !elem_of_cons, ?IH; tauto.
Qed.

Lemma insert_by_count_perm x l : insert_by_count x l ≡ₚ x :: l.
Proof.
  induction l as [|y l IH]; simpl; [done|].
  destruct (x.2 <? y.2); [|done]. rewrite IH. apply perm_swap.
Qed.

Lemma sorted_by_count_perm l : sorted_by_count l ≡ₚ l.
Proof.
  induction l as [|x l IH]; simpl; [done|].
  by rewrite insert_by_count_perm, IH.
Qed.

Lemma insert_by_count_sorted x l :
  StronglySorted count_ge l → StronglySorted count_ge (insert_by_count x l).
Proof.
  induction 1 as [|y l Hs IH Hy]; simpl.
  - constructor; constructor.
  - rewrite Forall_forall in Hy. destruct (x.2 <? y.2) eqn:E.
    + apply Nat.ltb_lt in E. constructor; [done|]. apply Forall_forall.
      intros z [->|Hz]%elem_of_insert_by_count; [unfold count_ge; lia|].
      by apply Hy.
    + apply Nat.ltb_ge in E. constructor; [by constructor; [|apply Forall_forall]|].
      constructor; [done|]. apply Forall_forall. intros z Hz.
      specialize (Hy z Hz). unfold count_ge in *. lia.
Qed.

Lemma sorted_by_count_sorted l : StronglySorted count_ge (sorted_by_count l).
Proof.
  induction l as [|x l IH]; simpl; [constructor|].
  by apply insert_by_count_sorted.
Qed.

Lemma StronglySorted_app_inv {A} (R : A → A → Prop) l1 l2 :
  StronglySorted R (l1 ++ l2) →
  StronglySorted R l1 ∧ ∀ x y, x ∈ l1 → y ∈ l2 → R x y.
Proof.
  induction l1 as [|a l1 IH]; simpl; intros Hs.
  - split; [constructor|]. by intros x y ?%elem_of_nil.
  - apply StronglySorted_inv in Hs as [Hs Ha].
    destruct (IH Hs) as [Hs1 H12]. rewrite Forall_forall in Ha. split.
    + constructor; [done|]. apply Forall_forall. intros z Hz. apply Ha.
      apply elem_of_app. by left.
    + intros x y [->|Hx]%elem_of_cons Hy; [|by apply H12].
      apply Ha. apply elem_of_app. by right.
Qed.

End StatsProps.

Module FileProps.
Import Regex RegexFacts FileNames TokenProps.

Lemma sub_cls_scan f r : ∀ s prev,
  flat_map (λ p, match p with Hit _ => [r] | Gap c => [c] end)
           (scan (Cls f) prev s 0)
  = map (λ c, if f c then r else c) s.
Proof.
  induction s as [|c s IH]; intros prev; [done|].
  cbn [scan map]. unfold match_at. rewrite ends_cls_cons.
  destruct (f c); cbn [head].
  - cbn [snd]. assert (length (c :: s) - length s = 1) as ->
      by (cbn [length]; lia).
    cbn [Nat.eqb Nat.pred flat_map app]. by rewrite IH.
  - cbn [flat_map app]. by rewrite IH.
Qed.

Lemma sub_cls f r s :
  sub (Cls f) [r] s = map (λ c, if f c then r else c) s.
Proof. apply sub_cls_scan. Qed.

Lemma safe_underscore : safe_char "_" = true.
Proof. done. Qed.

Lemma sub_unsafe_safe s :
  forallb safe_char (sub unsafe_pattern ["_"%char] s) = true.
Proof.
  unfold unsafe_pattern. rewrite sub_cls. apply forallb_forall.
  intros c (x & <- & _)%in_map_iff. by destruct (safe_char x) eqn:E.
Qed.

Lemma sub_unsafe_length s :
  length (sub unsafe_pattern ["_"%char] s) = length s.
Proof. unfold unsafe_pattern. by rewrite sub_cls, length_map. Qed.

Lemma sub_unsafe_id s :
  forallb safe_char s = true → sub unsafe_pattern ["_"%char] s = s.
Proof.
  unfold unsafe_pattern. rewrite sub_cls. intros Hs.
  induction s as [|c s IH]; [done|]. simpl in Hs.
  apply andb_true_iff in Hs as [Hc Hs]. simpl. by rewrite Hc, IH.
Qed.

Lemma forallb_take {A} (f : A → bool) n l :
  forallb f l = true → forallb f (take n l) = true.
Proof.
  rewrite !forallb_forall. intros Hl x Hx%list_elem_of_In. apply Hl.
  apply list_elem_of_In. by apply (subseteq_take n l).
Qed.

Lemma lstrip_id c s :
  head s ≠ Some c → lstrip c s = s.
Proof.
  destruct s as [|x s]; [done|]. simpl. intros Hx.
  destruct (Ascii.eqb_spec x c) as [->|]; [done|done].
Qed.

Lemma strip_id c s :
  head s ≠ Some c → last s ≠ Some c → strip c s = s.
Proof.
  intros Hh Hl. unfold strip. rewrite (lstrip_id c s Hh).
  rewrite lstrip_id; [apply reverse_involutive|].
  by rewrite head_reverse.
Qed.

End FileProps.

Module ParserProps.
Import Regex RegexFacts TokenizerFacts TokenProps Parser.

(** *** Splitting at a separator *)

Definition no_sep (sep : ascii) (s : list ascii) : Prop :=
  Forall (λ c, c ≠ sep) s.

Lemma split_on_nonempty sep s : split_on sep s ≠ [].
Proof.
  induction s as [|c s IH]; simpl; [done|].
  destruct (Ascii.eqb c sep); [done|]. by destruct (split_on sep s).
Qed.

Lemma split_on_app sep a b :
  split_on sep (a ++ sep :: b) = split_on sep a ++ split_on sep b.
Proof.
  induction a as [|c a IH]; simpl.
  - by rewrite Ascii.eqb_refl.
  - destruct (Ascii.eqb c sep); [by rewrite IH|]. rewrite IH.
    pose proof (split_on_nonempty sep a).
    by destruct (split_on sep a).
Qed.

Lemma split_on_no_sep sep s : no_sep sep s → split_on sep s = [s].
Proof.
  induction 1 as [|c s Hc _ IH]; simpl; [done|].
  apply Ascii.eqb_neq in Hc. by rewrite Hc, IH.
Qed.

Lemma split_on_head sep a b :
  no_sep sep a →
  ∃ r segs, split_on sep b = r :: segs ∧
            split_on sep (a ++ b) = (a ++ r) :: segs.
Proof.
  induction 1 as [|c a Hc _ (r & segs & Eb & Eab)]; simpl.
  - pose proof (split_on_nonempty sep b).
    destruct (split_on sep b) as [|r segs]; [done|]. by exists r, segs.
  - exists r, segs. split; [done|].
    apply Ascii.eqb_neq in Hc. by rewrite Hc, Eab.
Qed.

Lemma index_of_app x l1 l2 :
  x ∉ l1 → index_of x (l1 ++ x :: l2) = length l1.
Proof.
  induction l1 as [|y l1 IH]; simpl; intros Hx.
  - by rewrite bool_decide_eq_true_2.
  - apply not_elem_of_cons in Hx as [Hxy Hx].
    by rewrite bool_decide_eq_false_2, IH.
Qed.

Lemma list_ascii_of_string_app (a b : string) :
  list_ascii_of_string (a ++ b)
  = list_ascii_of_string a ++ list_ascii_of_string b.
Proof. induction a as [|c a IH]; simpl; [done|]. by rewrite IH. Qed.

(** The components of a file name that holds [_setid_] after a prefix
    without a component [setid]. *)
Lemma components_with_setid pre rest :
  split_on "_" (pre ++ list_ascii_of_string "_setid_" ++ rest)
  = split_on "_" pre ++ list_ascii_of_string "setid" :: split_on "_" rest.
Proof.
  change (list_ascii_of_string "_setid_" ++ rest)
    with ("_"%char :: list_ascii_of_string "setid" ++ "_"%char :: rest).
  rewrite split_on_app, split_on_app. done.
Qed.

(** *** Literals and patterns of fixed width *)

Lemma den_Lit_elim s : ∀ p p',
  den (Lit s) p p' → moves (list_ascii_of_string s) p p'.
Proof.
  unfold Lit. induction (list_ascii_of_string s) as [|c l IH];
    intros p p'; cbn [foldr].
  - intros ->. apply moves_nil.
  - intros (q & (c0 & s0 & E & Hc & ->) & D).
    apply Ascii.eqb_eq in Hc as <-. apply IH in D.
    apply (moves_app [c] l _ (Some c, s0)); [by split|done].
Qed.

Fixpoint width (r : re) : option nat :=
  match r with
  | Eps | Bnd | Eos => Some 0
  | Cls _ => Some 1
  | Seq r1 r2 => n1 ← width r1; n2 ← width r2; Some (n1 + n2)
  | Alt r1 r2 =>
      n1 ← width r1; n2 ← width r2;
      if n1 =? n2 then Some n1 else None
  | Star _ => None
  end.

Lemma den_width r : ∀ n p p',
  width r = Some n → den r p p' → length p.2 = n + length p'.2.
Proof.
  induction r as [|f|r1 IH1 r2 IH2|r1 IH1 r2 IH2|r1 _| |];
    intros n p p'; simpl.
  - by intros [= <-] ->.
  - intros [= <-] (c & s & E & _ & ->). by rewrite E.
  - destruct (width r1) as [n1|]; [|done]. simpl.
    destruct (width r2) as [n2|]; [|done]. simpl.
    intros [= <-] (q & D1 & D2).
    rewrite (IH1 n1 _ _ eq_refl D1), (IH2 n2 _ _ eq_refl D2). lia.
  - destruct (width r1) as [n1|]; [|done]. simpl.
    destruct (width r2) as [n2|]; [|done]. simpl.
    destruct (n1 =? n2) eqn:E; [|done]. apply Nat.eqb_eq in E as <-.
    intros [= <-] [D|D]; [by apply (IH1 n1)|by apply (IH2 n1)].
  - done.
  - by intros [= <-] [_ ->].
  - by intros [= <-] [_ ->].
Qed.

Definition uuid_char (c : ascii) : bool := is_hex c || Ascii.eqb c "-".

Definition uuid_pattern : re :=
  Cat [ hex 8; Chr "-"; hex 4; Chr "-"; hex 4; Chr "-"; hex 4; Chr "-";
        hex 12 ].

Lemma setid_pattern_eq : setid_pattern = Seq (Lit "setid=") uuid_pattern.
Proof. done. Qed.

Lemma uuid_width : width uuid_pattern = Some 36.
Proof. vm_compute. reflexivity. Qed.

Lemma uuid_chars : cls_all uuid_char uuid_pattern = true.
Proof. vm_compute. reflexivity. Qed.

Lemma setid_match p p' m :
  den setid_pattern p p' → moves m p p' →
  ∃ u, m = list_ascii_of_string "setid=" ++ u ∧ length u = 36 ∧
       forallb uuid_char u = true.
Proof.
  rewrite setid_pattern_eq. intros (q & D1%den_Lit_elim & D2) M.
  destruct (den_chars _ _ uuid_chars _ _ D2) as (u & Mu & Fu).
  pose proof (den_width _ _ _ _ uuid_width D2) as Hw.
  pose proof (moves_length _ _ _ Mu) as Hl.
  exists u. split; [|split; [lia|done]].
  apply (moves_inj _ _ p p'); [done|]. by apply (moves_app _ _ _ q).
Qed.

(** *** The file-name branch of [get_setid] *)

Lemma get_setid_file_name html filename (pre id rest : list ascii) :
  list_ascii_of_string filename
  = pre ++ list_ascii_of_string "_setid_" ++ id ++ "."%char :: rest →
  list_ascii_of_string "setid" ∉ split_on "_" pre →
  no_sep "_" id → no_sep "." id →
  get_setid html filename = inr (Some (string_of_list_ascii id)).
Proof.
  intros Ef Hpre H1 H2. unfold get_setid. cbv zeta.
  rewrite Ef, components_with_setid.
  rewrite bool_decide_eq_true_2
    by (apply elem_of_app; right; by left).
  rewrite index_of_app by done.
  rewrite lookup_app_r by lia.
  replace (length (split_on "_" pre) + 1 - length (split_on "_" pre))
    with 1 by lia.
  cbn [lookup list_lookup].
  destruct (split_on_head "_" (id ++ ["."%char]) rest)
    as (r & segs & _ & E).
  { apply Forall_app. split; [done|]. by repeat constructor. }
  rewrite <- app_assoc in E. change (["."%char] ++ rest)
    with ("."%char :: rest) in E. rewrite E. cbn [lookup list_lookup].
  rewrite <- app_assoc. change (["."%char] ++ r) with ("."%char :: r).
  by rewrite split_on_app, (split_on_no_sep "." _ H2).
Qed.

End ParserProps.

Module CrossProps.
Import Regex RegexFacts TokenizerFacts TokenProps FileNames FileProps.
Import Parser ParserProps.

Lemma lstrip_app_ne c a x b :
  x ≠ c → lstrip c (a ++ x :: b) = lstrip c a ++ x :: b.
Proof.
  intros Hx. induction a as [|y a IH]; simpl.
  - apply Ascii.eqb_neq in Hx. by rewrite Hx.
  - by destruct (Ascii.eqb y c).
Qed.

Lemma strip_tail_safe c a b :
  b ≠ [] → Forall (λ x, x ≠ c) b → strip c (a ++ b) = lstrip c a ++ b.
Proof.
  intros Hb Hall. unfold strip. destruct b as [|x b]; [done|].
  apply Forall_cons in Hall as Hx. destruct Hx as [Hx _].
  rewrite lstrip_app_ne by done.
  rewrite lstrip_id; [apply reverse_involutive|].
  rewrite head_reverse, last_app.
  destruct (last (x :: b)) as [y|] eqn:E; [|by apply last_None in E].
  intros [= ->]. apply last_Some_elem_of in E.
  rewrite Forall_forall in Hall. by apply (Hall c).
Qed.

Lemma uuid_is_plain :
  ascii_forall (λ c, implb (uuid_char c)
                       (safe_char c && negb (Ascii.eqb c "_")
                        && negb (Ascii.eqb c "."))) = true.
Proof. vm_compute. reflexivity. Qed.

Lemma uuid_chars_plain id :
  forallb uuid_char id = true →
  forallb safe_char id = true ∧ no_sep "_" id ∧ no_sep "." id.
Proof.
  induction id as [|c id IH]; simpl.
  - intros _. split; [done|]. split; constructor.
  - intros [Hc Hid]%andb_true_iff. destruct (IH Hid) as (H1 & H2 & H3).
    pose proof (ascii_forall_spec _ uuid_is_plain c) as Hi. simpl in Hi.
    rewrite Hc in Hi. simpl in Hi.
    apply andb_true_iff in Hi as [[Hs Hu]%andb_true_iff Hd].
    apply negb_true_iff, Ascii.eqb_neq in Hu, Hd.
    rewrite Hs, H1. split; [done|]. split; by constructor.
Qed.

Lemma or_index_nonempty (s : list ascii) :
  s ≠ [] →
  match s with [] => list_ascii_of_string "index" | _ :: _ => s end = s.
Proof. by destruct s. Qed.

(** The name of the file that the crawler writes for a URL whose query
    is [setid=id]. *)
Lemma safe_name_setid (path id : string) :
  forallb uuid_char (list_ascii_of_string id) = true →
  length (sub unsafe_pattern ["_"%char]
              (lstrip "/" (list_ascii_of_string path)))
  + 7 + String.length id ≤ 200 →
  list_ascii_of_string (html_file_name (path ++ "?setid=" ++ id))
  = sub unsafe_pattern ["_"%char] (lstrip "/" (list_ascii_of_string path))
    ++ list_ascii_of_string "_setid_" ++ list_ascii_of_string id
    ++ "."%char :: list_ascii_of_string "html".
Proof.
  intros Hid Hlen. destruct (uuid_chars_plain _ Hid) as (Hs & _ & _).
  unfold html_file_name, safe_name. cbv zeta.
  rewrite !list_ascii_of_string_app.
  rewrite strip_tail_safe; [|by destruct (list_ascii_of_string id)|].
  - unfold unsafe_pattern in *. rewrite !sub_cls in *. rewrite !map_app.
    assert (map (λ c, if negb (safe_char c) then "_"%char else c)
                (list_ascii_of_string id) = list_ascii_of_string id) as ->.
    { rewrite <- sub_cls. by apply sub_unsafe_id. }
    change (map (λ c, if negb (safe_char c) then "_"%char else c)
                (list_ascii_of_string "?setid="))
      with (list_ascii_of_string "_setid_").
    rewrite or_index_nonempty
      by (intros E; apply (f_equal length) in E;
          rewrite !length_app in E; simpl in E; lia).
    rewrite take_ge.
    + rewrite list_ascii_of_string_of_list_ascii.
      by rewrite <- !app_assoc.
    + rewrite !length_app.
      change (length (list_ascii_of_string "_setid_")) with 7.
      rewrite <- (string_of_list_ascii_of_string id) in Hlen at 1.
      rewrite length_string_of_list_ascii in Hlen. lia.
  - apply Forall_app. split; [by repeat constructor|].
    apply Forall_forall. intros c Hc%list_elem_of_In.
    rewrite forallb_forall in Hs. specialize (Hs c Hc).
    intros ->. discriminate Hs.
Qed.

End CrossProps.

Module AppProps.
Import LuceneApp.

Section Results.
Context {S : Type}.
Implicit Types (hits : list (S * stored_doc)) (results : list (result_row S)).

Definition names results : list (option string) :=
  map row_drug_name results.

Lemma names_app r1 r2 : names (r1 ++ r2) = names r1 ++ names r2.
Proof. apply map_app. Qed.

Lemma collect_spec top_k hits : ∀ seen results,
  (∀ n, n ∈ seen ↔ n ∈ names results) →
  NoDup (names results) →
  (Z.of_nat (length results) < Z.max top_k 1)%Z →
  NoDup (names (collect top_k hits seen results)) ∧
  (∃ ext, collect top_k hits seen results = results ++ ext ∧
          ext `sublist_of` map make_row hits) ∧
  (Z.of_nat (length (collect top_k hits seen results))
   ≤ Z.max top_k 1)%Z ∧
  ((Z.of_nat (length (collect top_k hits seen results)) < top_k)%Z →
   ∀ h, h ∈ hits →
        doc_drug_name h.2 ∈ names (collect top_k hits seen results)).
Proof.
  induction hits as [|hit hits IH]; intros seen results Hseen Hnd Hlen.
  - simpl. split; [done|]. split; [exists []; by rewrite app_nil_r|].
    split; [lia|]. by intros _ h ?%elem_of_nil.
  - cbn [collect]. case_bool_decide as Hnew.
    + assert (Hnd' : NoDup (names (results ++ [make_row hit]))).
      { rewrite names_app. apply NoDup_app. split; [done|].
        split; [|apply NoDup_singleton].
        intros n Hn ->%list_elem_of_singleton. apply Hnew.
        by apply Hseen. }
      destruct (top_k <=? Z.of_nat (length (results ++ [make_row hit])))%Z
        eqn:Ek.
      * apply Z.leb_le in Ek. rewrite length_app in *. simpl in *.
        split; [done|]. split.
        { exists [make_row hit]. split; [done|].
          apply sublist_skip, sublist_nil_l. }
        split; [lia|]. intros Hlt. lia.
      * apply Z.leb_gt in Ek.
        destruct (IH ({[doc_drug_name hit.2]} ∪ seen)
                     (results ++ [make_row hit])) as (H1 & H2 & H3 & H4).
        { intros n. rewrite names_app, elem_of_union, elem_of_app,
            elem_of_singleton, Hseen. simpl.
          rewrite list_elem_of_singleton. tauto. }
        { done. }
        { lia. }
        split; [done|]. split.
        { destruct H2 as (ext & -> & Hsub). exists (make_row hit :: ext).
          split; [by rewrite <- app_assoc|]. by apply sublist_skip. }
        split; [done|]. intros Hlt h [->|Hh]%elem_of_cons; [|by apply H4].
        destruct H2 as (ext & -> & _). rewrite !names_app.
        apply elem_of_app. left. apply elem_of_app. right. by left.
    + destruct (IH seen results Hseen Hnd Hlen) as (H1 & H2 & H3 & H4).
      split; [done|]. split.
      { destruct H2 as (ext & -> & Hsub). exists ext.
        split; [done|]. by apply sublist_cons. }
      split; [done|]. intros Hlt h [->|Hh]%elem_of_cons; [|by apply H4].
      destruct H2 as (ext & -> & _). rewrite names_app.
      apply elem_of_app. left. by apply Hseen.
Qed.

Lemma search_results_small top_k hits :
  (top_k ≤ 1)%Z → search_results top_k hits = take 1 (map make_row hits).
Proof.
  intros Hk. unfold search_results. destruct hits as [|hit hits]; [done|].
  cbn [collect]. rewrite bool_decide_eq_true_2 by set_solver.
  cbn [app length]. change (Z.of_nat 1) with 1%Z.
  assert ((top_k <=? 1)%Z = true) as -> by by apply Z.leb_le.
  cbn [map]. by rewrite firstn_cons, take_0.
Qed.

End Results.
End AppProps.

(** * The claims of the specification *)

Import Regex RegexFacts TokenizerFacts.
Import PyDict PyDictFacts Indexer IndexFacts Search SearchFacts.
Import IndexProps SearchProps.
Import Crawler CrawlerFacts CrawlProps.
Import StoreProps.

(** ** C1 *)

(** C1.  For a URL that is already in the visited set, [fetch] returns
    [None] and hands back the crawler exactly as it received it: the
    trace gains no [Sleep], no [Get] and no [Log] event (no politeness
    delay, no request, no audit row), and the visited set and the page
    counter are the ones it started with. *)
Theorem fetch_visited_is_noop (w : web) (c : crawler) (url : string) :
  url ∈ visited c →
  fetch w c url = (None, c) ∧
  trace (fetch w c url).2 = trace c ∧
  metadata (fetch w c url).2 = metadata c ∧
  visited (fetch w c url).2 = visited c ∧
  page_count (fetch w c url).2 = page_count c.
Proof.
  intros Hv.
  assert (E : fetch w c url = (None, c)).
  { unfold fetch. by rewrite bool_decide_eq_true_2. }
  by rewrite E.
Qed.

Lemma fetch_visited_is_noop_witness :
  let c := mark_visited Examples.url_b (new_crawler None) in
  Examples.url_b ∈ visited c ∧
  fetch (Examples.flaky_site true) c Examples.url_b = (None, c).
Proof.
  assert (H : Examples.url_b
              ∈ visited (mark_visited Examples.url_b (new_crawler None))).
  { apply (bool_decide_unpack _). vm_compute. exact I. }
  split; [exact H|].
  exact (proj1 (fetch_visited_is_noop (Examples.flaky_site true) _ _ H)).
Defined.

(** ** C2 *)

(** C2, as the specification states it, fails at the entry of the loop:
    a crawl of a one-page site ends with the snapshot
    [to_visit = [], visited = [start]]; a resume from that snapshot finds
    the pending list empty and seeds the queue with the start URL, which
    is in the restored visited set. *)
Lemma resume_reseeds_visited_start_url :
  ∃ c, crawl Examples.single_page 5 (new_crawler None) None false = Some c ∧
       start_ok (new_crawler (state_file c)) true ∧
       let e := crawl_entry (new_crawler (state_file c)) None true in
       base_url ∈ e.2 ∧ base_url ∈ visited e.1.
Proof.
  eexists. split; [vm_compute; reflexivity|]. split.
  - split; simpl; [apply NoDup_nil_2|]. by intros u ?%elem_of_nil.
  - split.
    + apply (bool_decide_unpack _). vm_compute. exact I.
    + apply (bool_decide_unpack _). vm_compute. exact I.
Qed.

(** C2, amended.  For a crawl that starts from a crawler that has visited
    nothing, or resumes from a stored snapshot that is itself in order,
    the frontier has no URL twice in the queue and no visited URL in the
    queue after every iteration of the loop, and at the entry of the loop
    as well unless the resume found an empty pending list (the start URL
    is then seeded unconditionally).  An iteration appends to the queue
    only URLs that are absent from the visited set and from the queue at
    that moment. *)
Theorem frontier_invariant_after_each_iteration
    (w : web) (c : crawler) (start_url : option string) (resume : bool) :
  start_ok c resume →
  let e := crawl_entry c start_url resume in
  (∀ s1 s, step w e = Some s1 → reaches w s1 s → frontier_ok s) ∧
  (reseeded c resume = false → ∀ s, reaches w e s → frontier_ok s) ∧
  (∀ c0 u q c' q', step w (c0, u :: q) = Some (c', q') →
     ∃ added, q' = q ++ added ∧ NoDup added ∧
              ∀ x, x ∈ added → (x ∉ visited c') ∧ (x ∉ q)).
Proof.
  intros Hs e. split; [|split].
  - intros s1 s H1 Hr. apply (reaches_ok w s1); [|done].
    by apply (first_step_ok w c start_url resume).
  - intros Hre s Hr. apply (reaches_ok w e); [|done]. by apply entry_ok.
  - intros c0 u q c' q'. apply step_appends.
Qed.

Lemma frontier_invariant_after_each_iteration_witness :
  start_ok (new_crawler None) false ∧
  ∃ s1, step (Examples.flaky_site true)
             (crawl_entry (new_crawler None) None false) = Some s1 ∧
        s1.2 = [Examples.url_a; Examples.url_b] ∧ frontier_ok s1.
Proof.
  assert (H : start_ok (new_crawler None) false) by reflexivity.
  split; [exact H|].
  eexists. split; [vm_compute; reflexivity|]. split; [reflexivity|].
  refine (proj1 (frontier_invariant_after_each_iteration
                   (Examples.flaky_site true) _ None false H) _ _ _ _).
  - vm_compute. reflexivity.
  - apply reaches_refl.
Defined.

(** ** C3 *)

(** C3 fails on the code.  On a site whose start page links to [/a] and
    [/b], with [/b] linking to [/c] and [/c] back to [/a], and a server
    that answers [/a] with 503 every time: [/a] runs out of attempts and
    gets its [failed] row; when [/c] is fetched, [/a] is in neither the
    visited set nor the queue, so it is queued again and requested three
    more times.  This holds for both orders in which the links of the
    start page can come out of the set. *)
Lemma failed_url_is_queued_and_fetched_again :
  let run a_first :=
    crawl (Examples.flaky_site a_first) 20 (new_crawler None) None false in
  (∃ c, run true = Some c ∧
        trace c !! 10 = Some (Log (failed_record Examples.url_a (Some 503))) ∧
        trace c !! 20 = Some (Get Examples.url_a) ∧
        metadata c !! 4 = Some (failed_record Examples.url_a (Some 503))) ∧
  (∃ c, run false = Some c ∧
        trace c !! 14 = Some (Log (failed_record Examples.url_a (Some 503))) ∧
        trace c !! 20 = Some (Get Examples.url_a) ∧
        metadata c !! 4 = Some (failed_record Examples.url_a (Some 503))).
Proof.
  split; eexists; (split; [vm_compute; reflexivity|]);
    repeat split; vm_compute; reflexivity.
Qed.

(** C3, amended.  A URL whose fetch runs out of attempts has been
    requested [max_retries] times, each time after a politeness delay,
    and got one [failed] row; it is not added to the visited set, and the
    iteration drops it from the queue and adds nothing to the queue.
    For the rest of the crawl: the URL is visited only once a later
    fetch of it has succeeded; it is in the queue only if it was there
    already or a fetched page has brought it up as an allowed link; and
    as long as no fetch of it has succeeded, an iteration on a page with
    a body that lists it as an allowed link puts it into the queue
    again, and an iteration that finds it at the head of the queue
    requests it again. *)
Theorem exhausted_url_is_dropped_but_not_visited
    (w : web) (c c1 : crawler) (u : string) (q : list string) :
  u ∉ visited c →
  (N.of_nat (size (visited c)) < max_pages)%N →
  fetch w c u = (None, c1) →
  (∃ code, trace c1 = trace c ++ [ Sleep; Get u; Sleep; Get u; Sleep; Get u;
                                   Log (failed_record u code) ]) ∧
  visited c1 = visited c ∧
  step w (c, u :: q) = Some (c1, q) ∧
  (∀ c2 q2,
     reaches w (c1, q) (c2, q2) →
     ∃ t, trace c2 = trace c1 ++ t ∧
          (u ∈ visited c2 ↔ u ∈ success_urls t) ∧
          (u ∈ q2 → u ∈ q ∨ (is_allowed_url u = true ∧ brought_up w u)) ∧
          (u ∉ success_urls t →
           (∀ v q3 html c' c3 q4,
              q2 = v :: q3 → u ∉ q2 →
              fetch w c2 v = (Some html, c') → html ≠ "" →
              u ∈ extract_links w html v → is_allowed_url u = true →
              step w (c2, q2) = Some (c3, q4) →
              u ∈ q4 ∧ u ∉ visited c3) ∧
           (∀ q3 c3 q4,
              q2 = u :: q3 → step w (c2, q2) = Some (c3, q4) →
              ∃ t', trace c3 = trace c2 ++ Sleep :: Get u :: t'))).
Proof.
  intros Hv Hn Ef.
  destruct (fetch_exhausted w c u c1 Hv Ef) as (code & Ht & Hvis & _).
  split; [by exists code|]. split; [done|]. split.
  { unfold step; simpl. apply N.ltb_lt in Hn. by rewrite Hn, Ef. }
  intros c2 q2 Hr.
  destruct (reaches_fetched_once w c1 q (c2, q2) Hr)
    as (t & Et & _ & Hvis2 & _). simpl in Et, Hvis2.
  assert (Hiff : u ∈ visited c2 ↔ u ∈ success_urls t).
  { rewrite Hvis2, Hvis, elem_of_union, elem_of_list_to_set. tauto. }
  exists t. split; [done|]. split; [done|]. split.
  { intros Hq. by apply (reaches_queue_origin w c1 q (c2, q2) Hr). }
  intros Hns. assert (Hv2 : u ∉ visited c2) by (by rewrite Hiff).
  split.
  - intros v q3 html c' c3 q4 -> Hq Ef2 Hh Hl Ha Hs.
    apply (step_brings_up w c2 v q3 c3 q4 html c' u); try done.
    intros ->. apply Hq. by left.
  - intros q3 c3 q4 -> Hs. apply iteration_requests; [done|].
    by apply (step_iteration w c2 u q3 c3 q4).
Qed.

Lemma exhausted_url_is_dropped_but_not_visited_witness :
  let w := Examples.flaky_site true in
  let c := new_crawler None in
  let c1 := (fetch w c Examples.url_a).2 in
  fetch w c Examples.url_a = (None, c1) ∧
  step w (c, [Examples.url_a; Examples.url_b]) = Some (c1, [Examples.url_b]).
Proof.
  assert (Hv : Examples.url_a ∉ visited (new_crawler None)).
  { apply (bool_decide_unpack _). vm_compute. exact I. }
  assert (Hn : (N.of_nat (size (visited (new_crawler None))) < max_pages)%N).
  { vm_compute. reflexivity. }
  assert (Ef : fetch (Examples.flaky_site true) (new_crawler None)
                 Examples.url_a
               = (None, (fetch (Examples.flaky_site true) (new_crawler None)
                           Examples.url_a).2)).
  { vm_compute. reflexivity. }
  split; [exact Ef|].
  exact (proj1 (proj2 (proj2 (exhausted_url_is_dropped_but_not_visited
           (Examples.flaky_site true) _ _ _ [Examples.url_b] Hv Hn Ef)))).
Defined.

(** ** C4 *)

(** C4.  In an index built from the empty one by [add_document] calls
    with pairwise distinct document ids, the recorded length of every
    document added equals the sum, over all terms of the index, of the
    document's posting under the term (0 where it has none), and
    [doc_count] is the number of calls. *)
Theorem index_additivity (docs : list (string * string)) :
  NoDup (map fst docs) →
  let ix := add_documents init docs in
  doc_count ix = length docs ∧
  ∀ d, d ∈ map fst docs →
       get d (doc_lengths ix) = Some (postings_sum (index ix) d).
Proof.
  intros Hnd ix. subst ix.
  destruct (add_documents_additive docs init [] additive_init Hnd)
    as (Hc & Hl & _).
  { intros d _ ?%elem_of_nil. done. }
  rewrite app_nil_r in Hc, Hl. split.
  - rewrite Hc, length_rev. apply length_map.
  - intros d Hd. apply Hl. rewrite list_elem_of_In, <- in_rev.
    by apply list_elem_of_In.
Qed.

Lemma index_additivity_witness :
  let docs := [("A", "pain relief 500 mg"); ("B", "pain")] in
  NoDup (map fst docs) ∧
  doc_count (add_documents init docs) = 2 ∧
  get "A" (doc_lengths (add_documents init docs))
  = Some (postings_sum (index (add_documents init docs)) "A").
Proof.
  assert (H : NoDup (map fst [("A", "pain relief 500 mg"); ("B", "pain")])).
  { apply (bool_decide_unpack _). vm_compute. exact I. }
  split; [exact H|]. split.
  - exact (proj1 (index_additivity _ H)).
  - apply (proj2 (index_additivity _ H)).
    apply (bool_decide_unpack _). vm_compute. exact I.
Defined.

(** ** C7 *)

(** C7 fails on the code: the postings of the earlier text are not
    removed.  After [add_document("d1", "aspirin tablet")] and then
    [add_document("d1", "ibuprofen")] the index still holds
    [index["aspirin"]["d1"] = 1] and [index["tablet"]["d1"] = 1], which
    the new text alone does not give; the length of [d1] is 1 while its
    postings sum to 3, and [doc_count] is 2. *)
Lemma readd_keeps_stale_postings :
  let ix := add_document (add_document init "d1" "aspirin tablet")
                         "d1" "ibuprofen" in
  let fresh := add_document init "d1" "ibuprofen" in
  posting (index ix) "aspirin" "d1" = Some 1 ∧
  posting (index fresh) "aspirin" "d1" = None ∧
  posting (index ix) "ibuprofen" "d1" = Some 1 ∧
  get "d1" (doc_lengths ix) = Some 1 ∧
  postings_sum (index ix) "d1" = 3 ∧
  doc_count ix = 2.
Proof. vm_compute. repeat split. Qed.

(** C7, amended.  [add_document(d, text)] sets the length of [d] to the
    number of tokens of [text] and, for every term of [text], sets the
    posting of [d] under the term to the number of occurrences of the
    term in [text], whatever was there before.  It leaves every other
    posting as it was: those of other documents, and those of [d] under
    terms that do not occur in [text], which stay in the index.
    [doc_count] grows by one on every call. *)
Theorem readd_overwrites_only_terms_of_new_text
    (ix : indexer) (d text : string) :
  let ix' := add_document ix d text in
  let tokens := tokenize text in
  get d (doc_lengths ix') = Some (length tokens) ∧
  (∀ t, t ∈ tokens →
        posting (index ix') t d = Some (occurrences t tokens)) ∧
  (∀ t, t ∉ tokens → posting (index ix') t d = posting (index ix) t d) ∧
  (∀ t d', d' ≠ d → posting (index ix') t d' = posting (index ix) t d') ∧
  doc_count ix' = S (doc_count ix).
Proof.
  intros ix' tokens. subst ix'. unfold add_document. fold tokens. simpl.
  unfold posting.
  split; [apply get_set_eq|]. split; [|split; [|split; [|done]]].
  - intros t Ht. rewrite fold_post_get by apply Counter_NoDup.
    rewrite Counter_get, bool_decide_eq_true_2 by done. simpl.
    apply get_set_eq.
  - intros t Ht. rewrite fold_post_get by apply Counter_NoDup.
    by rewrite Counter_get, bool_decide_eq_false_2.
  - intros t d' Hne. rewrite fold_post_get by apply Counter_NoDup.
    destruct (get t (Counter tokens)) as [n|]; [|done]. simpl.
    rewrite get_set_ne by done. apply get_get_default.
Qed.

(** ** C8 *)

(** C8 fails on the code.  [json.dump] writes a key that is [None] as
    the name [null], and [json.load] reads every name as a string.  In
    the table [ragged_table] the first record stops before the column
    [setid] and the second has a field more than the header:
    [load_from_tsv] indexes the first under the document id [None] and
    keeps the surplus field of the second under the key [None].  Saved
    and loaded, the postings, the length and the record of the first
    document are under the id [null], and the surplus field is under
    the key [null]: the state read is not the state saved. *)
Lemma none_keys_are_not_restored :
  ∃ st fs st',
    Store.load_from_tsv Store.init Examples.ragged_table = inr st ∧
    Store.save_index [] "data/drug_index.json" st = inr fs ∧
    Store.load_index fs "data/drug_index.json" = Some st' ∧
    st' ≠ st ∧
    Store.index st
    = [("aspirin", [(None, 5)]); ("ibuprofen", [(Some "B", 5)])] ∧
    Store.index st'
    = [("aspirin", [(Some "null", 5)]); ("ibuprofen", [(Some "B", 5)])] ∧
    Store.kkeys (Store.doc_lengths st) = [None; Some "B"] ∧
    Store.kkeys (Store.doc_lengths st') = [Some "null"; Some "B"] ∧
    Store.kget (Some "B") (Store.drugs st)
    = Some [(Some "drug_name", Store.VStr "Ibuprofen");
            (Some "setid", Store.VStr "B");
            (None, Store.VList ["tablet"])] ∧
    Store.kget (Some "B") (Store.drugs st')
    = Some [(Some "drug_name", Store.VStr "Ibuprofen");
            (Some "setid", Store.VStr "B");
            (Some "null", Store.VList ["tablet"])].
Proof.
  eexists _, _, _. split; [vm_compute; reflexivity|].
  split; [vm_compute; reflexivity|].
  split; [vm_compute; reflexivity|]. split; [discriminate|].
  repeat split.
Qed.

(** C8, amended.  A saved index is always loaded again, as long as no
    count has more digits than Python converts to text, and the state
    loaded has the document count that was saved and string keys
    throughout.  It is the state that was saved, with the same postings,
    document lengths, document count and records, exactly when every
    document id and every key of a record of the saved state is a
    string; a key [None] comes back as the string [null]. *)
Theorem save_load_roundtrip
    (fs : dict string) (path : string) (st : Store.state) :
  Store.state_wf st →
  Store.within_str_digits st →
  ∃ fs' st', Store.save_index fs path st = inr fs' ∧
             Store.load_index fs' path = Some st' ∧
             Store.str_keyed st' ∧
             Store.doc_count st' = Store.doc_count st ∧
             (st' = st ↔ Store.str_keyed st).
Proof.
  intros Hwf Hok.
  destruct (load_save_index fs path st Hok) as (fs' & Es & El).
  destruct (state_of_index_data_total st) as (st' & E & Hs & Hn).
  exists fs', st'. split; [done|]. split; [by rewrite El|].
  split; [done|]. split; [done|]. split.
  - by intros <-.
  - intros Hst. pose proof (state_of_index_data st Hwf Hst) as E'.
    rewrite E in E'. by injection E'.
Qed.

Lemma save_load_roundtrip_witness :
  Store.state_wf (Store.widen Examples.two_drugs) ∧
  Store.within_str_digits (Store.widen Examples.two_drugs) ∧
  ∃ fs', Store.save_index [] "data/drug_index.json"
           (Store.widen Examples.two_drugs) = inr fs' ∧
         Store.load_index fs' "data/drug_index.json"
         = Some (Store.widen Examples.two_drugs).
Proof.
  assert (Hwf : Store.state_wf (Store.widen Examples.two_drugs)).
  { unfold Store.state_wf, wf, Store.kwf.
    apply (bool_decide_unpack _). vm_compute. exact I. }
  assert (Hok : Store.within_str_digits (Store.widen Examples.two_drugs)).
  { vm_compute. reflexivity. }
  split; [exact Hwf|]. split; [exact Hok|].
  destruct (save_load_roundtrip [] "data/drug_index.json"
              (Store.widen Examples.two_drugs) Hwf Hok)
    as (fs' & st' & Es & El & _ & _ & Hiff).
  exists fs'. split; [exact Es|]. rewrite El. f_equal.
  apply Hiff. apply str_keyed_widen.
Defined.

(** ** C9 *)




(** ** C5 *)

Ltac evaluate t := let v := eval vm_compute in t in change t with v.

(** C5.  Whatever the query, the IDF model and [top_k], every document
    that [search] returns has a posting under every query term that is a
    key of the index, and the result is the one that the query gives with
    the terms outside the vocabulary left out: those terms neither count
    towards the required number of matches nor fail the query.  For the
    index of the two documents [A] (pain, relief) and [B] (pain) and each
    of the four IDF models, the query [pain relief] returns [A] alone
    for a positive [top_k] (and nothing for another [top_k]), never
    [B]. *)
Theorem search_is_conjunctive_over_indexed_terms `{Floats} :
  (∀ (e : DrugSearchEngine) (query m : string) (k : Z) (hits : list hit),
     wf2 (index (engine_indexer e)) →
     search e query m k = inr hits →
     (∀ h t, h ∈ hits → t ∈ tokenize query → indexed e t = true →
             is_Some (posting (index (engine_indexer e)) t (setid h))) ∧
     search_terms e (List.filter (indexed e) (tokenize query)) m k
     = inr hits) ∧
  (∀ (m : string) (k : Z),
     m ∈ ["standard"; "smooth"; "probabilistic"; "bm25"] →
     setids (search (new_engine Examples.two_drugs) "pain relief" m k)
     = inr (if (0 <? k)%Z then ["A"] else [])).
Proof.
  split.
  - intros e query m k hits Hw Hs. split.
    + by apply (search_terms_sound e (tokenize query) m k).
    + by rewrite search_terms_indexed.
  - intros m k Hm. destruct H as [F ofZ add mul log lt]. unfold search.
    evaluate (tokenize "pain relief"). unfold search_terms, ranked.
    evaluate (num_query_terms (new_engine Examples.two_drugs)
                              ["pain"; "relief"]).
    repeat (apply elem_of_cons in Hm as [->|Hm]);
      [..|by apply elem_of_nil in Hm];
      match goal with
      | |- context [rbind ?a _] => evaluate a
      end;
      simpl rbind;
      match goal with
      | |- context [slice_to _ ?l] => evaluate l
      end;
      rewrite slice_to_singleton; destruct (0 <? k)%Z; reflexivity.
Qed.

Lemma search_is_conjunctive_over_indexed_terms_witness :
  let e := new_engine Examples.two_drugs in
  wf2 (index (engine_indexer e)) ∧
  setids (search (H := Examples.ExampleFloats) e "pain relief aspirin"
                 "bm25" 10)
  = inr ["A"] ∧
  search_terms (H := Examples.ExampleFloats) e
    (List.filter (indexed e) (tokenize "pain relief aspirin")) "bm25" 10
  = search (H := Examples.ExampleFloats) e "pain relief aspirin" "bm25" 10.
Proof.
  assert (Hw : wf2 (index (engine_indexer (new_engine Examples.two_drugs)))).
  { apply (bool_decide_unpack _). vm_compute. exact I. }
  split; [exact Hw|]. split; [vm_compute; reflexivity|].
  assert (Hs : search (H := Examples.ExampleFloats)
                 (new_engine Examples.two_drugs) "pain relief aspirin"
                 "bm25" 10
               = inr match search (H := Examples.ExampleFloats)
                             (new_engine Examples.two_drugs)
                             "pain relief aspirin" "bm25" 10 with
                     | inr hits => hits
                     | inl _ => []
                     end).
  { vm_compute. reflexivity. }
  exact (eq_trans
           (proj2 (proj1 (search_is_conjunctive_over_indexed_terms
                            (H := Examples.ExampleFloats))
                     (new_engine Examples.two_drugs) "pain relief aspirin"
                     "bm25" 10%Z
                     match search (H := Examples.ExampleFloats)
                             (new_engine Examples.two_drugs)
                             "pain relief aspirin" "bm25" 10 with
                     | inr hits => hits
                     | inl _ => []
                     end Hw Hs))
           (eq_sym Hs)).
Defined.

(** ** C6 *)

(** C6.  Every token that [tokenize] emits has a digit, a hyphen or a
    percent sign, or else is no stop word (general or domain) and is
    longer than two characters.  Hence no stop word is ever emitted
    ([the] alone gives no token), while a candidate token with a digit
    is always emitted ([2mg] gives the token [2mg]). *)
Theorem tokenize_keeps_digits_drops_stopwords :
  (∀ text tok, tok ∈ tokenize text →
     let cs := list_ascii_of_string tok in
     (has_digit cs = true ∨ has_char "-" cs = true ∨ has_char "%" cs = true) ∨
     ((tok ∉ ALL_STOPWORDS) ∧ 2 < String.length tok)) ∧
  (∀ text w, w ∈ ALL_STOPWORDS → w ∉ tokenize text) ∧
  (∀ text cs, text ≠ "" → text ≠ "Not found" →
     cs ∈ candidates (list_ascii_of_string text) → has_digit cs = true →
     string_of_list_ascii cs ∈ tokenize text) ∧
  tokenize "the" = [] ∧
  tokenize "2mg" = ["2mg"].
Proof.
  split; [|split; [|split; [|split]]].
  - intros text tok (cs & -> & _ & Hk)%elem_of_tokenize. simpl.
    rewrite list_ascii_of_string_of_list_ascii, length_string_of_list_ascii.
    by apply keep_cases.
  - intros text w Hw (cs & -> & _ & Hk)%elem_of_tokenize.
    pose proof stopwords_plain as Hp. rewrite forallb_forall in Hp.
    apply list_elem_of_In, Hp in Hw.
    rewrite list_ascii_of_string_of_list_ascii, Hk in Hw. done.
  - intros text cs H1 H2 Hcs Hd. by apply tokenize_keeps, keep_digit.
  - vm_compute. reflexivity.
  - vm_compute. reflexivity.
Qed.

Lemma tokenize_keeps_digits_drops_stopwords_witness :
  "2mg" ∈ tokenize "Take 2mg of the drug" ∧
  ((has_digit (list_ascii_of_string "2mg") = true ∨
    has_char "-" (list_ascii_of_string "2mg") = true ∨
    has_char "%" (list_ascii_of_string "2mg") = true) ∨
   (("2mg" ∉ ALL_STOPWORDS) ∧ 2 < String.length "2mg")).
Proof.
  assert (H : "2mg" ∈ tokenize "Take 2mg of the drug").
  { apply (bool_decide_unpack _). vm_compute. exact I. }
  split; [exact H|].
  exact (proj1 tokenize_keeps_digits_drops_stopwords _ _ H).
Defined.

(** ** C10 *)

(** C10, as stated for the compounds of the input text, fails where a
    dosage match reaches into a compound.  In [5mg/anti-viral] the
    compound pattern finds [anti-viral], but the dosage [5mg/anti] is cut
    out first: neither [anti-viral] nor [anti] is a token.  In
    [500 mg-tablet] it finds [mg-tablet], of which only [tablet] is
    left. *)
Lemma dosage_match_takes_compound_segment :
  findall compound_pattern (lower (list_ascii_of_string "5mg/anti-viral"))
  = [list_ascii_of_string "anti-viral"] ∧
  tokenize "5mg/anti-viral" = ["5mg/anti"; "viral"] ∧
  findall compound_pattern (lower (list_ascii_of_string "500 mg-tablet"))
  = [list_ascii_of_string "mg-tablet"] ∧
  tokenize "500 mg-tablet" = ["500mg"; "tablet"].
Proof. repeat split; vm_compute; reflexivity. Qed.

(** C10, amended.  For every hyphenated compound that the compound
    pattern finds in the working text (the lower-cased text with the
    dosage matches blanked out), [tokenize] emits the compound, which has
    at least two segments, and also emits each of its segments of three
    letters or more that is no stop word: the pass for generic words
    finds the segment in the same working text.  So [anti-viral] gives
    the three tokens [anti-viral], [anti] and [viral], and a document
    with that text has length 3. *)
Theorem compound_and_its_segments_are_tokens :
  (∀ text c,
     text ≠ "" → text ≠ "Not found" →
     c ∈ findall compound_pattern
           (working_text (list_ascii_of_string text)) →
     string_of_list_ascii c ∈ tokenize text ∧
     2 ≤ length (split_hyphen c) ∧
     ∀ seg, seg ∈ split_hyphen c → 3 ≤ length seg →
            is_stopword (string_of_list_ascii seg) = false →
            seg ∈ findall word_pattern
                    (working_text (list_ascii_of_string text)) ∧
            string_of_list_ascii seg ∈ tokenize text) ∧
  tokenize "anti-viral" = ["anti-viral"; "anti"; "viral"] ∧
  doc_lengths (add_document init "d" "anti-viral") = [("d", 3)].
Proof.
  split; [|split; vm_compute; reflexivity].
  intros text c H1 H2 Hc.
  destruct (compound_matches _ _ Hc) as (Hh & _ & Hn & Hsegs).
  split; [|split; [done|]].
  - apply tokenize_keeps; [done..| |by apply keep_hyphen].
    by apply compound_is_candidate.
  - intros seg Hin Hl Hs. pose proof (Hsegs seg Hin Hl) as Hw.
    split; [done|].
    apply tokenize_keeps; [done..| |by apply keep_word].
    by apply word_is_candidate.
Qed.

Lemma compound_and_its_segments_are_tokens_witness :
  let text := "Broad-spectrum anti-viral the-rapy 5 mg" in
  let c := list_ascii_of_string "anti-viral" in
  c ∈ findall compound_pattern (working_text (list_ascii_of_string text)) ∧
  "anti-viral" ∈ tokenize text ∧
  2 ≤ length (split_hyphen c).
Proof.
  assert (H1 : "Broad-spectrum anti-viral the-rapy 5 mg" ≠ "") by done.
  assert (H2 : "Broad-spectrum anti-viral the-rapy 5 mg" ≠ "Not found")
    by done.
  assert (Hc : list_ascii_of_string "anti-viral"
               ∈ findall compound_pattern
                   (working_text (list_ascii_of_string
                      "Broad-spectrum anti-viral the-rapy 5 mg"))).
  { apply (bool_decide_unpack _). vm_compute. exact I. }
  split; [exact Hc|].
  pose proof (proj1 compound_and_its_segments_are_tokens _ _ H1 H2 Hc)
    as (Ht & Hn & _).
  split; [exact Ht|exact Hn].
Defined.

(** * Further properties of the code *)

Import CrawlProps RegexMore TokenProps IndexProps SearchProps.
Import Statistics StatsProps FileNames FileProps Parser ParserProps.
Import LuceneApp AppProps CrossProps StoreProps.

(** ** The crawler *)

(** X1.  A call of [fetch] on a URL that is not yet visited makes between
    one and [max_retries] attempts, each a politeness delay followed by
    the request, and then writes exactly one audit row, which records the
    URL and the number of attempts.  If it returns a body the row says
    [success], names the path the page is to be saved under, and the URL
    has joined the visited set; if it returns nothing the row says
    [failed], all [max_retries] attempts were made, and the visited set
    is as before.  The page counter is not touched. *)
Theorem fetch_logs_one_outcome
    (w : web) (c c' : crawler) (url : string) (r : option string) :
  url ∉ visited c → fetch w c url = (r, c') →
  ∃ n row,
    1 ≤ n ≤ max_retries ∧
    trace c' = trace c ++ attempts_trace url n ++ [Log row] ∧
    rec_url row = url ∧ retries row = n ∧
    page_count c' = page_count c ∧
    match r with
    | Some _ =>
        rec_status row = success ∧ visited c' = {[url]} ∪ visited c ∧
        saved_path row = Some (get_html_path c url)
    | None =>
        rec_status row = failed ∧ n = max_retries ∧
        visited c' = visited c ∧ saved_path row = None
    end.
Proof.
  intros Hv Hf.
  destruct (fetch_unvisited w c url r c' Hv Hf)
    as (n & row & Hn & Ht & Hu & Hr & Hp & _ & Hcase).
  by exists n, row.
Qed.

Lemma fetch_logs_one_outcome_witness :
  let w := Examples.flaky_site true in
  let c := new_crawler None in
  (Examples.url_b ∉ visited c) ∧
  ∃ n row,
    1 ≤ n ≤ max_retries ∧
    trace (fetch w c Examples.url_b).2
    = trace c ++ attempts_trace Examples.url_b n ++ [Log row] ∧
    rec_status row = success.
Proof.
  assert (Hv : Examples.url_b ∉ visited (new_crawler None)).
  { apply (bool_decide_unpack _). vm_compute. exact I. }
  assert (Hf : fetch (Examples.flaky_site true) (new_crawler None)
                 Examples.url_b
               = (Some Examples.page_b,
                  (fetch (Examples.flaky_site true) (new_crawler None)
                     Examples.url_b).2)).
  { vm_compute. reflexivity. }
  split; [exact Hv|].
  destruct (fetch_logs_one_outcome _ _ _ _ _ Hv Hf)
    as (n & row & Hn & Ht & _ & _ & _ & Hs & _).
  exists n, row. split; [exact Hn|]. split; [exact Ht|exact Hs].
Defined.

(** X2.  The crawler never sends a request without sleeping first: if
    every [Get] in the trace before a crawl comes directly after a
    [Sleep], the same holds for the trace after the crawl. *)
Theorem crawl_is_polite
    (w : web) (fuel : nat) (c c' : crawler) (start_url : option string)
    (resume : bool) :
  polite (trace c) →
  crawl w fuel c start_url resume = Some c' →
  polite (trace c').
Proof.
  intros Hp (s & Hr & _ & ->)%crawl_run.
  pose proof (entry_trace c start_url resume) as He.
  destruct (crawl_entry c start_url resume) as [c0 q0]. simpl in He.
  apply (reaches_ind_step (λ c, polite (trace c)) w c0 q0) in Hr.
  - simpl. apply polite_app; [done|]. apply polite_no_get.
    by intros u ?%list_elem_of_singleton.
  - by rewrite He.
  - intros c1 u c2 H1 Hit. by apply (iteration_polite c1 u).
Qed.

Lemma crawl_is_polite_witness :
  let run := crawl (Examples.flaky_site true) 20 (new_crawler None) None
                   false in
  polite (trace (new_crawler None)) ∧
  polite (trace (default (new_crawler None) run)) ∧
  length (trace (default (new_crawler None) run)) = 27.
Proof.
  assert (Hp : polite (trace (new_crawler None))).
  { intros pre u post E. by destruct pre. }
  assert (Hc : crawl (Examples.flaky_site true) 20 (new_crawler None) None
                 false
               = Some (default (new_crawler None)
                         (crawl (Examples.flaky_site true) 20
                            (new_crawler None) None false))).
  { vm_compute. reflexivity. }
  split; [exact Hp|]. split.
  - exact (crawl_is_polite _ _ _ _ _ _ Hp Hc).
  - vm_compute. reflexivity.
Defined.

(** X3.  During a crawl no URL is fetched successfully twice, and none
    that was already visited when the loop was entered: the [success]
    rows written by the crawl name pairwise distinct URLs, none of them
    in the visited set at loop entry, and the visited set at the end is
    the one at loop entry plus exactly these URLs. *)
Theorem crawl_fetches_each_url_once
    (w : web) (fuel : nat) (c c' : crawler) (start_url : option string)
    (resume : bool) :
  crawl w fuel c start_url resume = Some c' →
  let entry := (crawl_entry c start_url resume).1 in
  ∃ t, trace c' = trace c ++ t ∧
       NoDup (success_urls t) ∧
       (∀ x, x ∈ visited c' ↔ x ∈ visited entry ∨ x ∈ success_urls t) ∧
       (∀ x, x ∈ success_urls t → x ∉ visited entry).
Proof.
  intros (s & Hr & _ & ->)%crawl_run.
  pose proof (entry_trace c start_url resume) as He.
  destruct (crawl_entry c start_url resume) as [c0 q0]. simpl in *.
  apply (reaches_ind_step (fetched_once c0) w c0 q0) in Hr;
    [|apply fetched_once_refl
     |by intros c1 u c2 H1 Hit; apply (fetched_once_step c0 c1 u)].
  destruct Hr as (t & Ht & Hnd & Hvis & Hnew).
  exists (t ++ [WriteState {| snap_to_visit := s.2;
                              snap_visited := elements (visited s.1);
                              snap_page_count := page_count s.1 |}]).
  rewrite success_urls_app, app_nil_r.
  split; [by rewrite Ht, He, app_assoc|]. split; [done|]. split; [|done].
  intros x. rewrite Hvis, elem_of_union, elem_of_list_to_set. done.
Qed.

Lemma crawl_fetches_each_url_once_witness :
  let run := crawl (Examples.flaky_site true) 20 (new_crawler None) None
                   false in
  ∃ t, trace (default (new_crawler None) run) = t ∧
       NoDup (success_urls t) ∧ length (success_urls t) = 3.
Proof.
  assert (Hc : crawl (Examples.flaky_site true) 20 (new_crawler None) None
                 false
               = Some (default (new_crawler None)
                         (crawl (Examples.flaky_site true) 20
                            (new_crawler None) None false))).
  { vm_compute. reflexivity. }
  destruct (crawl_fetches_each_url_once _ _ _ _ _ _ Hc)
    as (t & Ht & Hnd & _).
  change (trace (new_crawler None) ++ t) with t in Ht.
  exists t. split; [exact Ht|]. split; [exact Hnd|].
  rewrite <- Ht. vm_compute. reflexivity.
Defined.

(** X4.  The crawl loop terminates on every web and from every frontier:
    some amount of fuel suffices for [crawl] to return.  (Each iteration
    either adds a URL to the visited set, which the page ceiling bounds,
    or shortens the queue.) *)
Theorem crawl_terminates
    (w : web) (c : crawler) (start_url : option string) (resume : bool) :
  ∃ fuel c', crawl w fuel c start_url resume = Some c'.
Proof.
  destruct (loop_terminates w (crawl_entry c start_url resume))
    as (fuel & s & El).
  exists fuel, (save_state s.1 s.2). unfold crawl. by rewrite El.
Qed.

(** X5.  A snapshot restores the frontier: a new crawler that loads the
    state written by [save_state] gets the saved queue, the saved visited
    set and the saved page counter. *)
Theorem snapshot_roundtrip (c : crawler) (to_visit : list string) :
  let disk := state_file (save_state c to_visit) in
  load_state (new_crawler disk)
  = (Some to_visit,
     {| visited := visited c; page_count := page_count c; trace := [];
        state_file := disk |}).
Proof.
  unfold load_state, save_state, new_crawler. simpl.
  by rewrite list_to_set_elements_L.
Qed.

(** X6.  Resuming a crawl that had finished does no network I/O: when the
    stored snapshot has an empty pending list and the start URL among its
    visited URLs, [crawl] with [resume] sends no request, sleeps no
    delay and writes no audit row; it only writes the snapshot again. *)
Theorem resume_of_finished_crawl_is_idle
    (w : web) (fuel : nat) (c : crawler) (sn : snapshot)
    (start_url : option string) :
  state_file c = Some sn → snap_to_visit sn = [] →
  default base_url start_url ∈ snap_visited sn →
  ∃ c' sn',
    crawl w (S fuel) c start_url true = Some c' ∧
    trace c' = trace c ++ [WriteState sn'] ∧
    visited c' = list_to_set (snap_visited sn) ∧
    page_count c' = snap_page_count sn.
Proof.
  intros Hsf Hq Hin. unfold crawl, crawl_entry, load_state.
  rewrite Hsf, Hq. cbn [loop].
  set (c1 := {| visited := list_to_set (snap_visited sn);
                page_count := snap_page_count sn;
                trace := trace c; state_file := Some sn |}).
  assert (Hv : default base_url start_url ∈ visited c1).
  { simpl. by apply elem_of_list_to_set. }
  unfold step at 1. cbn [fst snd].
  destruct (N.of_nat (size (visited c1)) <? max_pages)%N.
  - rewrite (fetch_visited w c1 _ Hv).
    assert (El : loop w fuel (c1, []) = Some (c1, [])) by by destruct fuel.
    rewrite El. simpl. by eexists _, _.
  - simpl. by eexists _, _.
Qed.

Lemma resume_of_finished_crawl_is_idle_witness :
  let sn := {| snap_to_visit := []; snap_visited := [base_url];
               snap_page_count := 1 |} in
  state_file (new_crawler (Some sn)) = Some sn ∧
  ∃ c' sn',
    crawl Examples.single_page 1 (new_crawler (Some sn)) None true = Some c' ∧
    trace c' = [WriteState sn'].
Proof.
  assert (H1 : state_file (new_crawler (Some
                 {| snap_to_visit := []; snap_visited := [base_url];
                    snap_page_count := 1 |}))
               = Some {| snap_to_visit := []; snap_visited := [base_url];
                         snap_page_count := 1 |}) by reflexivity.
  assert (H2 : snap_to_visit {| snap_to_visit := [];
                                snap_visited := [base_url];
                                snap_page_count := 1 |} = [])
    by reflexivity.
  assert (H3 : default base_url None
               ∈ snap_visited {| snap_to_visit := [];
                                 snap_visited := [base_url];
                                 snap_page_count := 1 |}).
  { apply (bool_decide_unpack _). vm_compute. exact I. }
  split; [exact H1|].
  destruct (resume_of_finished_crawl_is_idle Examples.single_page 0 _ _ None
              H1 H2 H3) as (c' & sn' & Hc & Ht & _).
  exists c', sn'. split; [exact Hc|exact Ht].
Defined.

(** X7.  The path in the audit row of a successful fetch is the path the
    page is written to, when it is written: [fetch] computes it from the
    page counter, which [crawl] has not changed when it saves the page.
    A page with an empty body is not saved: its iteration ends with the
    fetch, so it writes no file and no snapshot and leaves the frontier
    and the counter as they were, although the row names a path. *)
Theorem success_row_names_the_written_path
    (w : web) (c c1 c' : crawler) (u html : string) (q q' : list string) :
  fetch w c u = (Some html, c1) →
  step w (c, u :: q) = Some (c', q') →
  ∃ row, last (metadata c1) = Some row ∧
         rec_status row = success ∧
         saved_path row = Some (get_html_path c u) ∧
         if String.eqb html ""
         then c' = c1 ∧ q' = q ∧ trace c' = trace c1 ∧
              page_count c' = page_count c
         else ∃ ws, trace c' = trace c1
                                 ++ WriteHtml (get_html_path c u) html :: ws ∧
                    page_count c' = S (page_count c).
Proof.
  intros Ef Hs.
  assert (Hv : u ∉ visited c).
  { apply fetch_outcome in Ef as (_ & _ & [[? _]|(_ & ? & _)]); done. }
  destruct (fetch_unvisited w c u _ c1 Hv Ef)
    as (n & row & _ & Ht & _ & _ & Hp & _ & Hst & _ & Hsp).
  exists row. split; [|split; [done|split; [done|]]].
  - unfold metadata. rewrite Ht, !flat_map_app. simpl.
    by rewrite app_assoc, last_snoc.
  - revert Hs. unfold step; simpl.
    destruct (N.of_nat (size (visited c)) <? max_pages)%N; [|done].
    rewrite Ef. destruct (String.eqb html "").
    + intros [= <- <-]. done.
    + assert (Hg : get_html_path c1 u = get_html_path c u)
        by (unfold get_html_path; by rewrite Hp).
      match goal with |- context [if ?b then _ else _] => destruct b end;
        intros [= <- <-]; cbn [trace page_count save_html save_state];
        rewrite Hg, Hp.
      * eexists. split; [|done]. by rewrite <- app_assoc.
      * by exists [].
Qed.

Lemma success_row_names_the_written_path_witness :
  let w := Examples.flaky_site true in
  let c := new_crawler None in
  let c1 := (fetch w c base_url).2 in
  let s' := default (c, []) (step w (c, [base_url])) in
  fetch w c base_url = (Some Examples.page_s, c1) ∧
  step w (c, [base_url]) = Some (s'.1, s'.2) ∧
  ∃ row, last (metadata c1) = Some row ∧
         saved_path row = Some (get_html_path c base_url).
Proof.
  assert (Hf : fetch (Examples.flaky_site true) (new_crawler None) base_url
               = (Some Examples.page_s,
                  (fetch (Examples.flaky_site true) (new_crawler None)
                     base_url).2)).
  { vm_compute. reflexivity. }
  assert (Hs : step (Examples.flaky_site true) (new_crawler None, [base_url])
               = Some ((default (new_crawler None, [])
                          (step (Examples.flaky_site true)
                             (new_crawler None, [base_url]))).1,
                       (default (new_crawler None, [])
                          (step (Examples.flaky_site true)
                             (new_crawler None, [base_url]))).2)).
  { vm_compute. reflexivity. }
  split; [exact Hf|]. split; [exact Hs|].
  destruct (success_row_names_the_written_path _ _ _ _ _ _ _ _ Hf Hs)
    as (row & Hl & _ & Hsp & _).
  exists row. split; [exact Hl|exact Hsp].
Defined.

(** X8.  The page counter counts the pages written: after a crawl it is
    the counter at loop entry plus the number of files written, the
    [k]-th file written went to batch [(counter at entry + k) / 2000],
    and no more files were written than fetches succeeded. *)
Theorem crawl_counts_and_batches_pages
    (w : web) (fuel : nat) (c c' : crawler) (start_url : option string)
    (resume : bool) :
  crawl w fuel c start_url resume = Some c' →
  let entry := (crawl_entry c start_url resume).1 in
  ∃ t, trace c' = trace c ++ t ∧
       page_count c' = page_count entry + length (html_writes t) ∧
       map fst (html_writes t)
       = map (λ k, (page_count entry + k) / 2000)
             (seq 0 (length (html_writes t))) ∧
       length (html_writes t) ≤ length (success_urls t).
Proof.
  intros (s & Hr & _ & ->)%crawl_run.
  pose proof (entry_trace c start_url resume) as He.
  destruct (crawl_entry c start_url resume) as [c0 q0]. simpl in *.
  apply (reaches_ind_step (pages_counted c0) w c0 q0) in Hr;
    [|apply pages_counted_refl
     |by intros c1 u c2 H1 Hit; apply (pages_counted_step c0 c1 u)].
  destruct Hr as (t & Ht & Hp & Hb & Hle).
  exists (t ++ [WriteState {| snap_to_visit := s.2;
                              snap_visited := elements (visited s.1);
                              snap_page_count := page_count s.1 |}]).
  rewrite success_urls_app, html_writes_app, !app_nil_r.
  split; [by rewrite Ht, He, app_assoc|]. done.
Qed.

Lemma crawl_counts_and_batches_pages_witness :
  let run := crawl (Examples.flaky_site true) 20 (new_crawler None) None
                   false in
  ∃ t, trace (default (new_crawler None) run) = t ∧
       page_count (default (new_crawler None) run)
       = length (html_writes t) ∧
       length (html_writes t) = 3.
Proof.
  assert (Hc : crawl (Examples.flaky_site true) 20 (new_crawler None) None
                 false
               = Some (default (new_crawler None)
                         (crawl (Examples.flaky_site true) 20
                            (new_crawler None) None false))).
  { vm_compute. reflexivity. }
  destruct (crawl_counts_and_batches_pages _ _ _ _ _ _ Hc)
    as (t & Ht & Hp & _).
  change (trace (new_crawler None) ++ t) with t in Ht.
  exists t. split; [exact Ht|]. split; [exact Hp|].
  rewrite <- Ht. vm_compute. reflexivity.
Defined.

(** X9.  The link filter applies to discovered links only: whatever an
    iteration adds to the queue is a link extracted from the page it has
    just fetched and passes [is_allowed_url].  (The URL taken from the
    queue is fetched without that test, so a start URL or a restored
    pending URL with a media extension is fetched.) *)
Theorem only_allowed_links_are_enqueued
    (w : web) (c c' : crawler) (u x : string) (q q' : list string) :
  step w (c, u :: q) = Some (c', q') → x ∈ q' → x ∉ q →
  is_allowed_url x = true ∧
  ∃ html c1, fetch w c u = (Some html, c1) ∧ x ∈ extract_links w html u.
Proof.
  intros Hs Hx Hq. by destruct (step_allowed w c u q c' q' x Hs Hx).
Qed.

Lemma only_allowed_links_are_enqueued_witness :
  let w := Examples.flaky_site true in
  let s' := default (new_crawler None, [])
                    (step w (new_crawler None, [base_url])) in
  step w (new_crawler None, [base_url]) = Some (s'.1, s'.2) ∧
  Examples.url_a ∈ s'.2 ∧ is_allowed_url Examples.url_a = true.
Proof.
  assert (Hs : step (Examples.flaky_site true) (new_crawler None, [base_url])
               = Some ((default (new_crawler None, [])
                          (step (Examples.flaky_site true)
                             (new_crawler None, [base_url]))).1,
                       (default (new_crawler None, [])
                          (step (Examples.flaky_site true)
                             (new_crawler None, [base_url]))).2)).
  { vm_compute. reflexivity. }
  assert (Hx : Examples.url_a
               ∈ (default (new_crawler None, [])
                    (step (Examples.flaky_site true)
                       (new_crawler None, [base_url]))).2).
  { apply (bool_decide_unpack _). vm_compute. exact I. }
  assert (Hq : Examples.url_a ∉ ([] : list string)).
  { apply (bool_decide_unpack _). vm_compute. exact I. }
  split; [exact Hs|]. split; [exact Hx|].
  exact (proj1 (only_allowed_links_are_enqueued _ _ _ _ _ _ _ Hs Hx Hq)).
Defined.

(** X10.  What the media filter rejects, on a URL of ASCII characters
    (under [re.IGNORECASE] two characters beyond ASCII match a letter
    too, the long s and the dotless i, which the bytes of this model do
    not tell apart): [is_allowed_url] is false exactly for the texts
    that end, up to one final newline, in a dot followed by one of the
    sixteen listed extensions in any mix of upper and lower case.  An
    extension followed by anything else, a query string included,
    passes. *)
Theorem media_filter_characterised (url : string) :
  ascii_text url →
  (is_allowed_url url = false ↔
  ∃ pre e ext nl,
    list_ascii_of_string url = pre ++ "."%char :: e ++ nl ∧
    ext ∈ media_extensions ∧
    map lower_char e = list_ascii_of_string ext ∧
    (nl = [] ∨ nl = ["010"%char])).
Proof.
  intros _. unfold is_allowed_url. rewrite negb_false_iff. split.
  - intros (pre & m & post & p' & Es & D & M)%search_true_elim.
    apply media_match in D as (e & ext & Hext & Hl & E & _ & Hn).
    simpl in E. exists pre, e, ext, p'.2. by rewrite Es, E.
  - intros (pre & e & ext & nl & -> & Hext & Hl & Hn).
    apply (search_true_intro _ pre _ (adv (Some "."%char) e, nl));
      [apply MEDIA_EXTENSIONS_star_free|done|].
    apply media_match. by exists e, ext.
Qed.

Lemma media_filter_characterised_witness :
  ascii_text "https://dailymed.nlm.nih.gov/logo.PnG" ∧
  is_allowed_url "https://dailymed.nlm.nih.gov/logo.PnG" = false ∧
  is_allowed_url "https://dailymed.nlm.nih.gov/logo.png?v=2" = true.
Proof.
  assert (Ha : ascii_text "https://dailymed.nlm.nih.gov/logo.PnG").
  { apply ascii_text_decide. vm_compute. reflexivity. }
  split; [exact Ha|]. split; [|vm_compute; reflexivity].
  apply (proj2 (media_filter_characterised
                  "https://dailymed.nlm.nih.gov/logo.PnG" Ha)).
  exists (list_ascii_of_string "https://dailymed.nlm.nih.gov/logo"),
    (list_ascii_of_string "PnG"), "png", [].
  split; [reflexivity|]. split; [|split; [reflexivity|by left]].
  apply (bool_decide_unpack _). vm_compute. exact I.
Defined.

(** X11.  The tokenizer does not see letter case, the sentinel apart:
    two texts with the same lower-casing have the same tokens, unless
    one of them is the sentinel [Not found] itself, which is compared
    before the text is lower-cased. *)
Theorem tokenize_ignores_case (a b : string) :
  lower_string a = lower_string b →
  a ≠ "Not found" → b ≠ "Not found" →
  tokenize a = tokenize b.
Proof.
  intros E Ha Hb.
  by rewrite <- (tokenize_lower a Ha), <- (tokenize_lower b Hb), E.
Qed.

Lemma tokenize_ignores_case_witness :
  tokenize "Aspirin 500 MG" = tokenize "aSPIRIN 500 mg" ∧
  tokenize "NOT FOUND" ≠ tokenize "Not found".
Proof.
  split.
  - apply (tokenize_ignores_case "Aspirin 500 MG" "aSPIRIN 500 mg");
      [vm_compute; reflexivity|discriminate|discriminate].
  - vm_compute. discriminate.
Defined.

(** X12.  The alphabet of tokens of an ASCII text: a token consists of
    lower-case letters, digits and the five characters [_ . % / -]
    only; it holds no white space and no upper-case letter.  (Beyond
    ASCII the class [\w] of Python holds every letter and digit of
    Unicode, which a token then keeps.) *)
Theorem token_alphabet (text tok : string) :
  ascii_text text →
  tok ∈ tokenize text →
  forallb token_char (list_ascii_of_string tok) = true.
Proof.
  intros _ (cs & -> & Hcs & _)%elem_of_tokenize.
  rewrite list_ascii_of_string_of_list_ascii.
  by apply (candidates_alphabet (list_ascii_of_string text)).
Qed.

Lemma token_alphabet_witness :
  ascii_text "Dose: 5 MG/ML" ∧
  "5mg/ml" ∈ tokenize "Dose: 5 MG/ML" ∧
  forallb token_char (list_ascii_of_string "5mg/ml") = true.
Proof.
  assert (Ha : ascii_text "Dose: 5 MG/ML").
  { apply ascii_text_decide. vm_compute. reflexivity. }
  assert (H : "5mg/ml" ∈ tokenize "Dose: 5 MG/ML").
  { apply (bool_decide_unpack _). vm_compute. exact I. }
  split; [exact Ha|]. split; [exact H|].
  exact (token_alphabet "Dose: 5 MG/ML" "5mg/ml" Ha H).
Defined.


(** X14.  An index loaded from a table into a fresh indexer is
    consistent: no term and no document is keyed twice, [drugs] and
    [doc_lengths] have the same keys in the same order, every posting
    is of a document that has a record and a length, every term of the
    index has between 1 and [doc_count] postings, and every record
    stored is a row of the table, stored under its own [setid]. *)
Theorem loaded_index_is_consistent
    (rows : list (dict string)) (ix : indexer) :
  load_rows init rows = inr ix →
  wf2 (index ix) ∧
  keys (drugs ix) = keys (doc_lengths ix) ∧
  (∀ t d, is_Some (posting (index ix) t d) →
          is_Some (get d (drugs ix)) ∧ is_Some (get d (doc_lengths ix))) ∧
  (∀ t p, get t (index ix) = Some p → 1 ≤ length p ≤ doc_count ix) ∧
  (∀ d r, get d (drugs ix) = Some r → r ∈ rows ∧ get "setid" r = Some d).
Proof.
  intros E. pose proof (load_rows_inv rows init) as H. rewrite E in H.
  destruct H as (_ & _ & Hc & Hd). specialize (Hc consistent_init).
  split; [apply Hc|]. split; [apply Hc|].
  split; [intros t d; by apply consistent_posting|].
  split; [intros t p; by apply consistent_df_bounds|].
  intros d r [Hg|Hg]%Hd; [done|done].
Qed.

Lemma loaded_index_is_consistent_witness :
  let rows := [Examples.row "A" "Pain Relief"; Examples.row "B" "Pain"] in
  load_rows init rows = inr Examples.two_drugs ∧
  keys (drugs Examples.two_drugs) = keys (doc_lengths Examples.two_drugs).
Proof.
  assert (E : load_rows init
                [Examples.row "A" "Pain Relief"; Examples.row "B" "Pain"]
              = inr Examples.two_drugs) by (vm_compute; reflexivity).
  split; [exact E|].
  exact (proj1 (proj2 (loaded_index_is_consistent _ _ E))).
Defined.

(** X15.  A record whose weighted fields are all missing, empty or
    [Not found] is still indexed: it is stored, counted in [doc_count]
    and given the length 0, and the index itself is left as it was. *)
Theorem record_without_text_is_an_empty_document
    (ix : indexer) (row : dict string) (id : string) :
  get "setid" row = Some id →
  (∀ f, f ∈ keys default_field_weights → unusable (get_default f "" row)) →
  load_row ix row
  = inr {| index := index ix; doc_count := S (doc_count ix);
           doc_lengths := set id 0 (doc_lengths ix);
           drugs := set id row (drugs ix) |}.
Proof.
  intros Hid Hu. unfold load_row. rewrite Hid.
  by rewrite (create_document_text_unusable row default_field_weights Hu).
Qed.

Lemma record_without_text_is_an_empty_document_witness :
  load_row init [("setid", "Z"); ("drug_name", "Not found")]
  = inr {| index := []; doc_count := 1; doc_lengths := [("Z", 0)];
           drugs := [("Z", [("setid", "Z"); ("drug_name", "Not found")])] |}.
Proof.
  apply (record_without_text_is_an_empty_document init
           [("setid", "Z"); ("drug_name", "Not found")] "Z").
  - reflexivity.
  - intros f Hf. unfold default_field_weights, keys in Hf. simpl in Hf.
    rewrite !elem_of_cons in Hf. unfold unusable.
    repeat (destruct Hf as [->|Hf]; [vm_compute; auto|]).
    by apply elem_of_nil in Hf.
Defined.

(** X16.  Every dosage match becomes a token: the match with its white
    space deleted and nothing else changed.  It has a digit, so the
    filtering loop never drops it. *)
Theorem dosage_matches_become_tokens (text : string) (d : list ascii) :
  text ≠ "" → text ≠ "Not found" →
  d ∈ findall dosage_pattern (lower (list_ascii_of_string text)) →
  string_of_list_ascii (List.filter not_space d) ∈ tokenize text.
Proof.
  intros H1 H2 Hd. apply tokenize_keeps; [done|done| |].
  - unfold candidates. cbv zeta. apply elem_of_app. left.
    rewrite <- sub_spaces. apply list_elem_of_In, in_map.
    by apply list_elem_of_In.
  - apply keep_digit. by apply (dosage_token_has_digit _ _ Hd).
Qed.

Lemma dosage_matches_become_tokens_witness :
  "2.5mg" ∈ tokenize "Take 2.5  MG daily".
Proof.
  apply (dosage_matches_become_tokens "Take 2.5  MG daily"
           (list_ascii_of_string "2.5  mg")); [discriminate|discriminate|].
  apply (bool_decide_unpack _). vm_compute. exact I.
Defined.

(** X17.  When the IDF functions raise, on a corpus within the float
    range (document count and document frequency below the largest
    float, about 1.8e308; past it the conversion of the integer raises
    [OverflowError]).  None of them divides by zero or overflows; each
    raises [ValueError] (the domain error of [math.log]) exactly when
    the argument of the logarithm is not positive: [standard] for an
    indexed term in a corpus of no documents, [smooth] in a corpus of no
    documents, [probabilistic] and [bm25] for a term with more postings
    than there are documents. *)
Theorem idf_raises_only_value_error `{Floats}
    (c : IDFCalculator) (t : string) :
  in_float_range c t →
  (∀ e, standard_idf c t = inl e ↔ e = ValueError ∧ 0 < df c t ∧ N c = 0) ∧
  (∀ e, smooth_idf c t = inl e ↔ e = ValueError ∧ N c = 0) ∧
  (∀ e, probabilistic_idf c t = inl e ↔ e = ValueError ∧ N c < df c t) ∧
  (∀ e, bm25_idf c t = inl e ↔ e = ValueError ∧ N c < df c t).
Proof.
  intros Hr.
  rewrite (standard_idf_cases c t Hr), (smooth_idf_cases c t Hr),
    (probabilistic_idf_cases c t Hr), (bm25_idf_cases c t Hr).
  destruct (Nat.eqb_spec (df c t) 0), (Nat.eqb_spec (N c) 0),
    (Nat.eqb_spec (df c t) (N c)), (Nat.ltb_spec (N c) (df c t));
    try lia; cbn [orb]; repeat apply conj; intros e';
    (split;
     [first [discriminate | intros [= <-]; repeat split; (done || lia)]
     |first [intros [-> _]; reflexivity | intros (_ & ?); lia]]).
Qed.

Lemma idf_raises_only_value_error_witness :
  let c := idf_calc (new_engine Examples.two_drugs) in
  in_float_range c "pain" ∧
  (∀ e, bm25_idf (H := Examples.ExampleFloats) c "pain" = inl e ↔
        e = ValueError ∧ N c < df c "pain").
Proof.
  assert (Hr : in_float_range
                 (idf_calc (new_engine Examples.two_drugs)) "pain").
  { split; vm_compute; reflexivity. }
  split; [exact Hr|].
  exact (proj2 (proj2 (proj2
           (idf_raises_only_value_error (H := Examples.ExampleFloats)
              (idf_calc (new_engine Examples.two_drugs)) "pain" Hr)))).
Defined.

(** X18.  A name of an IDF method that [search] does not know means
    [standard]: the result is the one of the standard method. *)
Theorem unknown_idf_method_means_standard `{Floats}
    (e : DrugSearchEngine) (query idf_method : string) (top_k : Z) :
  idf_method ≠ "smooth" → idf_method ≠ "probabilistic" →
  idf_method ≠ "bm25" →
  search e query idf_method top_k = search e query "standard" top_k.
Proof.
  intros H1 H2 H3. unfold search, search_terms.
  destruct (tokenize query) as [|t ts]; [done|].
  rewrite (accumulate_ext e idf_method "standard"); [done|].
  intros t'. by rewrite idf_standard_fallback.
Qed.

Lemma unknown_idf_method_means_standard_witness :
  search (H := Examples.ExampleFloats) (new_engine Examples.two_drugs)
         "pain" "tfidf" 10
  = search (H := Examples.ExampleFloats) (new_engine Examples.two_drugs)
           "pain" "standard" 10.
Proof.
  exact (unknown_idf_method_means_standard (H := Examples.ExampleFloats)
           (new_engine Examples.two_drugs) "pain" "tfidf" 10
           ltac:(discriminate) ltac:(discriminate) ltac:(discriminate)).
Defined.

(** X19.  A search with a top_k that is not negative returns at most
    top_k results. *)
Theorem search_returns_at_most_top_k `{Floats}
    (e : DrugSearchEngine) (query idf_method : string) (top_k : Z)
    (hits : list hit) :
  (0 ≤ top_k)%Z →
  search e query idf_method top_k = inr hits →
  length hits ≤ Z.to_nat top_k.
Proof.
  intros Hk. unfold search, search_terms.
  destruct (tokenize query) as [|t ts]; [intros [= <-]; simpl; lia|].
  destruct (accumulate e idf_method (t :: ts) no_scores) as [|a]; [done|].
  simpl. intros Hh%make_hits_Forall2%Forall2_length. rewrite Hh.
  unfold ranked. by apply length_slice_to.
Qed.

Lemma search_returns_at_most_top_k_witness :
  let r := search (H := Examples.ExampleFloats)
                  (new_engine Examples.two_drugs) "pain" "bm25" 1 in
  ∃ hits, r = inr hits ∧ length hits ≤ 1.
Proof.
  pose (hs := match search (H := Examples.ExampleFloats)
                      (new_engine Examples.two_drugs) "pain" "bm25" 1
              with inr hits => hits | inl _ => [] end).
  assert (E : search (H := Examples.ExampleFloats)
                (new_engine Examples.two_drugs) "pain" "bm25" 1 = inr hs).
  { vm_compute. reflexivity. }
  exists hs. split; [exact E|].
  exact (search_returns_at_most_top_k (H := Examples.ExampleFloats)
           (new_engine Examples.two_drugs) "pain" "bm25" 1 hs
           ltac:(lia) E).
Defined.

(** X20.  No document is returned twice: the setids of a result list
    are pairwise distinct. *)
Theorem search_results_are_distinct `{Floats}
    (e : DrugSearchEngine) (query idf_method : string) (top_k : Z)
    (hits : list hit) :
  search e query idf_method top_k = inr hits →
  NoDup (map setid hits).
Proof.
  unfold search, search_terms.
  destruct (tokenize query) as [|t ts]; [intros [= <-]; apply NoDup_nil_2|].
  destruct (accumulate e idf_method (t :: ts) no_scores) as [|a] eqn:Ea;
    [done|].
  simpl. intros ->%make_hits_setids. apply ranked_wf.
  apply (accumulate_wf _ _ _ _ _ Ea). apply NoDup_nil_2.
Qed.

Lemma search_results_are_distinct_witness :
  let r := search (H := Examples.ExampleFloats)
                  (new_engine Examples.two_drugs) "pain" "standard" 10 in
  ∃ hits, r = inr hits ∧ length hits = 2 ∧ NoDup (map setid hits).
Proof.
  pose (hs := match search (H := Examples.ExampleFloats)
                      (new_engine Examples.two_drugs) "pain" "standard" 10
              with inr hits => hits | inl _ => [] end).
  assert (E : search (H := Examples.ExampleFloats)
                (new_engine Examples.two_drugs) "pain" "standard" 10
              = inr hs).
  { vm_compute. reflexivity. }
  exists hs. split; [exact E|]. split; [vm_compute; reflexivity|].
  exact (search_results_are_distinct (H := Examples.ExampleFloats)
           (new_engine Examples.two_drugs) "pain" "standard" 10 hs E).
Defined.





(** X23.  The score of a result depends on its own postings only: it is
    what the scoring loop computes when it is run over the query terms
    for this document alone, starting from the float zero and adding
    [tf * idf] for each indexed query term, in query order and as often
    as the term occurs in the query, that the document has. *)
Theorem hit_score_is_its_own_sum `{Floats}
    (e : DrugSearchEngine) (query idf_method : string) (top_k : Z)
    (hits : list hit) (h : hit) :
  wf2 (index (engine_indexer e)) →
  search e query idf_method top_k = inr hits →
  h ∈ hits →
  doc_score e idf_method (tokenize query) (setid h) float_zero
  = inr (score h).
Proof.
  intros Hw. unfold search, search_terms.
  destruct (tokenize query) as [|t ts];
    [intros [= <-] ?%elem_of_nil; done|].
  destruct (accumulate e idf_method (t :: ts) no_scores) as [|a] eqn:Ea;
    [done|].
  simpl. intros Hm Hh. apply (make_hits_elem _ _ _ _ Hm) in Hh.
  apply elem_of_ranked in Hh.
  pose proof (accumulate_wf _ _ _ _ _ Ea NoDup_nil_2) as Hwa.
  apply (wf_elem_get _ _ _ Hwa) in Hh.
  etrans;
    [exact (accumulate_scores e idf_method (t :: ts) no_scores a (setid h)
              Hw Ea)|].
  unfold get_default. by rewrite Hh.
Qed.

Lemma hit_score_is_its_own_sum_witness :
  let e := new_engine Examples.two_drugs in
  let r := search (H := Examples.ExampleFloats) e "pain relief" "bm25" 10 in
  ∃ h, r = inr [h] ∧
       doc_score (H := Examples.ExampleFloats) e "bm25"
                 (tokenize "pain relief") (setid h)
                 (float_zero (H := Examples.ExampleFloats))
       = inr (score h).
Proof.
  pose (h := match search (H := Examples.ExampleFloats)
                     (new_engine Examples.two_drugs) "pain relief" "bm25" 10
             with
             | inr (h :: _) => h
             | _ => @Build_hit Examples.ExampleFloats "" 0%Q "" "" ""
             end).
  assert (E : search (H := Examples.ExampleFloats)
                (new_engine Examples.two_drugs) "pain relief" "bm25" 10
              = inr [h]).
  { vm_compute. reflexivity. }
  assert (Hw : wf2 (index (engine_indexer (new_engine Examples.two_drugs)))).
  { apply (wf2_add_documents
             [("A", create_document_text (Examples.row "A" "Pain Relief")
                      default_field_weights);
              ("B", create_document_text (Examples.row "B" "Pain")
                      default_field_weights)] init).
    split; [apply NoDup_nil_2|constructor]. }
  assert (Hh : h ∈ [h]) by (by left).
  exists h. split; [exact E|].
  exact (hit_score_is_its_own_sum (H := Examples.ExampleFloats)
           (new_engine Examples.two_drugs) "pain relief" "bm25" 10 [h] h
           Hw E Hh).
Defined.

(** X24.  [get_statistics] lists the terms of highest document
    frequency: [most_common_terms] has 20 entries, or as many as there
    are terms; it is in non-increasing order of document frequency;
    each entry is a term of the index with the number of its postings;
    and a term that is left out has no more postings than any term
    listed. *)
Theorem most_common_terms_are_the_top_20 (ix : indexer) :
  let st := get_statistics ix in
  length (most_common_terms st) = min 20 (unique_terms st) ∧
  StronglySorted (λ a b, b.2 ≤ a.2) (most_common_terms st) ∧
  (∀ t n, (t, n) ∈ most_common_terms st →
          ∃ p, (t, p) ∈ index ix ∧ n = length p) ∧
  (∀ t p, (t, p) ∈ index ix →
          (t, length p) ∈ most_common_terms st ∨
          ∀ x, x ∈ most_common_terms st → length p ≤ x.2).
Proof.
  cbv zeta. unfold get_statistics. cbn [most_common_terms unique_terms].
  set (counts := map (λ td : string * dict nat, (td.1, length td.2))
                     (index ix)).
  pose proof (sorted_by_count_sorted counts) as Hs.
  rewrite <- (take_drop 20 (sorted_by_count counts)) in Hs.
  apply StronglySorted_app_inv in Hs as [Hs1 Hs2].
  assert (Hin : ∀ y, y ∈ sorted_by_count counts ↔ y ∈ counts).
  { intros y. by rewrite sorted_by_count_perm. }
  split; [|split; [exact Hs1|split]].
  - rewrite length_take, (Permutation_length (sorted_by_count_perm counts)).
    unfold counts. by rewrite length_map.
  - intros t n Ht. apply (subseteq_take 20), Hin in Ht.
    apply list_elem_of_In, in_map_iff in Ht as ([t' p] & [= <- <-] & Ht).
    exists p. split; [by apply list_elem_of_In|done].
  - intros t p Ht.
    assert (Hc : (t, length p) ∈ sorted_by_count counts).
    { apply Hin, list_elem_of_In, in_map_iff. exists (t, p).
      split; [done|by apply list_elem_of_In]. }
    rewrite <- (take_drop 20 (sorted_by_count counts)) in Hc.
    apply elem_of_app in Hc as [Hc|Hc]; [by left|]. right.
    intros y Hy. apply (Hs2 y (t, length p) Hy Hc).
Qed.

(** X25.  The file name under which a page is saved is never empty, is
    at most 200 characters long before the extension, and consists of
    letters, digits, [_] and [-] only, whatever the path and query of
    the URL. *)
Theorem saved_file_names_are_safe (path_and_query : string) :
  safe_name path_and_query ≠ "" ∧
  String.length (safe_name path_and_query) ≤ 200 ∧
  forallb safe_char (list_ascii_of_string (safe_name path_and_query)) = true.
Proof.
  unfold safe_name. cbv zeta.
  set (s := sub unsafe_pattern ["_"%char]
                (strip "/" (list_ascii_of_string path_and_query))).
  assert (Hs : forallb safe_char s = true) by apply sub_unsafe_safe.
  set (s' := match s with [] => list_ascii_of_string "index" | _ :: _ => s end).
  assert (Hs' : forallb safe_char s' = true ∧ s' ≠ []).
  { unfold s'. by destruct s. }
  destruct Hs' as [Hf Hne]. split; [|split].
  - destruct s' as [|c s'']; [done|]. done.
  - rewrite length_string_of_list_ascii, length_take. lia.
  - rewrite list_ascii_of_string_of_list_ascii. by apply forallb_take.
Qed.

(** X26.  The set id is read from the file name: for a file name that
    holds [_setid_] after a prefix without a component [setid],
    followed by an id without [_] and [.], a dot and anything,
    [get_setid] returns the id, whatever the page holds. *)
Theorem setid_is_read_from_the_file_name (html pre id rest : string) :
  list_ascii_of_string "setid" ∉ split_on "_" (list_ascii_of_string pre) →
  no_sep "_" (list_ascii_of_string id) →
  no_sep "." (list_ascii_of_string id) →
  get_setid html (pre ++ "_setid_" ++ id ++ "." ++ rest) = inr (Some id).
Proof.
  intros Hpre H1 H2.
  rewrite (get_setid_file_name html _ (list_ascii_of_string pre)
             (list_ascii_of_string id) (list_ascii_of_string rest));
    [by rewrite string_of_list_ascii_of_string| |done|done|done].
  by rewrite !list_ascii_of_string_app.
Qed.

Lemma setid_is_read_from_the_file_name_witness :
  get_setid "" "dailymed_drugInfo_cfm_setid_0a1b-22.html"
  = inr (Some "0a1b-22").
Proof.
  apply (setid_is_read_from_the_file_name "" "dailymed_drugInfo_cfm"
           "0a1b-22" "html").
  - apply (bool_decide_unpack _). vm_compute. exact I.
  - unfold no_sep. apply Forall_forall. intros c Hc.
    apply (bool_decide_unpack _).
    revert c Hc. apply Forall_forall. vm_compute. repeat constructor.
  - unfold no_sep. apply Forall_forall. intros c Hc.
    apply (bool_decide_unpack _).
    revert c Hc. apply Forall_forall. vm_compute. repeat constructor.
Defined.

(** X27.  A file name whose last component is [setid] makes [get_setid]
    raise [IndexError]: the component after it is read without a
    check. *)
Theorem setid_as_last_component_raises (html pre : string) :
  list_ascii_of_string "setid" ∉ split_on "_" (list_ascii_of_string pre) →
  get_setid html (pre ++ "_setid") = inl IndexError.
Proof.
  intros Hpre. unfold get_setid. cbv zeta.
  rewrite list_ascii_of_string_app.
  change (list_ascii_of_string "_setid")
    with ("_"%char :: list_ascii_of_string "setid").
  rewrite split_on_app.
  change (split_on "_" (list_ascii_of_string "setid"))
    with [list_ascii_of_string "setid"].
  rewrite bool_decide_eq_true_2
    by (apply elem_of_app; right; by left).
  rewrite index_of_app by done.
  rewrite lookup_ge_None_2; [done|]. rewrite length_app. simpl. lia.
Qed.

Lemma setid_as_last_component_raises_witness :
  get_setid "" "page_setid" = inl IndexError.
Proof.
  apply (setid_as_last_component_raises "" "page").
  apply (bool_decide_unpack _). vm_compute. exact I.
Defined.

(** X28.  Otherwise the set id is read from the page: when no component
    of the file name is [setid] and [get_setid] returns an id, the id
    has 36 characters, all of them hexadecimal digits in lower case or
    hyphens, and the page holds it right after [setid=]. *)
Theorem setid_is_read_from_the_page (html filename s : string) :
  list_ascii_of_string "setid"
    ∉ split_on "_" (list_ascii_of_string filename) →
  get_setid html filename = inr (Some s) →
  String.length s = 36 ∧
  forallb uuid_char (list_ascii_of_string s) = true ∧
  ∃ pre post,
    list_ascii_of_string html
    = pre ++ list_ascii_of_string "setid=" ++ list_ascii_of_string s ++ post.
Proof.
  intros Hf. unfold get_setid. cbv zeta.
  rewrite bool_decide_eq_false_2 by done.
  destruct (findall setid_pattern (list_ascii_of_string html))
    as [|m l] eqn:E; [done|].
  intros [= <-].
  assert (Hm : m ∈ findall setid_pattern (list_ascii_of_string html))
    by (rewrite E; by left).
  unfold findall in Hm.
  apply TokenizerFacts.elem_of_hits, TokenizerFacts.scan_hit_sound in Hm
    as (pre & post & p' & Eh & Hm & M).
  apply RegexFacts.match_at_sound in Hm.
  destruct (setid_match _ _ _ Hm M) as (u & -> & Hl & Hu).
  rewrite drop_app_length' by done.
  rewrite length_string_of_list_ascii, list_ascii_of_string_of_list_ascii.
  split; [done|]. split; [done|]. exists pre, post.
  by rewrite Eh, <- app_assoc.
Qed.

Lemma setid_is_read_from_the_page_witness :
  let id := "0a1b2c3d-0a1b-0a1b-0a1b-0a1b2c3d4e5f" in
  get_setid ("<a href='x?setid=" ++ id ++ "'>") "page.html" = inr (Some id) ∧
  String.length id = 36.
Proof.
  assert (Hf : list_ascii_of_string "setid"
               ∉ split_on "_" (list_ascii_of_string "page.html")).
  { apply (bool_decide_unpack _). vm_compute. exact I. }
  assert (E : get_setid
                ("<a href='x?setid="
                 ++ "0a1b2c3d-0a1b-0a1b-0a1b-0a1b2c3d4e5f" ++ "'>")
                "page.html"
              = inr (Some "0a1b2c3d-0a1b-0a1b-0a1b-0a1b2c3d4e5f")).
  { vm_compute. reflexivity. }
  split; [exact E|].
  exact (proj1 (setid_is_read_from_the_page _ _ _ Hf E)).
Defined.

(** X29.  The result list of the Lucene front end: no drug name occurs
    twice; the results are the rows of some of the hits, in the order
    of the hits; there are at most top_k of them, but one when top_k is
    below 1 and there is a hit, because the bound is tested after a row
    is added; and when fewer than top_k rows come back, every hit has
    its drug name among them. *)
Theorem lucene_results_are_deduplicated {S : Type}
    (top_k : Z) (hits : list (S * stored_doc)) :
  let out := search_results top_k hits in
  NoDup (map row_drug_name out) ∧
  out `sublist_of` map make_row hits ∧
  (Z.of_nat (length out) ≤ Z.max top_k 1)%Z ∧
  ((Z.of_nat (length out) < top_k)%Z →
   ∀ h, h ∈ hits → doc_drug_name h.2 ∈ map row_drug_name out) ∧
  ((top_k ≤ 1)%Z → out = take 1 (map make_row hits)).
Proof.
  cbv zeta. unfold search_results.
  destruct (collect_spec top_k hits ∅ []) as (H1 & (ext & E & Hsub) & H3 & H4).
  { intros n. split; [by intros ?%elem_of_empty|by intros ?%elem_of_nil]. }
  { apply NoDup_nil_2. }
  { simpl. lia. }
  split; [exact H1|]. split; [by rewrite E|]. split; [exact H3|].
  split; [exact H4|]. apply search_results_small.
Qed.

(** X30.  The parser recovers the set id from the name that the crawler
    gave the file: for a URL whose query is [setid=id], with an id of
    hexadecimal digits and hyphens, the page is saved under a name from
    which [get_setid] reads exactly [id], whatever the page holds;
    provided the sanitised path has no component [setid] of its own
    and the name is not cut at 200 characters. *)
Theorem parser_recovers_setid_of_crawled_page (html path id : string) :
  let pre := sub unsafe_pattern ["_"%char]
                 (lstrip "/" (list_ascii_of_string path)) in
  list_ascii_of_string "setid" ∉ split_on "_" pre →
  forallb uuid_char (list_ascii_of_string id) = true →
  length pre + 7 + String.length id ≤ 200 →
  get_setid html (html_file_name (path ++ "?setid=" ++ id)) = inr (Some id).
Proof.
  cbv zeta. intros Hpre Hid Hlen.
  destruct (uuid_chars_plain _ Hid) as (_ & H1 & H2).
  rewrite (get_setid_file_name html _ _ (list_ascii_of_string id)
             (list_ascii_of_string "html")
             (safe_name_setid path id Hid Hlen) Hpre H1 H2).
  by rewrite string_of_list_ascii_of_string.
Qed.

Lemma parser_recovers_setid_of_crawled_page_witness :
  get_setid "<html></html>"
    (html_file_name
       ("/dailymed/drugInfo.cfm" ++ "?setid="
        ++ "0a1b2c3d-0a1b-0a1b-0a1b-0a1b2c3d4e5f"))
  = inr (Some "0a1b2c3d-0a1b-0a1b-0a1b-0a1b2c3d4e5f").
Proof.
  apply (parser_recovers_setid_of_crawled_page "<html></html>"
           "/dailymed/drugInfo.cfm" "0a1b2c3d-0a1b-0a1b-0a1b-0a1b2c3d4e5f").
  - apply (bool_decide_unpack _). vm_compute. exact I.
  - vm_compute. reflexivity.
  - vm_compute. lia.
Defined.
